(** * AuthKeySync: a shallow embedding of the synchronisation engine

    The development follows the Go packages of the repository:
    [keyparser], [config], [userinfo], [keyfetcher], [sshfile], [backup],
    [sync] and the exit status computed by [main].  Part I holds the
    definitions, Part II the lemmas and the theorems about them.

    Go strings and byte slices are lists of bytes ([list ascii]); Go [int]
    counters are [Z] (every counter below counts elements of an input that is
    held in memory, so it never leaves the 64-bit range); Go maps are stdpp
    [gmap]s; a Go [error] is a value of the inductive type [error] and a
    function returning [(T, error)] returns a [result T]. *)

From Stdlib Require Import ZArith NArith Ascii Lia.
From Stdlib Require String.
From stdpp Require Import base tactics option list strings gmap sorting.

Abbreviation gostring := (list ascii).

(** A literal of the source. *)
Definition str (s : string) : gostring := String.list_ascii_of_string s.

(* ===================================================================== *)
(** * Part I: definitions *)
(* ===================================================================== *)

(** ** Errors *)

(** Go error values.  The four [userinfo] sentinels, the scanner's
    [bufio.ErrTooLong] and the context errors are distinct values, compared by
    identity in [errors.Is]; [OsError] stands for any other error of the
    operating system or of a library; [Errorf msg] is [fmt.Errorf] with the
    message [msg] and [Wrapf msg inner] is [fmt.Errorf] with a [%w] verb that
    wraps [inner]. *)
Inductive error : Type :=
| ErrUserNotFound
| ErrNoHomeDir
| ErrSSHDirNotFound
| ErrSSHDirNotDir
| ErrTooLong
| Canceled
| DeadlineExceeded
| OsError (msg : string)
| Errorf (msg : string)
| Wrapf (msg : string) (inner : error).

Inductive result (A : Type) : Type :=
| Ok (a : A)
| Err (e : error).
Arguments Ok {A} a.
Arguments Err {A} e.

Definition error_eqb_head (e target : error) : bool :=
  match e, target with
  | ErrUserNotFound, ErrUserNotFound => true
  | ErrNoHomeDir, ErrNoHomeDir => true
  | ErrSSHDirNotFound, ErrSSHDirNotFound => true
  | ErrSSHDirNotDir, ErrSSHDirNotDir => true
  | ErrTooLong, ErrTooLong => true
  | Canceled, Canceled => true
  | DeadlineExceeded, DeadlineExceeded => true
  | _, _ => false
  end.

(** [errors.Is]: walks the chain of wrapped errors looking for the sentinel
    [target]. *)
Fixpoint errorsIs (e target : error) : bool :=
  error_eqb_head e target ||
  match e with
  | Wrapf _ inner => errorsIs inner target
  | _ => false
  end.

(** ** The Go standard library functions the parser calls *)

Module gostrings.

(** [strings.HasPrefix]. *)
Fixpoint HasPrefix (s prefix : gostring) {struct prefix} : bool :=
  match prefix, s with
  | [], _ => true
  | p :: prefix', c :: s' => Ascii.eqb c p && HasPrefix s' prefix'
  | _ :: _, [] => false
  end.

(** The UTF-8 encodings of the code points for which [unicode.IsSpace]
    holds: TAB, LF, VT, FF, CR, SPACE, U+0085, U+00A0, U+1680,
    U+2000..U+200A, U+2028, U+2029, U+202F, U+205F and U+3000.  A Go string
    has a white-space rune at some byte offset exactly when one of these
    byte sequences starts there: every one of them starts with an ASCII or
    a leading byte, which the decoder never consumes inside another rune. *)
Definition whiteSpace : list gostring :=
  Eval vm_compute in
    map (map ascii_of_N)
      [ [9]; [10]; [11]; [12]; [13]; [32];
        [194; 133]; [194; 160];
        [225; 154; 128];
        [226; 128; 128]; [226; 128; 129]; [226; 128; 130]; [226; 128; 131];
        [226; 128; 132]; [226; 128; 133]; [226; 128; 134]; [226; 128; 135];
        [226; 128; 136]; [226; 128; 137]; [226; 128; 138];
        [226; 128; 168]; [226; 128; 169]; [226; 128; 175];
        [226; 129; 159];
        [227; 128; 128] ]%N.

(** The same encodings read from the end of a string. *)
Definition whiteSpaceRev : list gostring :=
  Eval vm_compute in map (@rev ascii) whiteSpace.

(** [cut table s]: [s] without the white-space rune it starts with, if it
    starts with one. *)
Definition cut (table : list gostring) (s : gostring) : option gostring :=
  match List.find (HasPrefix s) table with
  | Some w => Some (drop (length w) s)
  | None => None
  end.

(** Removes white-space runes from the front of [s]; [n] bounds the number
    of runes removed. *)
Fixpoint trimN (table : list gostring) (n : nat) (s : gostring) : gostring :=
  match n with
  | O => s
  | S n' =>
      match cut table s with
      | Some s' => trimN table n' s'
      | None => s
      end
  end.

Definition TrimLeftSpace (s : gostring) : gostring :=
  trimN whiteSpace (length s) s.

Definition TrimRightSpace (s : gostring) : gostring :=
  rev (trimN whiteSpaceRev (length s) (rev s)).

(** [strings.TrimSpace]. *)
Definition TrimSpace (s : gostring) : gostring :=
  TrimRightSpace (TrimLeftSpace s).

Definition flush (cur : gostring) : list gostring :=
  match cur with
  | [] => []
  | _ :: _ => [cur]
  end.

(** The fields of [s] after the field [cur] that is being read; [n] bounds
    the number of steps. *)
Fixpoint fieldsN (n : nat) (cur s : gostring) : list gostring :=
  match n with
  | O => flush cur
  | S n' =>
      match s with
      | [] => flush cur
      | c :: s' =>
          match cut whiteSpace s with
          | Some rest => flush cur ++ fieldsN n' [] rest
          | None => fieldsN n' (cur ++ [c]) s'
          end
      end
  end.

(** [strings.Fields]: the maximal runs of bytes without white space. *)
Definition Fields (s : gostring) : list gostring :=
  fieldsN (length s) [] s.

Definition newline : ascii := "010"%char.
Definition carriageReturn : ascii := "013"%char.

(** The lines of a text, each without its terminating newline; a text that
    ends in a newline has no empty last line. *)
Fixpoint splitLines (data : gostring) : list gostring :=
  match data with
  | [] => []
  | c :: rest =>
      if Ascii.eqb c newline then [] :: splitLines rest
      else
        match splitLines rest with
        | [] => [[c]]
        | l :: ls => (c :: l) :: ls
        end
  end.

(** [dropCR] of [bufio.ScanLines]: one trailing carriage return is dropped. *)
Fixpoint dropCR (l : gostring) : gostring :=
  match l with
  | [] => []
  | [c] => if Ascii.eqb c carriageReturn then [] else [c]
  | c :: l' => c :: dropCR l'
  end.

(** [bufio.MaxScanTokenSize]: the size of the largest buffer of a
    [bufio.Scanner] that was not given one by [Buffer]. *)
Definition MaxScanTokenSize : Z := 64 * 1024.

(** An [io.Reader] that delivers [data] and then reports either the end of
    the input ([None]) or a read error. *)
Record Reader : Type := { data : gostring; readErr : option error }.

(** [strings.NewReader]. *)
Definition NewReader (s : gostring) : Reader :=
  {| data := s; readErr := None |}.

(** The tokens a [bufio.Scanner] with the [ScanLines] split function hands
    out for the given lines, and [scanner.Err()] after the last one.  The
    scanner needs a line and its newline in its buffer at once: with
    [MaxScanTokenSize] bytes buffered and no newline among them it stops
    with [ErrTooLong].  [final] is what the reader reports after its data. *)
Fixpoint scanLines (lines : list gostring) (final : option error)
  : list gostring * option error :=
  match lines with
  | [] => ([], final)
  | l :: ls =>
      if (MaxScanTokenSize <=? Z.of_nat (length l))%Z
      then ([], Some ErrTooLong)
      else
        let '(tokens, err) := scanLines ls final in
        (dropCR l :: tokens, err)
  end.

Definition Scan (r : Reader) : list gostring * option error :=
  scanLines (splitLines (data r)) (readErr r).

End gostrings.

(** ** Package keyparser *)

Module keyparser.
Import gostrings.

Record ParsedKey : Type := { Line : gostring; LineNumber : Z }.

Record ParseResult : Type := { Keys : list ParsedKey; DiscardedLines : Z }.

Definition startsWith (line : gostring) (c : ascii) : bool :=
  HasPrefix line [c].

(** [isValidKey]: is the trimmed line a key line? *)
Definition isValidKey (line : gostring) : bool :=
  match line with
  | [] => false
  | _ :: _ =>
      if startsWith line "#" then false
      else if startsWith line "<" || startsWith line "{" || startsWith line "["
      then false
      else (2 <=? length (Fields line))%nat
  end.

(** [IsValidKey], exported for the tests. *)
Definition IsValidKey (line : gostring) : bool :=
  isValidKey (TrimSpace line).

(** The body of [Parse]'s loop, run over the tokens of the scanner. *)
Fixpoint parseLoop (tokens : list gostring) (lineNumber : Z)
    (result : ParseResult) : ParseResult :=
  match tokens with
  | [] => result
  | text :: rest =>
      let lineNumber := (lineNumber + 1)%Z in
      let line := TrimSpace text in
      if isValidKey line then
        parseLoop rest lineNumber
          {| Keys := Keys result ++ [ {| Line := line; LineNumber := lineNumber |} ];
             DiscardedLines := DiscardedLines result |}
      else
        match line with
        | _ :: _ =>
            parseLoop rest lineNumber
              {| Keys := Keys result;
                 DiscardedLines := (DiscardedLines result + 1)%Z |}
        | [] => parseLoop rest lineNumber result
        end
  end.

(** [Parse]. *)
Definition Parse (r : Reader) : result ParseResult :=
  let '(tokens, scanErr) := Scan r in
  let result := parseLoop tokens 0 {| Keys := []; DiscardedLines := 0 |} in
  match scanErr with
  | Some err => Err err
  | None => Ok result
  end.

(** [ParseString]. *)
Definition ParseString (content : gostring) : result ParseResult :=
  Parse (NewReader content).

End keyparser.

(** ** Package config *)

Module config.

Definition DefaultBackupRetentionCount : Z := 10.
Definition DefaultTimeoutSeconds : Z := 10.

(** The three settings are pointers in the source: [None] is [nil]. *)
Record Policy : Type := {
  BackupEnabled : option bool;
  BackupRetentionCount : option Z;
  PreserveLocalKeys : option bool
}.

Definition IsBackupEnabled (p : Policy) : bool :=
  match BackupEnabled p with
  | None => true
  | Some b => b
  end.

Definition GetBackupRetentionCount (p : Policy) : Z :=
  match BackupRetentionCount p with
  | None => DefaultBackupRetentionCount
  | Some n => n
  end.

Definition IsPreserveLocalKeys (p : Policy) : bool :=
  match PreserveLocalKeys p with
  | None => true
  | Some b => b
  end.

Record Source : Type := {
  URL : gostring;
  Method : gostring;
  Headers : gmap gostring gostring;
  Body : gostring;
  TimeoutSeconds : option Z
}.

Definition GetTimeoutSeconds (s : Source) : Z :=
  match TimeoutSeconds s with
  | None => DefaultTimeoutSeconds
  | Some n => n
  end.

Record User : Type := { Username : gostring; Sources : list Source }.

Record Config : Type := { policy : Policy; Users : list User }.

End config.

(** ** Package version: the build metadata, set when the binary is linked *)

Module version.
Record Info : Type := { Version : gostring; Commit : gostring; Date : gostring }.
End version.

(** ** Time, as the injected [timeNow] providers return it *)

Module gotime.

(** A UTC wall-clock time with a year of four digits. *)
Record Time : Type := {
  year : Z; month : Z; day : Z; hour : Z; minute : Z; second : Z
}.

Definition digitChar (d : Z) : ascii := ascii_of_N (Z.to_N (48 + d mod 10)).

(** The last [width] decimal digits of [n], zero-padded. *)
Fixpoint decimal (width : nat) (n : Z) : gostring :=
  match width with
  | O => []
  | S w => decimal w (n / 10) ++ [digitChar n]
  end.

(** [t.UTC().Format("2006-01-02T15:04:05Z")]. *)
Definition FormatISO (t : Time) : gostring :=
  decimal 4 (year t) ++ str "-" ++ decimal 2 (month t) ++ str "-" ++
  decimal 2 (day t) ++ str "T" ++ decimal 2 (hour t) ++ str ":" ++
  decimal 2 (minute t) ++ str ":" ++ decimal 2 (second t) ++ str "Z".

(** [t.UTC().Format("20060102_150405")]. *)
Definition FormatCompact (t : Time) : gostring :=
  decimal 4 (year t) ++ decimal 2 (month t) ++ decimal 2 (day t) ++
  str "_" ++ decimal 2 (hour t) ++ decimal 2 (minute t) ++
  decimal 2 (second t).

End gotime.

(** ** The file system under a user's [.ssh] directory *)

Module fs.

(** An entry of the backup directory. *)
Inductive Entry : Type :=
| RegularFile (content : gostring)
| SubDirectory.

(** What is at [<ssh dir>/authorized_keys_backups]. *)
Inductive BackupNode : Type :=
| NoBackupDir
| BackupNotDir
| BackupDir (entries : gmap gostring Entry).

(** A [.ssh] directory: the [authorized_keys] file ([None]: absent), the
    backup directory and the other files by name. *)
Record SshDir : Type := {
  authKeys : option gostring;
  backups : BackupNode;
  others : gmap gostring gostring
}.

(** What is at the path of a [.ssh] directory. *)
Inductive Node : Type :=
| NotADirectory
| Directory (d : SshDir).

(** The system calls of the pipeline; each may fail in the environment. *)
Inductive IoOp : Type :=
| StatSshDir | ReadAuthKeys | StatAuthKeys
| StatBackupDir | MkdirBackupDir | ChownBackupDir
| OpenAuthKeys | CreateBackupFile | CopyBackup | SyncBackup | ChownBackup
| ReadBackupDir | RemoveBackup (name : gostring)
| CreateTemp | ChmodTemp | ChownTemp | WriteTemp | SyncTemp | CloseTemp
| RenameTemp | RemoveTemp.

Definition emptyDir : SshDir :=
  {| authKeys := None; backups := NoBackupDir; others := ∅ |}.

(** The directory at [path]; after a successful [Lookup] there is one. *)
Definition sshDirAt (files : gmap gostring Node) (path : gostring) : SshDir :=
  match files !! path with
  | Some (Directory d) => d
  | _ => emptyDir
  end.

Definition setAuthKeys (d : SshDir) (c : option gostring) : SshDir :=
  {| authKeys := c; backups := backups d; others := others d |}.

Definition setBackups (d : SshDir) (b : BackupNode) : SshDir :=
  {| authKeys := authKeys d; backups := b; others := others d |}.

Definition setOthers (d : SshDir) (o : gmap gostring gostring) : SshDir :=
  {| authKeys := authKeys d; backups := backups d; others := o |}.

(** [filepath.Join] of a clean path and a file name. *)
Definition Join (dir name : gostring) : gostring := dir ++ str "/" ++ name.

End fs.

(** ** What the pipeline of one user meets outside the program *)

Module world.

(** The account as [os/user] reports it. *)
Record OsUser : Type := { Uid : gostring; Gid : gostring; HomeDir : gostring }.

Inductive UserLookup : Type :=
| UnknownUser
| LookupFailed (msg : string)
| Found (u : OsUser).

(** One HTTP exchange: the request is refused when it is built, or the
    transport fails, or a response arrives whose body is a reader. *)
Inductive HttpOutcome : Type :=
| RequestRejected (e : error)
| TransportFailed (e : error)
| Responded (status : Z) (body : gostrings.Reader).

(** The environment during the pipeline of one user.  [ioFailure op] is the
    message of the operating system's error if the system call [op] fails.
    [exchange i source] is
    the outcome of the request to the [i]-th source (from 0) if the context
    is live; [cancelAt = Some k] says that the run's context is cancelled
    while the pipeline runs, before the exchange with source [k] is over (a
    [k] past the last source: after the fetches). *)
Record Env : Type := {
  osUser : gostring -> UserLookup;
  ioFailure : fs.IoOp -> option string;
  exchange : nat -> config.Source -> HttpOutcome;
  cancelAt : option nat;
  buildTime : gotime.Time;
  backupTime : gotime.Time;
  backupId : result gostring;
  tempTime : gotime.Time;
  tempId : result gostring
}.

(** The error of the system call [op], if it fails. *)
Definition ioError (env : Env) (op : fs.IoOp) : option error :=
  OsError <$> ioFailure env op.

(** The state the run threads through the users: the files, and whether the
    run's context has been cancelled. *)
Record World : Type := {
  files : gmap gostring fs.Node;
  ctxDone : bool
}.

End world.

(** ** Package userinfo *)

Module userinfo.
Import world.

Record UserInfo : Type := {
  Username : gostring;
  UID : Z;
  GID : Z;
  HomeDir : gostring;
  SSHDir : gostring;
  AuthKeysPath : gostring;
  BackupDir : gostring
}.

Definition digit (c : ascii) : option Z :=
  let n := Z.of_N (N_of_ascii c) in
  if ((48 <=? n) && (n <=? 57))%Z then Some (n - 48)%Z else None.

Fixpoint digits (acc : Z) (s : gostring) : option Z :=
  match s with
  | [] => Some acc
  | c :: s' =>
      match digit c with
      | Some d => digits (10 * acc + d)%Z s'
      | None => None
      end
  end.

(** [strconv.Atoi]: an optional sign and decimal digits, within the range
    of a 64-bit [int]. *)
Definition Atoi (s : gostring) : option Z :=
  let '(negative, ds) :=
    match s with
    | c :: s' =>
        if Ascii.eqb c "-" then (true, s')
        else if Ascii.eqb c "+" then (false, s')
        else (false, s)
    | [] => (false, [])
    end in
  match ds with
  | [] => None
  | _ :: _ =>
      match digits 0 ds with
      | Some v =>
          let v := if negative then (- v)%Z else v in
          if ((- 2 ^ 63 <=? v) && (v <? 2 ^ 63))%Z then Some v else None
      | None => None
      end
  end.

(** [os.Stat] of the [.ssh] directory. *)
Inductive StatResult : Type :=
| StatNotExist
| StatError (e : error)
| StatOk (isDir : bool).

Definition statSshDir (env : Env) (files : gmap gostring fs.Node)
    (sshDir : gostring) : StatResult :=
  match ioError env fs.StatSshDir with
  | Some e => StatError e
  | None =>
      match files !! sshDir with
      | None => StatNotExist
      | Some fs.NotADirectory => StatOk false
      | Some (fs.Directory _) => StatOk true
      end
  end.

(** [Lookup]. *)
Definition Lookup (env : Env) (files : gmap gostring fs.Node)
    (username : gostring) : result UserInfo :=
  match osUser env username with
  | UnknownUser => Err (Wrapf "%w: %s" ErrUserNotFound)
  | LookupFailed msg =>
      Err (Wrapf "failed to lookup user %s: %w" (OsError msg))
  | Found u =>
      match Atoi (world.Uid u) with
      | None =>
          Err (Wrapf "failed to parse UID for user %s: %w"
                 (OsError "strconv.Atoi: parsing: invalid syntax"))
      | Some uid =>
          match Atoi (world.Gid u) with
          | None =>
              Err (Wrapf "failed to parse GID for user %s: %w"
                     (OsError "strconv.Atoi: parsing: invalid syntax"))
          | Some gid =>
              match world.HomeDir u with
              | [] => Err (Wrapf "%w: %s" ErrNoHomeDir)
              | _ :: _ =>
                  let sshDir := fs.Join (world.HomeDir u) (str ".ssh") in
                  match statSshDir env files sshDir with
                  | StatNotExist => Err (Wrapf "%w: %s" ErrSSHDirNotFound)
                  | StatError err =>
                      Err (Wrapf "failed to stat .ssh directory for user %s: %w" err)
                  | StatOk false => Err (Wrapf "%w: %s" ErrSSHDirNotDir)
                  | StatOk true =>
                      Ok {| Username := username;
                            UID := uid;
                            GID := gid;
                            HomeDir := world.HomeDir u;
                            SSHDir := sshDir;
                            AuthKeysPath := fs.Join sshDir (str "authorized_keys");
                            BackupDir := fs.Join sshDir (str "authorized_keys_backups") |}
                  end
              end
          end
      end
  end.

End userinfo.

(** ** Package keyfetcher *)

Module keyfetcher.
Import world gostrings.

(** [MaxResponseSize]: the maximum response body size (10MB). *)
Definition MaxResponseSize : Z := 10 * 1024 * 1024.

Record FetchResult : Type := {
  Source : config.Source;
  Keys : list keyparser.ParsedKey;
  Error : option error;
  StatusCode : Z;
  DiscardedLines : Z
}.

Definition withError (r : FetchResult) (e : error) : FetchResult :=
  {| Source := Source r; Keys := Keys r; Error := Some e;
     StatusCode := StatusCode r; DiscardedLines := DiscardedLines r |}.

Definition withStatusCode (r : FetchResult) (code : Z) : FetchResult :=
  {| Source := Source r; Keys := Keys r; Error := Error r;
     StatusCode := code; DiscardedLines := DiscardedLines r |}.

(** The first [n] elements of [l], for a count given in binary. *)
Fixpoint takeZ {A : Type} (n : Z) (l : list A) : list A :=
  match l with
  | [] => []
  | x :: l' => if (n <=? 0)%Z then [] else x :: takeZ (n - 1)%Z l'
  end.

(** [io.LimitReader]: reports the end of the input after [n] bytes and
    never reads the underlying reader past them. *)
Definition LimitReader (r : Reader) (n : Z) : Reader :=
  {| data := takeZ n (data r);
     readErr := if (n <=? Z.of_nat (length (data r)))%Z then None else readErr r |}.

(** [io.ReadAll]. *)
Definition ReadAll (r : Reader) : result gostring :=
  match readErr r with
  | Some e => Err e
  | None => Ok (data r)
  end.

Definition StatusOK : Z := 200.

(** [Fetch], with the context as [done] (cancelled before the exchange is
    over) and the exchange as the environment's [outcome].  A cancelled
    context makes [client.Do] or the read of the body fail with
    [context.Canceled]. *)
Definition Fetch (done : bool) (outcome : HttpOutcome) (source : config.Source)
  : FetchResult :=
  let result :=
    {| Source := source; Keys := []; Error := None; StatusCode := 0;
       DiscardedLines := 0 |} in
  match outcome with
  | RequestRejected err =>
      withError result (Wrapf "failed to create request: %w" err)
  | TransportFailed err =>
      withError result
        (Wrapf "request failed: %w" (if done then Canceled else err))
  | Responded status body =>
      if done then withError result (Wrapf "request failed: %w" Canceled)
      else
        let result := withStatusCode result status in
        if negb (status =? StatusOK)%Z then
          withError result (Errorf "unexpected status code: %d")
        else
          match ReadAll (LimitReader body MaxResponseSize) with
          | Err err =>
              withError result (Wrapf "failed to read response body: %w" err)
          | Ok body =>
              match keyparser.ParseString body with
              | Err err =>
                  withError result (Wrapf "failed to parse keys: %w" err)
              | Ok parseResult =>
                  {| Source := source;
                     Keys := keyparser.Keys parseResult;
                     Error := None;
                     StatusCode := status;
                     DiscardedLines := keyparser.DiscardedLines parseResult |}
              end
          end
  end.

(** Is the context cancelled before the exchange with source [i] is over? *)
Definition doneAt (env : Env) (w : World) (i : nat) : bool :=
  ctxDone w ||
  match cancelAt env with
  | Some k => (k <=? i)%nat
  | None => false
  end.

(** The loop of [FetchAll] from source number [i] on. *)
Fixpoint fetchFrom (env : Env) (w : World) (i : nat)
    (sources : list config.Source) (results : list FetchResult)
  : list FetchResult * option error :=
  match sources with
  | [] => (results, None)
  | source :: rest =>
      let result := Fetch (doneAt env w i) (exchange env i source) source in
      let results := results ++ [result] in
      match Error result with
      | Some err => (results, Some (Wrapf "source %s failed: %w" err))
      | None => fetchFrom env w (S i) rest results
      end
  end.

(** [FetchAll]. *)
Definition FetchAll (env : Env) (w : World) (sources : list config.Source)
  : list FetchResult * option error :=
  fetchFrom env w 0 sources [].

End keyfetcher.

(** ** Package sshfile *)

Module sshfile.
Import world fs.

Definition TempFilePrefix : gostring := str ".authkeysync_".

Record WriteResult : Type := { Changed : bool; Path : gostring }.

(** [os.ReadFile] of [authorized_keys]: [None] when the file is absent. *)
Definition readFile (env : Env) (d : SshDir) : result (option gostring) :=
  match ioError env ReadAuthKeys with
  | Some e => Err e
  | None => Ok (authKeys d)
  end.

(** [ReadContent]: an absent file reads as the empty byte slice. *)
Definition ReadContent (env : Env) (d : SshDir) : result gostring :=
  match readFile env d with
  | Err e => Err (Wrapf "failed to read authorized_keys: %w" e)
  | Ok None => Ok []
  | Ok (Some content) => Ok content
  end.

(** The deferred clean-up of [WriteAtomic]: the temporary file is removed,
    best effort. *)
Definition cleanup (env : Env) (d : SshDir) (tempFilename : gostring) : SshDir :=
  match ioError env RemoveTemp with
  | Some _ => d
  | None => setOthers d (delete tempFilename (others d))
  end.

(** [WriteAtomic] on the directory [d] at the path [sshDir]. *)
Definition WriteAtomic (env : Env) (d : SshDir) (sshDir content : gostring)
  : SshDir * result WriteResult :=
  let authKeysPath := Join sshDir (str "authorized_keys") in
  let unchanged :=
    match readFile env d with
    | Ok (Some existingContent) => bool_decide (existingContent = content)
    | _ => false
    end in
  if unchanged then (d, Ok {| Changed := false; Path := authKeysPath |})
  else
    let timestamp := gotime.FormatCompact (tempTime env) in
    match tempId env with
    | Err err => (d, Err (Wrapf "failed to generate temp file ID: %w" err))
    | Ok id =>
        let tempFilename := TempFilePrefix ++ timestamp ++ str "_" ++ id in
        let fail (d' : SshDir) (msg : string) (err : error) :=
          (cleanup env d' tempFilename, Err (Wrapf msg err)) in
        match ioError env CreateTemp, others d !! tempFilename with
        | Some err, _ => (d, Err (Wrapf "failed to create temp file: %w" err))
        | None, Some _ =>
            (d, Err (Wrapf "failed to create temp file: %w" (OsError "file exists")))
        | None, None =>
            let d1 := setOthers d (<[tempFilename := []]> (others d)) in
            match ioError env ChmodTemp with
            | Some err => fail d1 "failed to set temp file permissions: %w" err
            | None =>
            match ioError env ChownTemp with
            | Some err => fail d1 "failed to set temp file ownership: %w" err
            | None =>
            match ioError env WriteTemp with
            | Some err => fail d1 "failed to write content: %w" err
            | None =>
            let d2 := setOthers d (<[tempFilename := content]> (others d)) in
            match ioError env SyncTemp with
            | Some err => fail d2 "failed to sync temp file: %w" err
            | None =>
            match ioError env CloseTemp with
            | Some err => fail d2 "failed to close temp file: %w" err
            | None =>
            match ioError env RenameTemp with
            | Some err => fail d2 "failed to rename temp file: %w" err
            | None =>
                (setAuthKeys d (Some content),
                 Ok {| Changed := true; Path := authKeysPath |})
            end end end end end end
        end
    end.

End sshfile.

(** ** Package backup *)

Module backup.
Import world fs.

Definition BackupDirName : gostring := str "authorized_keys_backups".
Definition BackupPrefix : gostring := str "authorized_keys_".

(** The order of Go's [<] on strings: bytewise lexicographic. *)
Fixpoint strLeb (a b : gostring) : bool :=
  match a, b with
  | [], _ => true
  | _ :: _, [] => false
  | x :: a', y :: b' =>
      if (N_of_ascii x <? N_of_ascii y)%N then true
      else if (N_of_ascii y <? N_of_ascii x)%N then false
      else strLeb a' b'
  end.

Definition strLe (a b : gostring) : Prop := strLeb a b = true.

#[global] Instance strLe_dec (a b : gostring) : Decision (strLe a b).
Proof. unfold strLe. apply _. Defined.

(** [sort.Strings]. *)
Definition sortStrings (l : list gostring) : list gostring :=
  merge_sort strLe l.

(** [ensureBackupDir]. *)
Definition ensureBackupDir (env : Env) (d : SshDir) : SshDir * option error :=
  match ioError env StatBackupDir, backups d with
  | Some err, _ => (d, Some (Wrapf "failed to stat backup directory: %w" err))
  | None, BackupDir _ => (d, None)
  | None, BackupNotDir =>
      (d, Some (Errorf "backup path exists but is not a directory: %s"))
  | None, NoBackupDir =>
      match ioError env MkdirBackupDir with
      | Some err => (d, Some (Wrapf "failed to create backup directory: %w" err))
      | None =>
          let d := setBackups d (BackupDir ∅) in
          match ioError env ChownBackupDir with
          | Some err =>
              (d, Some (Wrapf "failed to set backup directory ownership: %w" err))
          | None => (d, None)
          end
      end
  end.

Definition putBackup (d : SshDir) (name : gostring) (e : Entry) : SshDir :=
  match backups d with
  | BackupDir entries => setBackups d (BackupDir (<[name := e]> entries))
  | _ => d
  end.

Definition backupEntry (d : SshDir) (name : gostring) : option Entry :=
  match backups d with
  | BackupDir entries => entries !! name
  | _ => None
  end.

(** [copyFile] of [authorized_keys] to the entry [dst] of the backup
    directory. *)
Definition copyFile (env : Env) (d : SshDir) (dst : gostring)
  : SshDir * option error :=
  match ioError env OpenAuthKeys, authKeys d with
  | Some err, _ => (d, Some (Wrapf "failed to open source file: %w" err))
  | None, None =>
      (d, Some (Wrapf "failed to open source file: %w" (OsError "no such file")))
  | None, Some content =>
      match ioError env CreateBackupFile, backupEntry d dst with
      | Some err, _ => (d, Some (Wrapf "failed to create backup file: %w" err))
      | None, Some SubDirectory =>
          (d, Some (Wrapf "failed to create backup file: %w"
                      (OsError "is a directory")))
      | None, _ =>
          let d1 := putBackup d dst (RegularFile []) in
          match ioError env CopyBackup with
          | Some err => (d1, Some (Wrapf "failed to copy file content: %w" err))
          | None =>
              let d2 := putBackup d dst (RegularFile content) in
              match ioError env SyncBackup with
              | Some err => (d2, Some (Wrapf "failed to sync backup file: %w" err))
              | None =>
                  match ioError env ChownBackup with
                  | Some err =>
                      (d2, Some (Wrapf "failed to set backup file ownership: %w" err))
                  | None => (d2, None)
                  end
              end
          end
      end
  end.

(** [CreateBackup] on the directory [d] at the path [sshDir]: the path of
    the backup, or the empty string if none was made. *)
Definition CreateBackup (env : Env) (d : SshDir) (sshDir : gostring)
  : SshDir * result gostring :=
  match ioError env StatAuthKeys, authKeys d with
  | Some err, _ => (d, Err (Wrapf "failed to stat authorized_keys: %w" err))
  | None, None => (d, Ok [])
  | None, Some [] => (d, Ok [])
  | None, Some (_ :: _) =>
      let backupDir := Join sshDir BackupDirName in
      match ensureBackupDir env d with
      | (d, Some err) => (d, Err err)
      | (d, None) =>
          let timestamp := gotime.FormatCompact (backupTime env) in
          match backupId env with
          | Err err => (d, Err (Wrapf "failed to generate backup ID: %w" err))
          | Ok id =>
              let backupFilename := BackupPrefix ++ timestamp ++ str "_" ++ id in
              let backupPath := Join backupDir backupFilename in
              match copyFile env d backupFilename with
              | (d, Some err) => (d, Err err)
              | (d, None) => (d, Ok backupPath)
              end
          end
      end
  end.

(** [os.ReadDir]: the entries, sorted by file name. *)
Definition readDir (entries : gmap gostring Entry) : list (gostring * Entry) :=
  merge_sort (λ a b, strLe a.1 b.1) (map_to_list entries).

Definition isDir (e : Entry) : bool :=
  match e with
  | SubDirectory => true
  | RegularFile _ => false
  end.

(** The filter loop of [RotateBackups]. *)
Fixpoint collectBackups (entries : list (gostring * Entry))
    (backups : list gostring) : list gostring :=
  match entries with
  | [] => backups
  | (name, e) :: rest =>
      if isDir e then collectBackups rest backups
      else if gostrings.HasPrefix name BackupPrefix
      then collectBackups rest (backups ++ [name])
      else collectBackups rest backups
  end.

(** The delete loop of [RotateBackups]: [count] is what is left of
    [deleteCount], [names] is [backups[i:]]. *)
Fixpoint deleteOldest (env : Env) (count : nat) (names : list gostring)
    (entries : gmap gostring Entry) (deleted : list gostring)
  : gmap gostring Entry * list gostring * option error :=
  match count, names with
  | S count', name :: rest =>
      match ioError env (RemoveBackup name) with
      | Some err =>
          (entries, deleted, Some (Wrapf "failed to remove backup %s: %w" err))
      | None =>
          deleteOldest env count' rest (delete name entries) (deleted ++ [name])
      end
  | _, _ => (entries, deleted, None)
  end.

(** [RotateBackups]: the directory afterwards, the names deleted and the
    error. *)
Definition RotateBackups (env : Env) (d : SshDir) (retentionCount : Z)
  : SshDir * list gostring * option error :=
  if (retentionCount <? 0)%Z then
    (d, [], Some (Errorf "retention count cannot be negative"))
  else
    match ioError env StatBackupDir, backups d with
    | None, NoBackupDir => (d, [], None)
    | _, BackupDir entries =>
        match ioError env ReadBackupDir with
        | Some err => (d, [], Some (Wrapf "failed to read backup directory: %w" err))
        | None =>
            let backups := sortStrings (collectBackups (readDir entries) []) in
            let deleteCount := (Z.of_nat (length backups) - retentionCount)%Z in
            if (deleteCount <=? 0)%Z then (d, [], None)
            else
              let '(entries, deleted, err) :=
                deleteOldest env (Z.to_nat deleteCount) backups entries [] in
              (setBackups d (BackupDir entries), deleted, err)
        end
    | _, _ =>
        (d, [], Some (Wrapf "failed to read backup directory: %w"
                        (OsError "not a directory")))
    end.

End backup.

(** ** Package sync *)

Module sync.
Import world.

(** The injected providers are in the environment; the build metadata of
    package [version] is kept with the syncer. *)
Record Syncer : Type := {
  cfg : config.Config;
  dryRun : bool;
  build : version.Info
}.

Record UserResult : Type := {
  Username : gostring;
  Skipped : bool;
  SkipReason : gostring;
  Error : option error;
  KeysWritten : Z;
  LocalKeys : Z;
  Changed : bool;
  BackupPath : gostring
}.

Record SyncResult : Type := { Users : list UserResult; HasErrors : bool }.

Record DuplicateInfo : Type := {
  Key : gostring;
  FirstSource : gostring;
  DuplicateSource : gostring
}.

Record ContentStats : Type := {
  TotalKeys : Z;
  LocalKeysCount : Z;
  Duplicates : list DuplicateInfo
}.

Record sourceKeys : Type := { url : gostring; keys : list gostring }.

(** The loop over the keys of one origin, the same for a remote source
    ([origin] is its URL) and for the local file ([origin] is ["Local"]):
    a key that was seen is recorded as a duplicate, any other is marked as
    seen and appended to [kept]. *)
Fixpoint dedupKeys (origin : gostring) (ks : list keyparser.ParsedKey)
    (seenKeys : gmap gostring gostring) (duplicates : list DuplicateInfo)
    (kept : list gostring)
  : gmap gostring gostring * list DuplicateInfo * list gostring :=
  match ks with
  | [] => (seenKeys, duplicates, kept)
  | key :: rest =>
      match seenKeys !! keyparser.Line key with
      | Some firstSource =>
          dedupKeys origin rest seenKeys
            (duplicates ++ [ {| Key := keyparser.Line key;
                                FirstSource := firstSource;
                                DuplicateSource := origin |} ])
            kept
      | None =>
          dedupKeys origin rest
            (<[keyparser.Line key := origin]> seenKeys)
            duplicates
            (kept ++ [keyparser.Line key])
      end
  end.

(** The loop over the remote sources, in order. *)
Fixpoint dedupSources (fetchResults : list keyfetcher.FetchResult)
    (seenKeys : gmap gostring gostring) (duplicates : list DuplicateInfo)
    (sources : list sourceKeys)
  : gmap gostring gostring * list DuplicateInfo * list sourceKeys :=
  match fetchResults with
  | [] => (seenKeys, duplicates, sources)
  | fr :: rest =>
      let origin := config.URL (keyfetcher.Source fr) in
      let '(seenKeys, duplicates, kept) :=
        dedupKeys origin (keyfetcher.Keys fr) seenKeys duplicates [] in
      let sources :=
        match kept with
        | _ :: _ => sources ++ [ {| url := origin; keys := kept |} ]
        | [] => sources
        end in
      dedupSources rest seenKeys duplicates sources
  end.

Definition Local : gostring := str "Local".

(** The local keys to preserve. *)
Definition dedupLocal (s : Syncer) (env : Env) (d : fs.SshDir)
    (seenKeys : gmap gostring gostring) (duplicates : list DuplicateInfo)
  : gmap gostring gostring * list DuplicateInfo * list gostring :=
  if config.IsPreserveLocalKeys (config.policy (cfg s)) then
    match sshfile.ReadContent env d with
    | Ok ((_ :: _) as existingContent) =>
        match keyparser.ParseString existingContent with
        | Ok parseResult =>
            dedupKeys Local (keyparser.Keys parseResult) seenKeys duplicates []
        | Err _ => (seenKeys, duplicates, [])
        end
    | _ => (seenKeys, duplicates, [])
    end
  else (seenKeys, duplicates, []).

Definition rule : gostring :=
  str "# ──────────────────────────────────────────────────────────────────
".

Definition nl : gostring := [gostrings.newline].

(** The header of the generated file. *)
Definition header (v : version.Info) (timestamp : gostring) : gostring :=
  rule ++
  str "# Generated by AuthKeySync" ++ nl ++
  (str "# Version:   " ++ version.Version v ++ nl) ++
  (str "# Commit:    " ++ version.Commit v ++ nl) ++
  (str "# Built:     " ++ version.Date v ++ nl) ++
  (str "# Last sync: " ++ timestamp ++ nl) ++
  str "# More info: https://github.com/eduardolat/authkeysync" ++ nl ++
  rule.

(** Writes the keys of one section; [count] is [stats.TotalKeys]. *)
Fixpoint writeKeys (ks : list gostring) (builder : gostring) (count : Z)
  : gostring * Z :=
  match ks with
  | [] => (builder, count)
  | key :: rest => writeKeys rest (builder ++ key ++ nl) (count + 1)%Z
  end.

(** Writes the sections of the remote sources. *)
Fixpoint writeSources (sources : list sourceKeys) (builder : gostring)
    (count : Z) : gostring * Z :=
  match sources with
  | [] => (builder, count)
  | src :: rest =>
      let builder := builder ++ nl ++ (str "# Source: " ++ url src ++ nl) in
      let '(builder, count) := writeKeys (keys src) builder count in
      writeSources rest builder count
  end.

(** [buildContent], reading the local file from the directory [d]. *)
Definition buildContent (s : Syncer) (env : Env) (d : fs.SshDir)
    (fetchResults : list keyfetcher.FetchResult) : gostring * ContentStats :=
  let '(seenKeys, duplicates, sources) :=
    dedupSources fetchResults ∅ [] [] in
  let '(seenKeys, duplicates, localKeys) :=
    dedupLocal s env d seenKeys duplicates in
  let timestamp := gotime.FormatISO (buildTime env) in
  let builder := header (build s) timestamp in
  let '(builder, total) := writeSources sources builder 0 in
  let '(builder, total', locals) :=
    match localKeys with
    | _ :: _ =>
        let builder := builder ++ nl ++ str "# Local (preserved)" ++ nl in
        let '(builder, n) := writeKeys localKeys builder 0 in
        (builder, (total + n)%Z, n)
    | [] => (builder, total, 0%Z)
    end in
  (builder,
   {| TotalKeys := total'; LocalKeysCount := locals; Duplicates := duplicates |}).

Definition newResult (username : gostring) : UserResult :=
  {| Username := username; Skipped := false; SkipReason := [];
     Error := None; KeysWritten := 0; LocalKeys := 0; Changed := false;
     BackupPath := [] |}.

Definition skipped (r : UserResult) (reason : string) : UserResult :=
  {| Username := Username r; Skipped := true; SkipReason := str reason;
     Error := Error r; KeysWritten := KeysWritten r; LocalKeys := LocalKeys r;
     Changed := Changed r; BackupPath := BackupPath r |}.

Definition failed (r : UserResult) (e : error) : UserResult :=
  {| Username := Username r; Skipped := Skipped r; SkipReason := SkipReason r;
     Error := Some e; KeysWritten := KeysWritten r; LocalKeys := LocalKeys r;
     Changed := Changed r; BackupPath := BackupPath r |}.

Definition withStats (r : UserResult) (stats : ContentStats) : UserResult :=
  {| Username := Username r; Skipped := Skipped r; SkipReason := SkipReason r;
     Error := Error r; KeysWritten := TotalKeys stats;
     LocalKeys := LocalKeysCount stats;
     Changed := Changed r; BackupPath := BackupPath r |}.

Definition withBackupPath (r : UserResult) (path : gostring) : UserResult :=
  {| Username := Username r; Skipped := Skipped r; SkipReason := SkipReason r;
     Error := Error r; KeysWritten := KeysWritten r; LocalKeys := LocalKeys r;
     Changed := Changed r; BackupPath := path |}.

Definition withChanged (r : UserResult) (changed : bool) : UserResult :=
  {| Username := Username r; Skipped := Skipped r; SkipReason := SkipReason r;
     Error := Error r; KeysWritten := KeysWritten r; LocalKeys := LocalKeys r;
     Changed := changed; BackupPath := BackupPath r |}.

(** The backup step of [syncUser]: the directory afterwards, the result so
    far, and whether the pipeline goes on to the write. *)
Definition backupStep (s : Syncer) (env : Env) (d : fs.SshDir)
    (sshDir content : gostring) (result : UserResult)
  : fs.SshDir * UserResult * bool :=
  if config.IsBackupEnabled (config.policy (cfg s)) then
    let existingContent :=
      match sshfile.ReadContent env d with
      | Ok c => c
      | Err _ => []
      end in
    match existingContent with
    | _ :: _ =>
        if bool_decide (existingContent = content) then (d, result, true)
        else
          match backup.CreateBackup env d sshDir with
          | (d, Err err) =>
              (d, failed result (Wrapf "failed to create backup: %w" err), false)
          | (d, Ok backupPath) =>
              let result :=
                match backupPath with
                | _ :: _ => withBackupPath result backupPath
                | [] => result
                end in
              let '(d, _, _) :=
                backup.RotateBackups env d
                  (config.GetBackupRetentionCount (config.policy (cfg s))) in
              (d, result, true)
          end
    | [] => (d, result, true)
    end
  else (d, result, true).

(** The context after the pipeline of a user. *)
Definition ctxAfter (env : Env) (w : World) : bool :=
  ctxDone w || bool_decide (is_Some (cancelAt env)).

Definition leave (env : Env) (w : World) (files : gmap gostring fs.Node)
  : World :=
  {| files := files; ctxDone := ctxAfter env w |}.

(** [syncUser]: the outcome for the user and the world afterwards. *)
Definition syncUser (s : Syncer) (env : Env) (w : World) (user : config.User)
  : UserResult * World :=
  let result := newResult (config.Username user) in
  match userinfo.Lookup env (files w) (config.Username user) with
  | Err err =>
      if errorsIs err ErrUserNotFound then
        (skipped result "user not found in system", leave env w (files w))
      else if errorsIs err ErrSSHDirNotFound then
        (skipped result ".ssh directory not found", leave env w (files w))
      else if errorsIs err ErrSSHDirNotDir then
        (skipped result ".ssh exists but is not a directory",
         leave env w (files w))
      else
        (failed result (Wrapf "failed to lookup user: %w" err),
         leave env w (files w))
  | Ok info =>
      match keyfetcher.FetchAll env w (config.Sources user) with
      | (_, Some err) =>
          (failed result (Wrapf "failed to fetch keys: %w" err),
           leave env w (files w))
      | (fetchResults, None) =>
          let sshDir := userinfo.SSHDir info in
          let d := fs.sshDirAt (files w) sshDir in
          let '(content, stats) := buildContent s env d fetchResults in
          let result := withStats result stats in
          if dryRun s then (result, leave env w (files w))
          else
            match backupStep s env d sshDir content result with
            | (d, result, false) =>
                (result, leave env w (<[sshDir := fs.Directory d]> (files w)))
            | (d, result, true) =>
                match sshfile.WriteAtomic env d sshDir content with
                | (d, Err err) =>
                    (failed result (Wrapf "failed to write authorized_keys: %w" err),
                     leave env w (<[sshDir := fs.Directory d]> (files w)))
                | (d, Ok writeResult) =>
                    (withChanged result (sshfile.Changed writeResult),
                     leave env w (<[sshDir := fs.Directory d]> (files w)))
                end
            end
      end
  end.

(** The loop of [Run] from user number [i] on; [envs i] is the environment
    during the pipeline of user [i]. *)
Fixpoint runFrom (s : Syncer) (envs : nat -> Env) (i : nat)
    (users : list config.User) (w : World) (result : SyncResult)
  : SyncResult * World :=
  match users with
  | [] => (result, w)
  | user :: rest =>
      let '(userResult, w) := syncUser s (envs i) w user in
      let result :=
        {| Users := Users result ++ [userResult];
           HasErrors :=
             match Error userResult with
             | Some _ => true
             | None => HasErrors result
             end |} in
      runFrom s envs (S i) rest w result
  end.

(** [Run]. *)
Definition Run (s : Syncer) (envs : nat -> Env) (w : World)
  : SyncResult * World :=
  runFrom s envs 0 (config.Users (cfg s)) w {| Users := []; HasErrors := false |}.

End sync.

(** ** Package main: the exit status *)

Module main.

Definition ExitSuccess : Z := 0.
Definition ExitFailure : Z := 1.

(** The counting loop of [run]. *)
Fixpoint countResults (users : list sync.UserResult)
    (successCount skippedCount failedCount : Z) : Z * Z * Z :=
  match users with
  | [] => (successCount, skippedCount, failedCount)
  | userResult :: rest =>
      match sync.Error userResult with
      | Some _ => countResults rest successCount skippedCount (failedCount + 1)%Z
      | None =>
          if sync.Skipped userResult
          then countResults rest successCount (skippedCount + 1)%Z failedCount
          else countResults rest (successCount + 1)%Z skippedCount failedCount
      end
  end.

(** The exit status [run] returns for the result of [Run]. *)
Definition exitStatus (result : sync.SyncResult) : Z :=
  let '(_, _, failedCount) := countResults (sync.Users result) 0 0 0 in
  if (0 <? failedCount)%Z then ExitFailure else ExitSuccess.

(** [run], from the parsed flags and the loaded configuration on: the
    platform check and the version flag come first, a configuration that
    does not load ends the run before any synchronisation. *)
Definition run (supportedPlatform showVersion dryRun : bool)
    (v : version.Info) (loaded : result config.Config)
    (envs : nat -> world.Env) (w : world.World) : Z * world.World :=
  if negb supportedPlatform then (ExitFailure, w)
  else if showVersion then (ExitSuccess, w)
  else
    match loaded with
    | Err _ => (ExitFailure, w)
    | Ok cfg =>
        let syncer := {| sync.cfg := cfg; sync.dryRun := dryRun; sync.build := v |} in
        let '(result, w) := sync.Run syncer envs w in
        (exitStatus result, w)
    end.

End main.

(** ** Notions used in the statements of Part II *)

(** The kinds of failure of [Lookup], by the sentinel its error wraps. *)
Inductive LookupFailure : Type :=
| UserNotFound
| NoHomeDirectory
| SshDirNotFound
| SshDirNotADirectory
| GenericLookupError.

Definition classify (err : error) : LookupFailure :=
  if errorsIs err ErrUserNotFound then UserNotFound
  else if errorsIs err ErrNoHomeDir then NoHomeDirectory
  else if errorsIs err ErrSSHDirNotFound then SshDirNotFound
  else if errorsIs err ErrSSHDirNotDir then SshDirNotADirectory
  else GenericLookupError.

(** The sentinels an error wraps, in the order of [LookupFailure]. *)
Definition sentinels (err : error) : list bool :=
  [ errorsIs err ErrUserNotFound; errorsIs err ErrNoHomeDir;
    errorsIs err ErrSSHDirNotFound; errorsIs err ErrSSHDirNotDir ].

Definition sentinelsOf (k : LookupFailure) : list bool :=
  match k with
  | UserNotFound => [true; false; false; false]
  | NoHomeDirectory => [false; true; false; false]
  | SshDirNotFound => [false; false; true; false]
  | SshDirNotADirectory => [false; false; false; true]
  | GenericLookupError => [false; false; false; false]
  end.

(** The result of fetching the [i]-th source of a user in the environment
    [env], from the world [w]. *)
Definition fetched (env : world.Env) (w : world.World) (i : nat)
    (source : config.Source) : keyfetcher.FetchResult :=
  keyfetcher.Fetch (keyfetcher.doneAt env w i) (world.exchange env i source) source.

(** The backup files of a backup directory: the entries that are not
    directories and whose name starts with [BackupPrefix]. *)
Definition backupFile (p : gostring * fs.Entry) : Prop :=
  backup.isDir p.2 = false /\ gostrings.HasPrefix p.1 backup.BackupPrefix = true.

#[global] Instance backupFile_dec p : Decision (backupFile p).
Proof. unfold backupFile. apply _. Defined.

Definition backupFiles (entries : gmap gostring fs.Entry) : gmap gostring fs.Entry :=
  filter backupFile entries.

(** The list [backups] of [RotateBackups] after [sort.Strings]. *)
Definition sortedBackups (entries : gmap gostring fs.Entry) : list gostring :=
  backup.sortStrings (backup.collectBackups (backup.readDir entries) []).

(** The texts of the lines of an input, without their terminator (a newline,
    or a carriage return and a newline). *)
Definition lineTexts (data : gostring) : list gostring :=
  gostrings.dropCR <$> gostrings.splitLines data.

(** A line that does not fit the scanner's buffer. *)
Definition tooLong (line : gostring) : Prop :=
  (gostrings.MaxScanTokenSize <= Z.of_nat (length line))%Z.

#[global] Instance tooLong_dec line : Decision (tooLong line).
Proof. unfold tooLong. apply _. Defined.

(** The keys among the texts of the lines number [n + 1], [n + 2], ... *)
Fixpoint keptFrom (n : Z) (texts : list gostring) : list keyparser.ParsedKey :=
  match texts with
  | [] => []
  | text :: rest =>
      (if keyparser.isValidKey (gostrings.TrimSpace text)
       then [ {| keyparser.Line := gostrings.TrimSpace text;
                 keyparser.LineNumber := (n + 1)%Z |} ]
       else []) ++ keptFrom (n + 1)%Z rest
  end.

(** A line that the parser discards and counts: its trimmed text is not
    empty and is not a key. *)
Definition counted (text : gostring) : Prop :=
  gostrings.TrimSpace text <> [] /\
  keyparser.isValidKey (gostrings.TrimSpace text) = false.

#[global] Instance counted_dec text : Decision (counted text).
Proof. unfold counted. apply _. Defined.

(** What [Parse] returns for the text [data] when it succeeds. *)
Definition parsed (data : gostring) : keyparser.ParseResult :=
  {| keyparser.Keys := keptFrom 0 (lineTexts data);
     keyparser.DiscardedLines :=
       Z.of_nat (length (filter counted (lineTexts data))) |}.

(** The result of [Fetch] for a response with status 200, by what comes out
    of the limited read and of the parser. *)
Definition fetchedBody (source : config.Source)
    (body : gostrings.Reader) : keyfetcher.FetchResult :=
  let result :=
    {| keyfetcher.Source := source; keyfetcher.Keys := []; keyfetcher.Error := None;
       keyfetcher.StatusCode := keyfetcher.StatusOK;
       keyfetcher.DiscardedLines := 0 |} in
  match keyfetcher.ReadAll
          (keyfetcher.LimitReader body keyfetcher.MaxResponseSize) with
  | Err err => keyfetcher.withError result (Wrapf "failed to read response body: %w" err)
  | Ok bytes =>
      match keyparser.ParseString bytes with
      | Err err => keyfetcher.withError result (Wrapf "failed to parse keys: %w" err)
      | Ok parseResult =>
          {| keyfetcher.Source := source;
             keyfetcher.Keys := keyparser.Keys parseResult;
             keyfetcher.Error := None;
             keyfetcher.StatusCode := keyfetcher.StatusOK;
             keyfetcher.DiscardedLines := keyparser.DiscardedLines parseResult |}
      end
  end.


(** *** Notions for the content builder *)

(** The lines of the keys of a fetch result, and of a parse result. *)
Definition linesOf (ks : list keyparser.ParsedKey) : list gostring :=
  keyparser.Line <$> ks.

Definition remoteLines (fr : keyfetcher.FetchResult) : list gostring :=
  linesOf (keyfetcher.Keys fr).

(** What the loop over the keys of one origin adds: to the provenance map,
    to the duplicate events and to the kept keys. *)
Definition seenAfter (origin : gostring) (ks : list keyparser.ParsedKey)
    (seen : gmap gostring gostring) : gmap gostring gostring :=
  (sync.dedupKeys origin ks seen [] []).1.1.

Definition newDuplicates (origin : gostring) (ks : list keyparser.ParsedKey)
    (seen : gmap gostring gostring) : list sync.DuplicateInfo :=
  (sync.dedupKeys origin ks seen [] []).1.2.

Definition newKeys (origin : gostring) (ks : list keyparser.ParsedKey)
    (seen : gmap gostring gostring) : list gostring :=
  (sync.dedupKeys origin ks seen [] []).2.

Definition originOf (fr : keyfetcher.FetchResult) : gostring :=
  config.URL (keyfetcher.Source fr).

(** The keys kept for each fetch result, one list per result, in order. *)
Fixpoint keptPerSource (frs : list keyfetcher.FetchResult)
    (seen : gmap gostring gostring) : list (list gostring) :=
  match frs with
  | [] => []
  | fr :: rest =>
      newKeys (originOf fr) (keyfetcher.Keys fr) seen ::
      keptPerSource rest (seenAfter (originOf fr) (keyfetcher.Keys fr) seen)
  end.

(** The provenance map after the remote sources. *)
Fixpoint seenAfterSources (frs : list keyfetcher.FetchResult)
    (seen : gmap gostring gostring) : gmap gostring gostring :=
  match frs with
  | [] => seen
  | fr :: rest =>
      seenAfterSources rest (seenAfter (originOf fr) (keyfetcher.Keys fr) seen)
  end.

(** The duplicate events of the remote sources. *)
Fixpoint duplicatesOfSources (frs : list keyfetcher.FetchResult)
    (seen : gmap gostring gostring) : list sync.DuplicateInfo :=
  match frs with
  | [] => []
  | fr :: rest =>
      newDuplicates (originOf fr) (keyfetcher.Keys fr) seen ++
      duplicatesOfSources rest
        (seenAfter (originOf fr) (keyfetcher.Keys fr) seen)
  end.

(** The section of a source: none when no key is kept for it. *)
Definition sectionOf (origin : gostring) (kept : list gostring)
  : list sync.sourceKeys :=
  match kept with
  | [] => []
  | _ :: _ => [ {| sync.url := origin; sync.keys := kept |} ]
  end.

(** The sections of the sources, in the order of the sources. *)
Definition sectionsOf (frs : list keyfetcher.FetchResult)
    (kept : list (list gostring)) : list sync.sourceKeys :=
  mjoin (zip_with (fun fr ks => sectionOf (originOf fr) ks) frs kept).

(** The first source, in declaration order, that has the line [L]. *)
Definition firstRemote (frs : list keyfetcher.FetchResult) (L : gostring)
  : option gostring :=
  (fun p => originOf p.2) <$> list_find (fun fr => L ∈ remoteLines fr) frs.

(** The lines of the local file that take part in the merge: those the
    parser keeps, when local keys are preserved and the file is read and
    parsed; none otherwise. *)
Definition localParsed (s : sync.Syncer) (env : world.Env) (d : fs.SshDir)
  : list keyparser.ParsedKey :=
  if config.IsPreserveLocalKeys (config.policy (sync.cfg s)) then
    match sshfile.ReadContent env d with
    | Ok ((_ :: _) as existingContent) =>
        match keyparser.ParseString existingContent with
        | Ok parseResult => keyparser.Keys parseResult
        | Err _ => []
        end
    | _ => []
    end
  else [].

(** The rendering of the keys of a section, of a section, of the local
    section and of the file. *)
Definition renderKeys (ks : list gostring) : gostring :=
  mjoin ((fun k => k ++ sync.nl) <$> ks).

Definition renderSource (src : sync.sourceKeys) : gostring :=
  sync.nl ++ (str "# Source: " ++ sync.url src ++ sync.nl) ++
  renderKeys (sync.keys src).

Definition renderLocal (ks : list gostring) : gostring :=
  match ks with
  | [] => []
  | _ :: _ => sync.nl ++ str "# Local (preserved)" ++ sync.nl ++ renderKeys ks
  end.

Definition render (v : version.Info) (timestamp : gostring)
    (sources : list sync.sourceKeys) (localKeys : list gostring) : gostring :=
  sync.header v timestamp ++ mjoin (renderSource <$> sources) ++
  renderLocal localKeys.

(** The lines of the generated file. *)
Definition ruleText : gostring :=
  str "# ──────────────────────────────────────────────────────────────────".

Definition headerLines (v : version.Info) (timestamp : gostring) : list gostring :=
  [ ruleText;
    str "# Generated by AuthKeySync";
    str "# Version:   " ++ version.Version v;
    str "# Commit:    " ++ version.Commit v;
    str "# Built:     " ++ version.Date v;
    str "# Last sync: " ++ timestamp;
    str "# More info: https://github.com/eduardolat/authkeysync";
    ruleText ].

Definition sectionLines (src : sync.sourceKeys) : list gostring :=
  [] :: (str "# Source: " ++ sync.url src) :: sync.keys src.

Definition localSectionLines (ks : list gostring) : list gostring :=
  match ks with
  | [] => []
  | _ :: _ => [] :: str "# Local (preserved)" :: ks
  end.

Definition fileLines (v : version.Info) (timestamp : gostring)
    (sources : list sync.sourceKeys) (localKeys : list gostring)
  : list gostring :=
  headerLines v timestamp ++ (sources ≫= sectionLines) ++
  localSectionLines localKeys.

(** A key line as the parser hands it out: one line, and valid. *)
Definition keyLine (k : gostring) : Prop :=
  (gostrings.newline ∉ k) /\ keyparser.isValidKey k = true.

#[global] Instance keyLine_dec k : Decision (keyLine k).
Proof. unfold keyLine. apply _. Defined.

(** The build metadata holds no newline. *)
Definition oneLineInfo (v : version.Info) : Prop :=
  (gostrings.newline ∉ version.Version v) /\
  (gostrings.newline ∉ version.Commit v) /\
  (gostrings.newline ∉ version.Date v).

(** A line that the scanner hands out whole: no newline in it, and short
    enough for the scanner's buffer. *)
Definition scannable (l : gostring) : Prop :=
  (gostrings.newline ∉ l) /\ ~ tooLong l.

(** A key as the parser hands it out: a valid line, scannable, with nothing
    to trim. *)
Definition cleanKey (k : gostring) : Prop :=
  keyparser.isValidKey k = true /\ scannable k /\
  gostrings.TrimSpace (gostrings.dropCR k) = k.

(** The lines of the header with the build metadata are scannable. *)
Definition plainInfo (v : version.Info) : Prop :=
  scannable (str "# Version:   " ++ version.Version v) /\
  scannable (str "# Commit:    " ++ version.Commit v) /\
  scannable (str "# Built:     " ++ version.Date v).

(** The line that opens the section of a source is scannable. *)
Definition plainSource (fr : keyfetcher.FetchResult) : Prop :=
  scannable (str "# Source: " ++ originOf fr).

(** A line that is empty or a comment. *)
Definition commentOrEmpty (l : gostring) : Prop :=
  l = [] \/ exists rest, l = "#"%char :: rest.

#[global] Instance scannable_dec l : Decision (scannable l).
Proof. unfold scannable. apply _. Defined.

#[global] Instance plainInfo_dec v : Decision (plainInfo v).
Proof. unfold plainInfo. apply _. Defined.

#[global] Instance plainSource_dec fr : Decision (plainSource fr).
Proof. unfold plainSource. apply _. Defined.


(** ** A concrete machine, for the examples *)

Module example.
Import world.

Definition noon : gotime.Time :=
{| gotime.year := 2025; gotime.month := 1; gotime.day := 2;
   gotime.hour := 12; gotime.minute := 0; gotime.second := 0 |}.

Definition oneSecondLater : gotime.Time :=
{| gotime.year := 2025; gotime.month := 1; gotime.day := 2;
   gotime.hour := 12; gotime.minute := 0; gotime.second := 1 |}.

Definition source (u : string) : config.Source :=
{| config.URL := str u; config.Method := []; config.Headers := ∅;
   config.Body := []; config.TimeoutSeconds := None |}.

Definition alice : config.User :=
{| config.Username := str "alice";
   config.Sources := [source "https://keys.example/a"; source "https://keys.example/b"] |}.

Definition bob : config.User :=
{| config.Username := str "bob";
   config.Sources := [source "https://keys.example/bob"] |}.

Definition defaults : config.Policy :=
{| config.BackupEnabled := None; config.BackupRetentionCount := None;
   config.PreserveLocalKeys := None |}.

Definition dev : version.Info :=
{| version.Version := str "dev"; version.Commit := str "none";
   version.Date := str "unknown" |}.

Definition syncer (dry : bool) : sync.Syncer :=
{| sync.cfg := {| config.policy := defaults; config.Users := [alice; bob] |};
   sync.dryRun := dry; sync.build := dev |}.

(** Both accounts exist, with their home directories under [/home]. *)
Definition accounts (username : gostring) : UserLookup :=
Found {| Uid := str "1000"; Gid := str "1000";
         HomeDir := str "/home/" ++ username |}.

Definition keysA : gostring :=
str "ssh-ed25519 AAAA alice@laptop
ssh-rsa BBBB shared
ssh-rsa BBBB shared
".

Definition keysB : gostring :=
str "ssh-rsa BBBB shared
ssh-ed25519 CCCC alice@desk
".

(** Source 0 serves [keysA]; every other source serves [keysB]. *)
Definition served (i : nat) (_ : config.Source) : HttpOutcome :=
match i with
| O => Responded 200 (gostrings.NewReader keysA)
| S _ => Responded 200 (gostrings.NewReader keysB)
end.

(** Source 0 answers, every later source answers 500. *)
Definition secondFails (i : nat) (_ : config.Source) : HttpOutcome :=
match i with
| O => Responded 200 (gostrings.NewReader keysA)
| S _ => Responded 500 (gostrings.NewReader [])
end.

Definition calm (at' : gotime.Time) : Env :=
{| osUser := accounts;
   ioFailure := fun _ => None;
   exchange := served;
   cancelAt := None;
   buildTime := at';
   backupTime := at';
   backupId := Ok (str "abcdef");
   tempTime := at';
   tempId := Ok (str "ghijkl") |}.

Definition withExchange (env : Env)
  (x : nat -> config.Source -> HttpOutcome) : Env :=
{| osUser := osUser env; ioFailure := ioFailure env; exchange := x;
   cancelAt := cancelAt env; buildTime := buildTime env;
   backupTime := backupTime env; backupId := backupId env;
   tempTime := tempTime env; tempId := tempId env |}.


Definition aliceDir : fs.SshDir :=
{| fs.authKeys := Some (str "ssh-rsa OLD alice@old
");
   fs.backups := fs.NoBackupDir;
   fs.others := ∅ |}.

(** Alice has a [.ssh] directory with a key file; Bob has one without. *)
Definition machine : World :=
{| files := {[ str "/home/alice/.ssh" := fs.Directory aliceDir;
               str "/home/bob/.ssh" := fs.Directory fs.emptyDir ]};
   ctxDone := false |}.

(** The same machine, where Alice's [.ssh] is a regular file. *)
Definition machineSshIsFile : World :=
{| files := {[ str "/home/alice/.ssh" := fs.NotADirectory;
               str "/home/bob/.ssh" := fs.Directory fs.emptyDir ]};
   ctxDone := false |}.

(** What [Lookup] finds for Alice. *)
Definition aliceInfo : userinfo.UserInfo :=
{| userinfo.Username := str "alice";
   userinfo.UID := 1000;
   userinfo.GID := 1000;
   userinfo.HomeDir := str "/home/alice";
   userinfo.SSHDir := str "/home/alice/.ssh";
   userinfo.AuthKeysPath := str "/home/alice/.ssh/authorized_keys";
   userinfo.BackupDir := str "/home/alice/.ssh/authorized_keys_backups" |}.


(** The five lines of the parser's table, and a sixth line with a key. *)
Definition table : gostring :=
  str "ssh-ed25519 AAAA user@host
# comment

<html>
onefield
  ssh-rsa BBBB other  
".

(** A line of 65536 bytes. *)
Definition longLine : gostring := replicate (Z.to_nat 65536) "a"%char.

(** A body of 10 MiB and one byte, without any newline. *)
Definition hugeBlob : gostring :=
  replicate (Z.to_nat (keyfetcher.MaxResponseSize + 1)) "a"%char.

Definition keyLine : gostring := str "ssh-ed25519 AAAA user@host".

(** A body of a million key lines, 27 MB. *)
Definition manyKeys : gostring :=
  mjoin (replicate (Z.to_nat 1000000) (keyLine ++ [gostrings.newline])).

(** A backup directory with three backups, a file that is no backup and a
    directory whose name has the prefix. *)
Definition backupEntries : gmap gostring fs.Entry :=
  list_to_map
    [ (str "authorized_keys_20250103_000000_cccccc", fs.RegularFile (str "3"));
      (str "authorized_keys_20250101_000000_aaaaaa", fs.RegularFile (str "1"));
      (str "notes.txt", fs.RegularFile []);
      (str "authorized_keys_old", fs.SubDirectory);
      (str "authorized_keys_20250102_000000_bbbbbb", fs.RegularFile (str "2")) ].

Definition dirWithBackups : fs.SshDir :=
  {| fs.authKeys := None; fs.backups := fs.BackupDir backupEntries;
     fs.others := ∅ |}.

(** What [FetchAll] returns for Alice when every source answers. *)
Definition fetchedAlice : list keyfetcher.FetchResult :=
  (keyfetcher.FetchAll (calm noon) machine (config.Sources alice)).1.

Definition sharedKey : gostring := str "ssh-rsa BBBB shared".

(** The machine after a first run for Alice at noon, and the outcomes of a
    second run for her at the same time and one second later. *)
Definition afterFirstRun : World :=
  (sync.syncUser (syncer false) (calm noon) machine alice).2.

Definition runAgain : sync.UserResult * World :=
  sync.syncUser (syncer false) (calm noon) afterFirstRun alice.

Definition runLater : sync.UserResult * World :=
  sync.syncUser (syncer false) (calm oneSecondLater) afterFirstRun alice.

End example.

(** ** Notions for the further properties *)

(** The entries of the backup directory; none when there is no directory. *)
Definition backupEntries (d : fs.SshDir) : gmap gostring fs.Entry :=
  match fs.backups d with
  | fs.BackupDir entries => entries
  | _ => ∅
  end.

(** The file name [CreateBackup] gives a backup, when an identifier is
    drawn. *)
Definition backupName (env : world.Env) (id : gostring) : gostring :=
  backup.BackupPrefix ++ gotime.FormatCompact (world.backupTime env) ++
  str "_" ++ id.

(** The content of the key file of the [.ssh] directory at [path]; none
    when there is no directory there or no key file in it. *)
Definition keyFileAt (files : gmap gostring fs.Node) (path : gostring)
  : option gostring :=
  match files !! path with
  | Some (fs.Directory d) => fs.authKeys d
  | _ => None
  end.

(** A line whose text is blank: nothing is left of it after trimming. *)
Definition blank (text : gostring) : Prop := gostrings.TrimSpace text = [].

#[global] Instance blank_dec text : Decision (blank text).
Proof. unfold blank. apply _. Defined.

(** The key file gives the builder no local key: local keys are not
    preserved, or the file cannot be read, is absent or empty, or holds a
    line that does not fit the scanner. *)
Definition noLocalInput (s : sync.Syncer) (env : world.Env) (d : fs.SshDir)
  : Prop :=
  config.IsPreserveLocalKeys (config.policy (sync.cfg s)) = false \/
  is_Some (world.ioError env fs.ReadAuthKeys) \/
  fs.authKeys d = None \/
  fs.authKeys d = Some [] \/
  exists content,
    fs.authKeys d = Some content /\
    Exists tooLong (gostrings.splitLines content).

(** ** Package config: validation *)

Module validation.
Import config.

Definition DefaultMethod : gostring := str "GET".

Definition isLowerASCII (c : ascii) : bool :=
  ((97 <=? N_of_ascii c) && (N_of_ascii c <=? 122))%N.

Definition isASCII (c : ascii) : bool := (N_of_ascii c <? 128)%N.

Definition upperASCII (c : ascii) : ascii :=
  if isLowerASCII c then ascii_of_N (N_of_ascii c - 32) else c.

Section ToUpper.

(** [strings.Map(unicode.ToUpper, s)], the path [strings.ToUpper] takes for
    a string that holds a byte outside ASCII. *)
Variable mapUpper : gostring -> gostring.

(** [strings.ToUpper]: a string of ASCII bytes has its lower-case letters
    replaced byte by byte; any other string goes through [strings.Map]. *)
Definition ToUpper (s : gostring) : gostring :=
  if forallb isASCII s then upperASCII <$> s else mapUpper s.

(** [Source.GetMethod]. *)
Definition GetMethod (s : Source) : gostring :=
  match Method s with
  | [] => DefaultMethod
  | _ :: _ => ToUpper (Method s)
  end.

(** The loop of [Validate] over the sources of a user, from index [j]. *)
Fixpoint validateSources (sources : list Source) (j : nat) : option error :=
  match sources with
  | [] => None
  | source :: rest =>
      if bool_decide (URL source = []) then
        Some (Errorf "config: user %q source at index %d has empty URL")
      else
        let method := GetMethod source in
        if bool_decide (method <> str "GET") &&
           bool_decide (method <> str "POST") then
          Some (Errorf "config: user %q source at index %d has invalid method %q (supported: GET, POST)")
        else if (GetTimeoutSeconds source <=? 0)%Z then
          Some (Errorf "config: user %q source at index %d has invalid timeout")
        else validateSources rest (S j)
  end.

(** The loop of [Validate] over the users, from index [i], with the map of
    the user names seen so far. *)
Fixpoint validateUsers (users : list User) (i : nat)
    (usernames : gmap gostring bool) : option error :=
  match users with
  | [] => None
  | user :: rest =>
      if bool_decide (Username user = []) then
        Some (Errorf "config: user at index %d has empty username")
      else if default false (usernames !! Username user) then
        Some (Errorf "config: duplicate username %q")
      else
        let usernames := <[Username user := true]> usernames in
        if bool_decide (length (Sources user) = 0) then
          Some (Errorf "config: user %q has no sources defined")
        else
          match validateSources (Sources user) 0 with
          | Some err => Some err
          | None => validateUsers rest (S i) usernames
          end
  end.

(** [Config.Validate]: [None] is [nil]. *)
Definition Validate (c : Config) : option error :=
  if bool_decide (length (Users c) = 0) then
    Some (Errorf "config: at least one user must be defined")
  else if (GetBackupRetentionCount (policy c) <? 0)%Z then
    Some (Errorf "config: backup_retention_count cannot be negative")
  else validateUsers (Users c) 0 ∅.

End ToUpper.

(** A source as [Validate] accepts it. *)
Definition validSource (mapUpper : gostring -> gostring) (s : Source) : Prop :=
  URL s <> [] /\
  (GetMethod mapUpper s = str "GET" \/ GetMethod mapUpper s = str "POST") /\
  (0 < GetTimeoutSeconds s)%Z.

(** A user as [Validate] accepts it. *)
Definition validUser (mapUpper : gostring -> gostring) (u : User) : Prop :=
  Username u <> [] /\ Sources u <> [] /\
  Forall (validSource mapUpper) (Sources u).

End validation.

(** ** Package nanoid *)

Module nanoid.

Definition alphabet : gostring := str "abcdefghijklmnopqrstuvwxyz".
Definition idLength : nat := 6.

(** [Generate]: [entropy] is what [rand.Read] does with the slice of
    [idLength] bytes, an error or the byte written at each index. *)
Definition Generate (entropy : result (nat -> ascii)) : result gostring :=
  match entropy with
  | Err err => Err err
  | Ok bytes =>
      Ok ((fun i =>
             nth (N.to_nat (N_of_ascii (bytes i)) mod length alphabet)
               alphabet Ascii.zero) <$> seq 0 idLength)
  end.

End nanoid.

(** ** Times in order *)

(** The fields of a time fit their places in the formats: a year of four
    digits, the other fields of two. *)
Definition wellFormed (t : gotime.Time) : Prop :=
  (0 <= gotime.year t < 10000)%Z /\ (0 <= gotime.month t < 100)%Z /\
  (0 <= gotime.day t < 100)%Z /\ (0 <= gotime.hour t < 100)%Z /\
  (0 <= gotime.minute t < 100)%Z /\ (0 <= gotime.second t < 100)%Z.

(** The fields of a time, most significant first. *)
Definition fields (t : gotime.Time) : list Z :=
  [ gotime.year t; gotime.month t; gotime.day t;
    gotime.hour t; gotime.minute t; gotime.second t ].

(** Lexicographic order on lists of numbers of the same length. *)
Fixpoint lexLt (a b : list Z) : Prop :=
  match a, b with
  | x :: a', y :: b' => (x < y)%Z \/ (x = y /\ lexLt a' b')
  | _, _ => False
  end.

(** [t] is an earlier second than [t']. *)
Definition earlier (t t' : gotime.Time) : Prop := lexLt (fields t) (fields t').

(* ===================================================================== *)
(** * Part II: lemmas and theorems *)
(* ===================================================================== *)

(** ** The equations of [syncUser], stage by stage *)

Section SyncUserEquations.
Import world.
Variables (s : sync.Syncer) (env : Env) (w : World) (user : config.User).

Let result := sync.newResult (config.Username user).

Lemma syncUser_lookup_failed err :
userinfo.Lookup env (files w) (config.Username user) = Err err ->
sync.syncUser s env w user =
  (if errorsIs err ErrUserNotFound
   then sync.skipped result "user not found in system"
   else if errorsIs err ErrSSHDirNotFound
   then sync.skipped result ".ssh directory not found"
   else if errorsIs err ErrSSHDirNotDir
   then sync.skipped result ".ssh exists but is not a directory"
   else sync.failed result (Wrapf "failed to lookup user: %w" err),
   sync.leave env w (files w)).
Proof.
intros Hl. unfold sync.syncUser. rewrite Hl.
repeat case_match; reflexivity.
Qed.

Lemma syncUser_fetch_failed info frs err :
userinfo.Lookup env (files w) (config.Username user) = Ok info ->
keyfetcher.FetchAll env w (config.Sources user) = (frs, Some err) ->
sync.syncUser s env w user =
  (sync.failed result (Wrapf "failed to fetch keys: %w" err),
   sync.leave env w (files w)).
Proof.
intros Hl Hf. unfold sync.syncUser. rewrite Hl, Hf. reflexivity.
Qed.

Lemma syncUser_dry_run info frs :
userinfo.Lookup env (files w) (config.Username user) = Ok info ->
keyfetcher.FetchAll env w (config.Sources user) = (frs, None) ->
sync.dryRun s = true ->
sync.syncUser s env w user =
  (sync.withStats result
     (sync.buildContent s env
        (fs.sshDirAt (files w) (userinfo.SSHDir info)) frs).2,
   sync.leave env w (files w)).
Proof.
intros Hl Hf Hd. unfold sync.syncUser. rewrite Hl, Hf, Hd.
destruct (sync.buildContent _ _ _ _) as [content stats]. reflexivity.
Qed.

End SyncUserEquations.

(** ** Errors of the environment and of [Lookup] *)

Lemma ioError_os env op e :
  world.ioError env op = Some e -> exists msg, e = OsError msg.
Proof.
  unfold world.ioError. destruct (world.ioFailure env op); intros [= <-]; eauto.
Qed.

(** An error of [Lookup] wraps at most one sentinel. *)
Lemma Lookup_failure_one_kind env files username err :
  userinfo.Lookup env files username = Err err ->
  sentinels err = sentinelsOf (classify err).
Proof.
  unfold userinfo.Lookup, userinfo.statSshDir. intros H.
  repeat case_match; simplify_eq; try reflexivity.
  match goal with
  | H : world.ioError _ _ = Some _ |- _ => apply ioError_os in H as [msg ->]
  end.
  reflexivity.
Qed.

(** What each kind of failure comes from. *)
Lemma Lookup_failure_cause env files username err :
  userinfo.Lookup env files username = Err err ->
  match classify err with
  | UserNotFound => world.osUser env username = world.UnknownUser
  | NoHomeDirectory =>
      exists u, world.osUser env username = world.Found u /\ world.HomeDir u = []
  | SshDirNotFound =>
      exists u, world.osUser env username = world.Found u /\
        files !! fs.Join (world.HomeDir u) (str ".ssh") = None
  | SshDirNotADirectory =>
      exists u, world.osUser env username = world.Found u /\
        files !! fs.Join (world.HomeDir u) (str ".ssh") = Some fs.NotADirectory
  | GenericLookupError =>
      (exists msg, world.osUser env username = world.LookupFailed msg) \/
      (exists u, world.osUser env username = world.Found u /\
         (userinfo.Atoi (world.Uid u) = None \/
          userinfo.Atoi (world.Gid u) = None \/
          is_Some (world.ioError env fs.StatSshDir)))
  end.
Proof.
  unfold userinfo.Lookup, userinfo.statSshDir. intros H.
  destruct (world.osUser env username) as [|msg|u] eqn:Hu.
  { simplify_eq. reflexivity. }
  { simplify_eq. cbn. eauto. }
  destruct (userinfo.Atoi (world.Uid u)) eqn:Huid;
    [|simplify_eq; cbn; eauto 10].
  destruct (userinfo.Atoi (world.Gid u)) eqn:Hgid;
    [|simplify_eq; cbn; eauto 10].
  destruct (world.HomeDir u) as [|c home] eqn:Hhome;
    [simplify_eq; cbn; eauto|].
  destruct (world.ioError env fs.StatSshDir) as [e|] eqn:Hio.
  { pose proof Hio as Hio'. apply ioError_os in Hio' as [msg ->].
    simplify_eq. cbn. right. exists u. eauto 10. }
  destruct (files !! fs.Join (c :: home) (str ".ssh")) as [[|d]|] eqn:Hf;
    simplify_eq; cbn; exists u; rewrite Hhome; eauto.
Qed.

(** After a successful [Lookup] there is a directory at the [.ssh] path. *)
Lemma Lookup_ok_directory env files username info :
  userinfo.Lookup env files username = Ok info ->
  exists d, files !! userinfo.SSHDir info = Some (fs.Directory d).
Proof.
  unfold userinfo.Lookup, userinfo.statSshDir. intros H.
  repeat case_match; simplify_eq; cbn; eauto.
Qed.

(** ** Claim C3: which lookup failures skip the user *)

(** C3, as the code has it.  A failure of [Lookup] is of exactly one of five
    kinds (user not found, no home directory, [.ssh] not found, [.ssh] not a
    directory, generic).  The orchestrator skips the user, with
    no error in the outcome and the files untouched, when the user is not
    found, when [.ssh] is not found and when [.ssh] is not a directory; a
    generic lookup error makes the outcome FAILED. *)
Theorem C3_lookup_failures_skip_or_fail :
  forall s env w user err,
    userinfo.Lookup env (world.files w) (config.Username user) = Err err ->
    let r := (sync.syncUser s env w user).1 in
    let w' := (sync.syncUser s env w user).2 in
    sentinels err = sentinelsOf (classify err) /\
    world.files w' = world.files w /\
    (classify err = UserNotFound \/ classify err = SshDirNotFound \/
     classify err = SshDirNotADirectory ->
       sync.Skipped r = true /\ sync.Error r = None) /\
    (classify err = GenericLookupError ->
       sync.Skipped r = false /\ is_Some (sync.Error r)).
Proof.
  intros s env w user err Hl r w'.
  pose proof (Lookup_failure_one_kind _ _ _ _ Hl) as Hk.
  subst r w'. rewrite (syncUser_lookup_failed s env w user err Hl).
  split; [exact Hk|]. split; [reflexivity|].
  unfold sentinels in Hk. unfold classify in *.
  destruct (errorsIs err ErrUserNotFound), (errorsIs err ErrNoHomeDir),
    (errorsIs err ErrSSHDirNotFound), (errorsIs err ErrSSHDirNotDir);
    cbn in *; simplify_eq; (split; [intros [?|[?|?]]|intros ?]);
    simplify_eq; cbn; eauto.
Qed.

(** ** The loop of [FetchAll] *)

Section FetchAllFacts.
Import world.
Variables (env : Env) (w : World).

Local Abbreviation fetched := (fetched env w).

(** The loop fails exactly when the fetch of some source fails. *)
Lemma fetchFrom_fails sources : forall i results,
is_Some (keyfetcher.fetchFrom env w i sources results).2 <->
exists j source,
  sources !! j = Some source /\
  is_Some (keyfetcher.Error (fetched (i + j) source)).
Proof.
induction sources as [|source rest IH]; intros i results; cbn.
- split; [intros [? [=]]|intros (j & source & [=] & _)].
- fold (fetched i source).
  destruct (keyfetcher.Error (fetched i source)) as [e|] eqn:He; cbn.
  + split; [intros _|eauto].
    exists 0, source. rewrite Nat.add_0_r, He. eauto.
  + rewrite IH. split.
    * intros (j & src & Hj & Hs). exists (S j), src.
      rewrite Nat.add_succ_r. eauto.
    * intros ([|j] & src & Hj & Hs); cbn in Hj.
      -- simplify_eq. rewrite Nat.add_0_r, He in Hs. by destruct Hs.
      -- exists j, src. rewrite Nat.add_succ_r in Hs. eauto.
Qed.

(** When no fetch fails the loop returns one result per source, in order. *)
Lemma fetchFrom_succeeds sources : forall i results frs,
keyfetcher.fetchFrom env w i sources results = (frs, None) ->
frs = results ++ imap (fun j => fetched (i + j)) sources /\
Forall (fun fr => keyfetcher.Error fr = None)
  (imap (fun j => fetched (i + j)) sources).
Proof.
induction sources as [|source rest IH]; intros i results frs; cbn.
- intros [= <-]. by rewrite app_nil_r.
- fold (fetched i source).
  destruct (keyfetcher.Error (fetched i source)) as [e|] eqn:He; [done|].
  intros H. apply IH in H as [-> HF].
  rewrite Nat.add_0_r, <- app_assoc. cbn. split.
  + f_equal. f_equal. apply imap_ext. intros j x _. cbn.
    f_equal; lia.
  + constructor; [done|].
    erewrite imap_ext; [exact HF|]. intros j x _. cbn. f_equal; lia.
Qed.



End FetchAllFacts.

(** ** Claim C1: a failing source aborts the pipeline of the user *)

(** C1.  If the user resolves and the fetch of any of the configured sources
    fails, the first one or a later one, the pipeline stops before the backup
    and the write: the files are exactly as before the run (so the target
    file is byte-identical and no backup exists that did not exist), and the
    outcome carries an error, is not skipped, names no backup and reports no
    change. *)
Theorem C1_failing_source_aborts :
  forall s env w user info i source,
    userinfo.Lookup env (world.files w) (config.Username user) = Ok info ->
    config.Sources user !! i = Some source ->
    is_Some (keyfetcher.Error (fetched env w i source)) ->
    let r := (sync.syncUser s env w user).1 in
    let w' := (sync.syncUser s env w user).2 in
    world.files w' = world.files w /\
    is_Some (sync.Error r) /\
    sync.Skipped r = false /\
    sync.BackupPath r = [] /\
    sync.Changed r = false.
Proof.
  intros s env w user info i source Hl Hi He r w'.
  destruct (keyfetcher.FetchAll env w (config.Sources user)) as [frs [err|]] eqn:Hf.
  - subst r w'. rewrite (syncUser_fetch_failed s env w user info frs err Hl Hf).
    cbn. eauto 10.
  - exfalso.
    assert (is_Some (keyfetcher.FetchAll env w (config.Sources user)).2) as Hs.
    { unfold keyfetcher.FetchAll. apply fetchFrom_fails. eauto. }
    rewrite Hf in Hs. by destruct Hs.
Qed.

(** ** Claim C6: a dry run changes no file *)

Lemma syncUser_dry_run_files s env w user :
  sync.dryRun s = true ->
  world.files (sync.syncUser s env w user).2 = world.files w.
Proof.
  intros Hd.
  destruct (userinfo.Lookup env (world.files w) (config.Username user))
    as [info|err] eqn:Hl.
  - destruct (keyfetcher.FetchAll env w (config.Sources user))
      as [frs [err|]] eqn:Hf.
    + by rewrite (syncUser_fetch_failed s env w user info frs err Hl Hf).
    + by rewrite (syncUser_dry_run s env w user info frs Hl Hf Hd).
  - by rewrite (syncUser_lookup_failed s env w user err Hl).
Qed.

(** The same for a whole run. *)
Lemma runFrom_dry_run_files s envs users : forall i w result,
  sync.dryRun s = true ->
  world.files (sync.runFrom s envs i users w result).2 = world.files w.
Proof.
  induction users as [|user rest IH]; intros i w result Hd; [reflexivity|].
  cbn. pose proof (syncUser_dry_run_files s (envs i) w user Hd) as H.
  destruct (sync.syncUser s (envs i) w user) as [r w'].
  rewrite IH by done. exact H.
Qed.

(** C6.  With the dry-run flag the pipeline of every user resolves, fetches
    and builds, and returns there: when the user resolves and every source is
    fetched, the outcome is the initial one with the counts of the built
    content, and in every case the files after the pipeline are the files
    before it: no backup made, none rotated away, the target not written. *)
Theorem C6_dry_run_changes_no_file :
  forall c v env w user,
    let s := {| sync.cfg := c; sync.dryRun := true; sync.build := v |} in
    let r := (sync.syncUser s env w user).1 in
    let w' := (sync.syncUser s env w user).2 in
    world.files w' = world.files w /\
    forall info frs,
      userinfo.Lookup env (world.files w) (config.Username user) = Ok info ->
      keyfetcher.FetchAll env w (config.Sources user) = (frs, None) ->
      r = sync.withStats (sync.newResult (config.Username user))
            (sync.buildContent s env
               (fs.sshDirAt (world.files w) (userinfo.SSHDir info)) frs).2.
Proof.
  intros c v env w user s r w'. subst r w'.
  split; [by apply syncUser_dry_run_files|].
  intros info frs Hl Hf.
  by rewrite (syncUser_dry_run s env w user info frs Hl Hf eq_refl).
Qed.


(** C3 at Alice's account when her [.ssh] is a regular file. *)
Lemma C3_witness :
  let s := example.syncer false in
  let env := example.calm example.noon in
  let w := example.machineSshIsFile in
  let err := Wrapf "%w: %s" ErrSSHDirNotDir in
  userinfo.Lookup env (world.files w) (str "alice") = Err err /\
  world.files (sync.syncUser s env w example.alice).2 = world.files w /\
  (classify err = SshDirNotADirectory ->
   sync.Skipped (sync.syncUser s env w example.alice).1 = true).
Proof.
  intros s env w err.
  assert (userinfo.Lookup env (world.files w) (config.Username example.alice)
          = Err err) as Hl by (vm_compute; reflexivity).
  destruct (C3_lookup_failures_skip_or_fail s env w example.alice err Hl)
    as (_ & Hfiles & Hskip & _).
  split; [exact Hl|]. split; [exact Hfiles|].
  intros Hk. apply Hskip. right. right. exact Hk.
Defined.

(** The claim as written has the orchestrator fail the user whose [.ssh] is
    not a directory: it skips that user. *)
Lemma C3_counterexample :
  let s := example.syncer false in
  let env := example.calm example.noon in
  let w := example.machineSshIsFile in
  exists err,
    userinfo.Lookup env (world.files w) (str "alice") = Err err /\
    classify err = SshDirNotADirectory /\
    sync.Error (sync.syncUser s env w example.alice).1 = None /\
    sync.Skipped (sync.syncUser s env w example.alice).1 = true.
Proof.
  exists (Wrapf "%w: %s" ErrSSHDirNotDir). vm_compute. done.
Qed.

(** An account without a home directory is not skipped: the outcome is
    FAILED, as for a generic lookup error. *)
Lemma no_home_directory_is_failed s env w user err :
  userinfo.Lookup env (world.files w) (config.Username user) = Err err ->
  classify err = NoHomeDirectory ->
  sync.Skipped (sync.syncUser s env w user).1 = false /\
  is_Some (sync.Error (sync.syncUser s env w user).1).
Proof.
  intros Hl Hk. pose proof (Lookup_failure_one_kind _ _ _ _ Hl) as Hs.
  rewrite Hk in Hs. unfold sentinels in Hs. cbn in Hs.
  rewrite (syncUser_lookup_failed s env w user err Hl).
  injection Hs as -> _ -> ->. cbn. eauto.
Qed.

(** ** Outcomes of [syncUser] *)

Lemma backupStep_skipped s env d sshDir content result :
  sync.Skipped (sync.backupStep s env d sshDir content result).1.2 =
  sync.Skipped result.
Proof.
  unfold sync.backupStep. repeat case_match; reflexivity.
Qed.

(** [Skipped] is set at the three exits for a user that cannot be resolved
    and nowhere else, and those exits set no error. *)
Lemma syncUser_skipped_no_error s env w user :
  sync.Skipped (sync.syncUser s env w user).1 = true ->
  sync.Error (sync.syncUser s env w user).1 = None.
Proof.
  destruct (userinfo.Lookup env (world.files w) (config.Username user))
    as [info|err] eqn:Hl.
  - unfold sync.syncUser. rewrite Hl.
    destruct (keyfetcher.FetchAll _ _ _) as [frs [err|]]; [done|].
    destruct (sync.buildContent _ _ _ _) as [content stats].
    destruct (sync.dryRun s); [done|].
    pose proof (backupStep_skipped s env
      (fs.sshDirAt (world.files w) (userinfo.SSHDir info))
      (userinfo.SSHDir info) content
      (sync.withStats (sync.newResult (config.Username user)) stats)) as Hb.
    destruct (sync.backupStep _ _ _ _ _ _) as [[d r] [|]]; cbn in Hb.
    + destruct (sshfile.WriteAtomic _ _ _ _) as [d' [wr|err]]; cbn;
        rewrite Hb; done.
    + cbn. rewrite Hb. done.
  - rewrite (syncUser_lookup_failed s env w user err Hl).
    repeat case_match; cbn; done.
Qed.

(** ** Claim C8: the exit status *)

Lemma countResults_failed users : forall a b c,
  (main.countResults users a b c).2 =
  (c + Z.of_nat (length (filter (fun u => is_Some (sync.Error u)) users)))%Z.
Proof.
  induction users as [|u rest IH]; intros a b c.
  - cbn. lia.
  - rewrite filter_cons. cbn [main.countResults].
    destruct (sync.Error u) as [e|] eqn:He.
    + rewrite IH, decide_True by eauto. cbn [length]. lia.
    + rewrite decide_False by (by intros [? ?]).
      destruct (sync.Skipped u); apply IH.
Qed.

Lemma filter_nil_not_Exists {A} (P : A -> Prop) `{!forall x, Decision (P x)}
    (l : list A) :
  filter P l = [] <-> ~ Exists P l.
Proof.
  induction l as [|x l IH].
  - rewrite Exists_nil. tauto.
  - rewrite filter_cons, Exists_cons. case_decide; [|tauto].
    split; [done|tauto].
Qed.

Lemma exitStatus_failed result :
  main.exitStatus result =
  if decide (Exists (fun u => is_Some (sync.Error u)) (sync.Users result))
  then main.ExitFailure else main.ExitSuccess.
Proof.
  unfold main.exitStatus.
  pose proof (countResults_failed (sync.Users result) 0 0 0) as H.
  destruct (main.countResults _ _ _ _) as [[a b] c]. cbn in H. subst c.
  set (l := filter _ _).
  assert (l = [] <-> ~ Exists (fun u => is_Some (sync.Error u)) (sync.Users result))
    as Hl by apply filter_nil_not_Exists.
  destruct l as [|u l']; case_decide as Hd; cbn; try reflexivity.
  - exfalso. apply Hl; done.
  - exfalso. assert (u :: l' = []) as [=]. apply Hl. done.
Qed.

Lemma runFrom_users s envs users : forall i w result,
  exists rs,
    sync.Users (sync.runFrom s envs i users w result).1 = sync.Users result ++ rs /\
    length rs = length users /\
    Forall (fun r => sync.Skipped r = true -> sync.Error r = None) rs /\
    (sync.HasErrors (sync.runFrom s envs i users w result).1 = true <->
     sync.HasErrors result = true \/ Exists (fun r => is_Some (sync.Error r)) rs).
Proof.
  induction users as [|user rest IH]; intros i w result; cbn.
  - exists []. rewrite app_nil_r, Exists_nil. repeat split; auto; tauto.
  - pose proof (syncUser_skipped_no_error s (envs i) w user) as Hsk.
    destruct (sync.syncUser s (envs i) w user) as [r w'].
    edestruct IH as (rs & -> & Hlen & Hall & Herr).
    cbn. exists (r :: rs). rewrite <- app_assoc. cbn.
    split; [reflexivity|]. split; [by rewrite Hlen|]. split; [by constructor|].
    rewrite Herr, Exists_cons. cbn.
    destruct (sync.Error r); split; intros; eauto; intuition; try done.
    all: by destruct H1.
Qed.

(** C8.  When the run reaches the synchronisation, the exit status of the
    process is 0 exactly when no outcome of the run carries an error and 1
    exactly when at least one does; an outcome that is skipped carries none,
    so a skipped user never turns the status to failure.  The flag
    [HasErrors] of the run's result says the same. *)
Theorem C8_exit_status_counts_failures :
  forall dry v c envs w,
    let s := {| sync.cfg := c; sync.dryRun := dry; sync.build := v |} in
    let result := (sync.Run s envs w).1 in
    let status := (main.run true false dry v (Ok c) envs w).1 in
    (status = 0%Z <-> Forall (fun u => sync.Error u = None) (sync.Users result)) /\
    (status = 1%Z <-> Exists (fun u => is_Some (sync.Error u)) (sync.Users result)) /\
    Forall (fun u => sync.Skipped u = true -> sync.Error u = None) (sync.Users result) /\
    (sync.HasErrors result = true <-> status = 1%Z).
Proof.
  intros dry v c envs w s result status.
  assert (status = main.exitStatus result) as Hst.
  { subst status result. cbn. fold s. by destruct (sync.Run s envs w). }
  destruct (runFrom_users s envs (config.Users c) 0 w
              {| sync.Users := []; sync.HasErrors := false |})
    as (rs & Hus & _ & Hsk & Herr).
  change (sync.Users result = rs) in Hus.
  change (sync.HasErrors result = true <->
          false = true \/ Exists (fun r => is_Some (sync.Error r)) rs) in Herr.
  clearbody status result. subst status. rewrite exitStatus_failed, Hus.
  assert (Forall (fun u => sync.Error u = None) rs <->
          ~ Exists (fun u => is_Some (sync.Error u)) rs) as Hno.
  { rewrite Forall_forall, Exists_exists. split.
    - intros H (u & Hin & Hu). rewrite (H u Hin) in Hu. by destruct Hu.
    - intros H u Hin. destruct (sync.Error u) eqn:He; [|done].
      exfalso. apply H. exists u. rewrite He. eauto. }
  case_decide as Hd; unfold main.ExitFailure, main.ExitSuccess.
  - split; [split; [done|intros H; apply Hno in H; done]|].
    split; [done|]. split; [exact Hsk|].
    split; [done|]. intros _. apply Herr. by right.
  - split; [split; [intros _; by apply Hno|done]|].
    split; [split; [done|intros H; done]|]. split; [exact Hsk|].
    split; [|done]. intros H. apply Herr in H as [?|?]; done.
Qed.

(** The counting loop does the same on any list of outcomes. *)
Lemma exitStatus_iff result :
  (main.exitStatus result = 0%Z <->
   Forall (fun u => sync.Error u = None) (sync.Users result)) /\
  (main.exitStatus result = 1%Z <->
   Exists (fun u => is_Some (sync.Error u)) (sync.Users result)).
Proof.
  rewrite exitStatus_failed.
  assert (Forall (fun u => sync.Error u = None) (sync.Users result) <->
          ~ Exists (fun u => is_Some (sync.Error u)) (sync.Users result)) as Hno.
  { rewrite Forall_forall, Exists_exists. split.
    - intros H (u & Hin & Hu). rewrite (H u Hin) in Hu. by destruct Hu.
    - intros H u Hin. destruct (sync.Error u) eqn:He; [|done].
      exfalso. apply H. exists u. rewrite He. eauto. }
  case_decide as Hd; unfold main.ExitFailure, main.ExitSuccess.
  - split; [split; [done|intros H; apply Hno in H; done]|done].
  - split; [split; [intros _; by apply Hno|done]|].
    split; [done|intros H; done].
Qed.

(** ** Claim C9: cancellation *)

Section Cancellation.
Import world.












End Cancellation.


(** C1 on the example machine, when Alice's second source answers 500. *)
Lemma C1_witness :
  let s := example.syncer false in
  let env := example.withExchange (example.calm example.noon) example.secondFails in
  world.files (sync.syncUser s env example.machine example.alice).2 =
    world.files example.machine /\
  is_Some (sync.Error (sync.syncUser s env example.machine example.alice).1).
Proof.
  intros s env.
  destruct (C1_failing_source_aborts s env example.machine example.alice
               example.aliceInfo 1
               (example.source "https://keys.example/b"))
    as (Hfiles & Herr & _).
  - vm_compute. reflexivity.
  - reflexivity.
  - vm_compute. eauto.
  - split; [exact Hfiles|exact Herr].
Defined.



(** ** The order of strings *)

Section StringOrder.
Import backup.

Lemma strLeb_refl a : strLeb a a = true.
Proof.
induction a as [|x a IH]; [done|]. cbn.
by rewrite N.ltb_irrefl.
Qed.

Lemma strLeb_total a : forall b, strLeb a b = true \/ strLeb b a = true.
Proof.
induction a as [|x a IH]; intros [|y b]; cbn; auto.
destruct (N.ltb_spec (N_of_ascii x) (N_of_ascii y)); [auto|].
destruct (N.ltb_spec (N_of_ascii y) (N_of_ascii x)); [auto|].
apply IH.
Qed.

Lemma strLeb_trans a : forall b c,
strLeb a b = true -> strLeb b c = true -> strLeb a c = true.
Proof.
induction a as [|x a IH]; intros [|y b] [|z c]; cbn; try done.
destruct (N.ltb_spec (N_of_ascii x) (N_of_ascii y)),
  (N.ltb_spec (N_of_ascii y) (N_of_ascii x)),
  (N.ltb_spec (N_of_ascii y) (N_of_ascii z)),
  (N.ltb_spec (N_of_ascii z) (N_of_ascii y)),
  (N.ltb_spec (N_of_ascii x) (N_of_ascii z)),
  (N.ltb_spec (N_of_ascii z) (N_of_ascii x));
  try done; try lia.
apply IH.
Qed.

Lemma N_of_ascii_inj x y : N_of_ascii x = N_of_ascii y -> x = y.
Proof.
intros H. rewrite <- (ascii_N_embedding x), <- (ascii_N_embedding y).
by rewrite H.
Qed.

Lemma strLeb_antisym a : forall b,
strLeb a b = true -> strLeb b a = true -> a = b.
Proof.
induction a as [|x a IH]; intros [|y b]; cbn; try done.
destruct (N.ltb_spec (N_of_ascii x) (N_of_ascii y)),
  (N.ltb_spec (N_of_ascii y) (N_of_ascii x)); try done; try lia.
intros Hab Hba. f_equal; [apply N_of_ascii_inj; lia|by apply IH].
Qed.

#[global] Instance strLe_refl : Reflexive strLe.
Proof. intros a. apply strLeb_refl. Qed.

#[global] Instance strLe_trans : Transitive strLe.
Proof. intros a b c. apply strLeb_trans. Qed.

#[global] Instance strLe_total : Total strLe.
Proof. intros a b. apply strLeb_total. Qed.

#[global] Instance strLe_antisym : AntiSymm (=) strLe.
Proof. intros a b. apply strLeb_antisym. Qed.

End StringOrder.

(** ** The loops of [RotateBackups] *)

Section Rotation.
Import world fs backup.

Lemma collectBackups_filter l : forall acc,
collectBackups l acc = acc ++ (filter backupFile l).*1.
Proof.
induction l as [|[name e] l IH]; intros acc.
- cbn. by rewrite app_nil_r.
- rewrite filter_cons. cbn [collectBackups].
  destruct (isDir e) eqn:Hd.
  { rewrite decide_False
    by (unfold backupFile; intros [H _]; cbn [fst snd] in H; congruence).
    apply IH. }
  destruct (gostrings.HasPrefix name BackupPrefix) eqn:Hp.
  + rewrite decide_True by done. rewrite IH, <- app_assoc. done.
  + rewrite decide_False
      by (unfold backupFile; intros [_ H]; cbn [fst snd] in H; congruence).
    apply IH.
Qed.

Lemma map_to_list_backupFiles (entries : gmap gostring Entry) :
map_to_list (backupFiles entries) ≡ₚ filter backupFile (map_to_list entries).
Proof.
unfold backupFiles. rewrite map_filter_alt. apply map_to_list_to_map.
apply NoDup_fmap_fst.
- intros name e1 e2 H1 H2.
  apply list_elem_of_filter in H1 as [_ H1], H2 as [_ H2].
  exact (map_to_list_unique entries name e1 e2 H1 H2).
- apply NoDup_filter, NoDup_map_to_list.
Qed.

Lemma sortedBackups_perm entries :
sortedBackups entries ≡ₚ (map_to_list (backupFiles entries)).*1.
Proof.
unfold sortedBackups, sortStrings, readDir.
rewrite merge_sort_Permutation, collectBackups_filter. cbn.
rewrite map_to_list_backupFiles.
apply fmap_Permutation. apply filter_Permutation.
apply merge_sort_Permutation.
Qed.

Lemma sortedBackups_sorted entries : StronglySorted strLe (sortedBackups entries).
Proof. apply (StronglySorted_merge_sort _). Qed.

Lemma sortedBackups_NoDup entries : NoDup (sortedBackups entries).
Proof. rewrite sortedBackups_perm. apply NoDup_fst_map_to_list. Qed.

Lemma sortedBackups_length entries :
length (sortedBackups entries) = size (backupFiles entries).
Proof.
rewrite sortedBackups_perm, length_fmap. apply length_map_to_list.
Qed.

Lemma elem_of_sortedBackups entries name :
name ∈ sortedBackups entries <-> is_Some (backupFiles entries !! name).
Proof.
rewrite sortedBackups_perm, list_elem_of_fmap. split.
- intros ([n e] & -> & H). apply elem_of_map_to_list in H. cbn. eauto.
- intros [e H]. exists (name, e). split; [done|].
  by apply elem_of_map_to_list.
Qed.

Lemma foldr_delete_delete (entries : gmap gostring Entry) name names :
foldr delete (delete name entries) names =
delete name (foldr delete entries names).
Proof.
induction names as [|x names IH]; [done|].
cbn. rewrite IH. apply delete_delete.
Qed.

(** Without a failing [os.Remove] the delete loop removes the first [count]
  names and reports them. *)
Lemma deleteOldest_ok env names : forall count entries deleted,
(forall name, ioError env (RemoveBackup name) = None) ->
deleteOldest env count names entries deleted =
  (foldr delete entries (take count names), deleted ++ take count names, None).
Proof.
induction names as [|name rest IH]; intros [|count] entries deleted Hio; cbn;
  rewrite ?app_nil_r; try done.
rewrite Hio, IH by done. rewrite <- app_assoc. cbn.
by rewrite foldr_delete_delete.
Qed.

Lemma lookup_foldr_delete (entries : gmap gostring Entry) names name :
foldr delete entries names !! name =
if decide (name ∈ names) then None else entries !! name.
Proof.
induction names as [|x names IH]; cbn.
- by rewrite decide_False by apply not_elem_of_nil.
- destruct (decide (x = name)) as [->|Hne].
  + rewrite lookup_delete_eq. by rewrite decide_True by left.
  + rewrite lookup_delete_ne, IH by done.
    destruct (decide (name ∈ names)).
    * by rewrite decide_True by (by right).
    * rewrite decide_False; [done|]. intros [?|?]%elem_of_cons; done.
Qed.

Lemma backupFiles_lookup entries name e :
backupFiles entries !! name = Some e <->
entries !! name = Some e /\ backupFile (name, e).
Proof. unfold backupFiles. apply map_lookup_filter_Some. Qed.

(** The backup files left when the first [n] of the sorted names are gone
  are the other sorted names. *)
Lemma backupFiles_after_delete entries n name :
is_Some (backupFiles (foldr delete entries (take n (sortedBackups entries)))
           !! name) <->
name ∈ drop n (sortedBackups entries).
Proof.
pose proof (sortedBackups_NoDup entries) as Hnd.
rewrite <- (take_drop n (sortedBackups entries)) in Hnd.
apply NoDup_app in Hnd as (_ & Hdisj & _).
split.
- intros [e He]. apply backupFiles_lookup in He as [He Hb].
  rewrite lookup_foldr_delete in He. case_decide as Hin; [done|].
  assert (name ∈ sortedBackups entries) as Hs.
  { apply elem_of_sortedBackups. exists e. by apply backupFiles_lookup. }
  rewrite <- (take_drop n (sortedBackups entries)) in Hs.
  apply elem_of_app in Hs as [?|?]; done.
- intros Hin.
  assert (name ∈ sortedBackups entries) as Hs.
  { rewrite <- (take_drop n (sortedBackups entries)). apply elem_of_app. auto. }
  apply elem_of_sortedBackups in Hs as [e He].
  apply backupFiles_lookup in He as [He Hb].
  exists e. apply backupFiles_lookup. split; [|done].
  rewrite lookup_foldr_delete, decide_False; [done|].
  intros Ht. by apply (Hdisj name).
Qed.

Lemma backupFiles_after_delete_size entries n :
size (backupFiles (foldr delete entries (take n (sortedBackups entries)))) =
length (drop n (sortedBackups entries)).
Proof.
rewrite <- sortedBackups_length. apply Permutation_length.
apply NoDup_Permutation.
- apply sortedBackups_NoDup.
- pose proof (sortedBackups_NoDup entries) as Hnd.
  rewrite <- (take_drop n (sortedBackups entries)) in Hnd.
  by apply NoDup_app in Hnd as (_ & _ & ?).
- intros name. rewrite elem_of_sortedBackups. apply backupFiles_after_delete.
Qed.

End Rotation.

(** ** Claim C7: rotation of the backups *)

(** C7.  Let the backup directory hold [N] backup files (entries that are
    not directories and whose name starts with the backup prefix), and let
    [R] be the retention count.  A negative [R] is refused with an error and
    nothing is deleted, whatever the directory.  For [R >= 0], when the
    directory can be read and every removal succeeds, exactly [max 0 (N - R)]
    files are deleted: they are backup files, each is smaller in the order of
    strings than every backup file that remains, the other entries of the
    directory are as before, and [min N R] backup files remain (so [R] of
    them when [N >= R], and none when [R = 0]). *)
Theorem C7_rotation_deletes_oldest :
  forall env d entries R,
    fs.backups d = fs.BackupDir entries ->
    let N := Z.of_nat (size (backupFiles entries)) in
    ((R < 0)%Z ->
       backup.RotateBackups env d R =
         (d, [], Some (Errorf "retention count cannot be negative"))) /\
    ((0 <= R)%Z ->
     world.ioError env fs.ReadBackupDir = None ->
     (forall name, world.ioError env (fs.RemoveBackup name) = None) ->
     exists entries' deleted,
       backup.RotateBackups env d R =
         (fs.setBackups d (fs.BackupDir entries'), deleted, None) /\
       Z.of_nat (length deleted) = Z.max 0 (N - R) /\
       NoDup deleted /\
       (forall name, name ∈ deleted -> is_Some (backupFiles entries !! name)) /\
       (forall name,
          entries' !! name =
          if decide (name ∈ deleted) then None else entries !! name) /\
       (forall x y, x ∈ deleted -> is_Some (backupFiles entries' !! y) ->
          backup.strLe x y /\ x <> y) /\
       Z.of_nat (size (backupFiles entries')) = Z.min N R).
Proof.
  intros env d entries R Hd N. split.
  { intros HR. unfold backup.RotateBackups.
    destruct (Z.ltb_spec R 0); [done|lia]. }
  intros HR Hread Hrm. unfold backup.RotateBackups.
  destruct (Z.ltb_spec R 0); [lia|]. rewrite Hd, Hread.
  fold (sortedBackups entries).
  rewrite sortedBackups_length. fold N.
  destruct (world.ioError env fs.StatBackupDir) eqn:Hs.
  all: destruct (Z.leb_spec (N - R) 0) as [Hle|Hgt].
  all: try (exists entries, []; split;
             [destruct d; cbn in Hd; by subst|];
             split; [cbn; lia|]; split; [constructor|];
             split; [by intros ? ?%not_elem_of_nil|];
             split; [intros; by rewrite decide_False by apply not_elem_of_nil|];
             split; [by intros ? ? ?%not_elem_of_nil|]; lia).
  all: rewrite deleteOldest_ok by done; cbn [app].
  all: set (n := Z.to_nat (N - R)).
  all: pose proof (sortedBackups_NoDup entries) as Hnd.
  all: pose proof (sortedBackups_sorted entries) as Hsorted.
  all: pose proof (sortedBackups_length entries) as Hlen.
  all: rewrite <- (take_drop n (sortedBackups entries)) in Hnd, Hsorted.
  all: apply NoDup_app in Hnd as (Hnd1 & Hdisj & Hnd2).
  all: exists (foldr delete entries (take n (sortedBackups entries))),
         (take n (sortedBackups entries)).
  all: split; [done|].
  all: split; [rewrite length_take; subst n N; lia|].
  all: split; [done|].
  all: split;
    [intros name Hin; apply elem_of_sortedBackups;
     rewrite <- (take_drop n (sortedBackups entries)); apply elem_of_app; auto|].
  all: split; [intros; apply lookup_foldr_delete|].
  all: split;
    [intros x y Hx Hy; apply backupFiles_after_delete in Hy; split;
     [by eapply StronglySorted_app_1_elem_of|intros ->; by eapply Hdisj]|].
  all: rewrite backupFiles_after_delete_size, length_drop; subst n N; lia.
Qed.

(** C7 on a directory with three backups, with one backup to keep. *)
Lemma C7_witness :
  exists entries' deleted,
    backup.RotateBackups (example.calm example.noon) example.dirWithBackups 1 =
      (fs.setBackups example.dirWithBackups (fs.BackupDir entries'), deleted, None) /\
    length deleted = 2 /\
    size (backupFiles entries') = 1.
Proof.
  destruct (C7_rotation_deletes_oldest (example.calm example.noon)
              example.dirWithBackups example.backupEntries 1 eq_refl)
    as [_ H].
  destruct H as (entries' & deleted & Heq & Hlen & _ & _ & _ & _ & Hsize).
  - lia.
  - reflexivity.
  - reflexivity.
  - assert (size (backupFiles example.backupEntries) = 3) as HN
      by (vm_compute; reflexivity).
    rewrite HN in Hlen, Hsize.
    exists entries', deleted. split; [exact Heq|]. split; lia.
Defined.

Example RotateBackups_example :
  (backup.RotateBackups (example.calm example.noon) example.dirWithBackups 1).1.2 =
  [ str "authorized_keys_20250101_000000_aaaaaa";
    str "authorized_keys_20250102_000000_bbbbbb" ].
Proof. vm_compute. reflexivity. Qed.

(** ** The scanner and the parser *)

Section Parser.
Import gostrings keyparser.

Lemma scanLines_short lines final :
Forall (fun l => ~ tooLong l) lines ->
scanLines lines final = (dropCR <$> lines, final).
Proof.
induction 1 as [|l lines Hl _ IH]; [done|].
cbn. unfold tooLong in Hl.
destruct (Z.leb_spec MaxScanTokenSize (Z.of_nat (length l))); [done|].
by rewrite IH.
Qed.

Lemma scanLines_long lines final :
Exists tooLong lines ->
(scanLines lines final).2 = Some ErrTooLong.
Proof.
induction 1 as [l lines Hl|l lines _ IH]; cbn.
- unfold tooLong in Hl.
  by destruct (Z.leb_spec MaxScanTokenSize (Z.of_nat (length l))); [|lia].
- destruct (Z.leb_spec MaxScanTokenSize (Z.of_nat (length l))); [done|].
  destruct (scanLines lines final) as [tokens err]. exact IH.
Qed.

(** The loop of [Parse] keeps the key lines with their numbers and counts
  the other lines that are not empty. *)
Lemma parseLoop_kept tokens : forall n res,
parseLoop tokens n res =
  {| Keys := Keys res ++ keptFrom n tokens;
     DiscardedLines :=
       (DiscardedLines res + Z.of_nat (length (filter counted tokens)))%Z |}.
Proof.
induction tokens as [|text rest IH]; intros n [ks dl].
- cbn. by rewrite app_nil_r, Z.add_0_r.
- rewrite filter_cons. cbn [parseLoop keptFrom].
  destruct (isValidKey (TrimSpace text)) eqn:Hv.
  + rewrite IH. cbn [Keys DiscardedLines].
    rewrite decide_False by (unfold counted; intros [_ ?]; congruence).
    by rewrite <- app_assoc.
  + destruct (TrimSpace text) as [|c line] eqn:Ht.
    * rewrite IH. cbn [Keys DiscardedLines app].
      by rewrite decide_False by (unfold counted; rewrite Ht; by intros [? _]).
    * rewrite IH. cbn [Keys DiscardedLines app].
      rewrite decide_True by (unfold counted; by rewrite Ht, Hv).
      cbn [length]. f_equal. lia.
Qed.

Lemma Parse_ok r :
readErr r = None ->
Forall (fun l => ~ tooLong l) (splitLines (data r)) ->
Parse r = Ok (parsed (data r)).
Proof.
intros Herr Hshort. unfold Parse, Scan.
rewrite (scanLines_short _ _ Hshort), Herr, parseLoop_kept. done.
Qed.

Lemma Parse_read_error r e :
readErr r = Some e -> exists e', Parse r = Err e'.
Proof.
intros Herr. unfold Parse, Scan.
destruct (decide (Exists tooLong (splitLines (data r)))) as [Hl|Hs].
- pose proof (scanLines_long _ (readErr r) Hl) as H.
  destruct (scanLines _ _) as [tokens err]. cbn in H. subst err. eauto.
- apply not_Exists_Forall in Hs; [|apply _].
  rewrite (scanLines_short _ _ Hs), Herr. eauto.
Qed.

Lemma Parse_too_long r :
Exists tooLong (splitLines (data r)) -> Parse r = Err ErrTooLong.
Proof.
intros Hl. unfold Parse, Scan.
pose proof (scanLines_long _ (readErr r) Hl) as H.
destruct (scanLines _ _) as [tokens err]. cbn in H. by subst err.
Qed.

Lemma Parse_fails_iff r :
(exists e, Parse r = Err e) <->
is_Some (readErr r) \/ Exists tooLong (splitLines (data r)).
Proof.
split.
- intros [e He].
  destruct (decide (Exists tooLong (splitLines (data r)))) as [Hl|Hs]; [auto|].
  apply not_Exists_Forall in Hs; [|apply _].
  destruct (readErr r) as [e'|] eqn:Herr; [eauto|].
  by rewrite (Parse_ok r Herr Hs) in He.
- intros [[e He]|Hl].
  + by eapply Parse_read_error.
  + exists ErrTooLong. by apply Parse_too_long.
Qed.

Lemma elem_of_keptFrom texts : forall n k,
k ∈ keptFrom n texts <->
exists i text,
  texts !! i = Some text /\
  isValidKey (TrimSpace text) = true /\
  k = {| Line := TrimSpace text; LineNumber := (n + Z.of_nat i + 1)%Z |}.
Proof.
induction texts as [|text rest IH]; intros n k; cbn [keptFrom].
- split; [by intros ?%not_elem_of_nil|by intros (i & t & [=] & _)].
- rewrite elem_of_app, IH. split.
  + intros [Hk|(i & t & Hi & Hv & ->)].
    * destruct (isValidKey (TrimSpace text)) eqn:Hv;
        [|by apply not_elem_of_nil in Hk].
      apply list_elem_of_singleton in Hk as ->.
      exists 0, text. rewrite Z.add_0_r. done.
    * exists (S i), t. split; [done|]. split; [done|]. f_equal. lia.
  + intros ([|i] & t & Hi & Hv & ->); cbn in Hi.
    * simplify_eq. left. rewrite Hv, Z.add_0_r. by apply list_elem_of_singleton.
    * right. exists i, t. split; [done|]. split; [done|]. f_equal. lia.
Qed.

Lemma keptFrom_sorted texts : forall n,
StronglySorted (fun a b => (LineNumber a < LineNumber b)%Z) (keptFrom n texts).
Proof.
induction texts as [|text rest IH]; intros n; cbn [keptFrom]; [constructor|].
apply StronglySorted_app_2; [|case_match; repeat constructor|apply IH].
intros a b Ha Hb. apply elem_of_keptFrom in Hb as (i & t & _ & _ & ->).
destruct (isValidKey (TrimSpace text)); [|by apply not_elem_of_nil in Ha].
apply list_elem_of_singleton in Ha as ->. cbn. lia.
Qed.

(** The rules of [isValidKey] on a line that is not empty. *)
Lemma isValidKey_cons c line :
isValidKey (c :: line) =
  if Ascii.eqb c "#" then false
  else if Ascii.eqb c "<" || Ascii.eqb c "{" || Ascii.eqb c "["
  then false
  else (2 <=? length (Fields (c :: line)))%nat.
Proof.
unfold isValidKey, startsWith. cbn [HasPrefix]. by rewrite !andb_true_r.
Qed.

End Parser.

(** ** Claim C5: the rules of the parser *)

(** C5, as the code has it.  A trimmed line that is empty is no key; one that
    starts with [#], [<], [{] or [[] is no key; any other is a key exactly
    when it has at least two fields.  For every reader, parsing fails exactly
    when the reader reports a read error or some line of the input is 65536
    bytes or longer (the scanner's token limit).  When it succeeds, the keys
    are exactly the trimmed texts of the lines that are keys, each with the
    1-indexed number of its line, in the order of the input, and the count of
    discarded lines is the number of lines whose trimmed text is neither empty
    nor a key. *)
Theorem C5_parser_line_rules :
  forall r : gostrings.Reader,
    keyparser.isValidKey [] = false /\
    (forall c line, c ∈ ["#"; "<"; "{"; "["]%char ->
       keyparser.isValidKey (c :: line) = false) /\
    (forall c line, c ∉ ["#"; "<"; "{"; "["]%char ->
       keyparser.isValidKey (c :: line) =
       bool_decide (2 <= length (gostrings.Fields (c :: line)))) /\
    ((exists e, keyparser.Parse r = Err e) <->
     is_Some (gostrings.readErr r) \/
     Exists tooLong (gostrings.splitLines (gostrings.data r))) /\
    (forall res, keyparser.Parse r = Ok res ->
       (forall k, k ∈ keyparser.Keys res <->
          exists i text,
            lineTexts (gostrings.data r) !! i = Some text /\
            keyparser.isValidKey (gostrings.TrimSpace text) = true /\
            k = {| keyparser.Line := gostrings.TrimSpace text;
                   keyparser.LineNumber := (Z.of_nat i + 1)%Z |}) /\
       StronglySorted
         (fun a b => (keyparser.LineNumber a < keyparser.LineNumber b)%Z)
         (keyparser.Keys res) /\
       keyparser.DiscardedLines res =
         Z.of_nat (length (filter counted (lineTexts (gostrings.data r))))).
Proof.
  intros r. split; [done|].
  split.
  { intros c line Hc. rewrite isValidKey_cons.
    repeat (apply elem_of_cons in Hc as [->|Hc]; [done|]).
    by apply not_elem_of_nil in Hc. }
  split.
  { intros c line Hc. rewrite isValidKey_cons.
    assert (forall x, c <> x -> Ascii.eqb c x = false) as Hne
      by (intros x; by rewrite <- Ascii.eqb_neq).
    rewrite !Hne by (intros ->; apply Hc; set_solver).
    cbn [orb]. apply eq_true_iff_eq.
    by rewrite Nat.leb_le, bool_decide_eq_true. }
  split; [apply Parse_fails_iff|].
  intros res Hres.
  assert (res = parsed (gostrings.data r)) as ->.
  { destruct (decide (Exists tooLong (gostrings.splitLines (gostrings.data r))))
      as [Hl|Hs].
    { by rewrite (Parse_too_long r Hl) in Hres. }
    apply not_Exists_Forall in Hs; [|apply _].
    destruct (gostrings.readErr r) as [e|] eqn:Herr.
    { destruct (Parse_read_error r e Herr) as [e' He']. congruence. }
    rewrite (Parse_ok r Herr Hs) in Hres. congruence. }
  cbn. split; [|split; [apply keptFrom_sorted|done]].
  intros k. rewrite elem_of_keptFrom. by setoid_rewrite Z.add_0_l.
Qed.

(** C5 on the lines of the parser's table. *)
Lemma C5_witness :
  let r := gostrings.NewReader example.table in
  let res := parsed example.table in
  keyparser.Parse r = Ok res /\
  StronglySorted
    (fun a b => (keyparser.LineNumber a < keyparser.LineNumber b)%Z)
    (keyparser.Keys res) /\
  keyparser.DiscardedLines res =
    Z.of_nat (length (filter counted (lineTexts (gostrings.data r)))).
Proof.
  intros r res.
  assert (keyparser.Parse r = Ok res) as Hp by (vm_compute; reflexivity).
  destruct (C5_parser_line_rules r) as (_ & _ & _ & _ & H).
  destruct (H res Hp) as (_ & Hsorted & Hcount).
  split; [exact Hp|]. split; [exact Hsorted|exact Hcount].
Defined.

(** The parser's table: the key is kept, the comment, the HTML line and the
    line of one field are discarded and counted, the empty line is discarded
    and not counted. *)
Example Parse_table :
  keyparser.ParseString example.table =
    Ok {| keyparser.Keys :=
            [ {| keyparser.Line := str "ssh-ed25519 AAAA user@host";
                 keyparser.LineNumber := 1 |};
              {| keyparser.Line := str "ssh-rsa BBBB other";
                 keyparser.LineNumber := 6 |} ];
          keyparser.DiscardedLines := 3 |}.
Proof. vm_compute. reflexivity. Qed.

(** The claim as written has parsing fail on a read error only.  A text of
    one line of 65536 bytes is read without any error, and parsing it
    fails. *)
Lemma C5_counterexample :
  gostrings.readErr (gostrings.NewReader example.longLine) = None /\
  keyparser.Parse (gostrings.NewReader example.longLine) = Err ErrTooLong.
Proof. split; [reflexivity|]. vm_compute. reflexivity. Qed.

(** ** Claim C10: a response body over the limit *)

Section ResponseLimit.
Import gostrings keyfetcher.

Lemma takeZ_take {A} (l : list A) : forall n, takeZ n l = take (Z.to_nat n) l.
Proof.
induction l as [|x l IH]; intros n; cbn.
- by rewrite take_nil.
- destruct (Z.leb_spec n 0).
  + by replace (Z.to_nat n) with 0 by lia.
  + replace (Z.to_nat n) with (S (Z.to_nat (n - 1))) by lia.
    cbn. by rewrite IH.
Qed.

Lemma Fetch_status_ok source body :
Fetch false (world.Responded StatusOK body) source = fetchedBody source body.
Proof. reflexivity. Qed.

(** Past the limit the reader of the body is never asked for more: neither
  the rest of the body nor its read error is seen. *)
Lemma ReadAll_over_limit body :
(MaxResponseSize <= Z.of_nat (length (data body)))%Z ->
ReadAll (LimitReader body MaxResponseSize) =
  Ok (takeZ MaxResponseSize (data body)).
Proof.
intros H. unfold ReadAll, LimitReader. cbn [readErr data].
by destruct (Z.leb_spec MaxResponseSize (Z.of_nat (length (data body)))); [|lia].
Qed.

Lemma fetchedBody_over_limit source body :
(MaxResponseSize <= Z.of_nat (length (data body)))%Z ->
fetchedBody source body =
fetchedBody source (NewReader (takeZ MaxResponseSize (data body))).
Proof.
intros H. unfold fetchedBody. rewrite (ReadAll_over_limit body H).
rewrite ReadAll_over_limit.
- cbn [NewReader data]. rewrite !takeZ_take, take_take.
  by rewrite Nat.min_id.
- cbn [NewReader data]. rewrite takeZ_take, length_take. lia.
Qed.

Lemma fetchedBody_parsed source body :
(MaxResponseSize <= Z.of_nat (length (data body)))%Z ->
let first := takeZ MaxResponseSize (data body) in
fetchedBody source body =
  match keyparser.ParseString first with
  | Err err =>
      {| Source := source; Keys := [];
         Error := Some (Wrapf "failed to parse keys: %w" err);
         StatusCode := StatusOK; DiscardedLines := 0 |}
  | Ok parseResult =>
      {| Source := source;
         Keys := keyparser.Keys parseResult;
         Error := None;
         StatusCode := StatusOK;
         DiscardedLines := keyparser.DiscardedLines parseResult |}
  end.
Proof.
intros H first. unfold fetchedBody. rewrite (ReadAll_over_limit body H).
fold first. by destruct (keyparser.ParseString first).
Qed.

End ResponseLimit.

(** C10, as the code has it.  For every response with status 200 whose body
    is longer than 10 MiB, [Fetch] reads the first 10 MiB and nothing more:
    its result is the result for a response whose body is exactly those
    bytes, so nothing in it tells that the body was cut (nor that reading the
    rest would have failed).  The error of the result is nil when every line
    of those first 10 MiB is shorter than 65536 bytes, and the keys and the
    count of discarded lines are then those of the first 10 MiB; when they
    hold a line of 65536 bytes or more, the result carries the parser's
    error. *)
Theorem C10_body_over_limit_is_cut :
  forall source (body : gostrings.Reader),
    (keyfetcher.MaxResponseSize < Z.of_nat (length (gostrings.data body)))%Z ->
    let first := keyfetcher.takeZ keyfetcher.MaxResponseSize (gostrings.data body) in
    let r := keyfetcher.Fetch false (world.Responded 200 body) source in
    Z.of_nat (length first) = keyfetcher.MaxResponseSize /\
    first = take (length first) (gostrings.data body) /\
    r = keyfetcher.Fetch false
          (world.Responded 200 (gostrings.NewReader first)) source /\
    keyfetcher.StatusCode r = 200%Z /\
    (Forall (fun l => ~ tooLong l) (gostrings.splitLines first) ->
       keyfetcher.Error r = None /\
       keyfetcher.Keys r = keyparser.Keys (parsed first) /\
       keyfetcher.DiscardedLines r = keyparser.DiscardedLines (parsed first)) /\
    (Exists tooLong (gostrings.splitLines first) ->
       keyfetcher.Error r = Some (Wrapf "failed to parse keys: %w" ErrTooLong)).
Proof.
  intros source body Hlong first r.
  assert (keyfetcher.MaxResponseSize <= Z.of_nat (length (gostrings.data body)))%Z
    as Hle by lia.
  assert (Z.of_nat (length first) = keyfetcher.MaxResponseSize) as Hlen.
  { subst first. rewrite takeZ_take, length_take.
    unfold keyfetcher.MaxResponseSize in *. lia. }
  split; [exact Hlen|]. split.
  { subst first. rewrite !takeZ_take, length_take. f_equal.
    unfold keyfetcher.MaxResponseSize in *. lia. }
  change 200%Z with keyfetcher.StatusOK. subst r.
  rewrite !Fetch_status_ok. split; [by apply fetchedBody_over_limit|].
  rewrite (fetchedBody_parsed source body Hle). fold first.
  split; [by destruct (keyparser.ParseString first)|].
  split.
  - intros Hshort. unfold keyparser.ParseString.
    rewrite Parse_ok by done. done.
  - intros Htoo. unfold keyparser.ParseString.
    rewrite Parse_too_long by done. done.
Qed.

(** ** Lines of a text *)

Section Lines.
Import gostrings.

Lemma splitLines_nil_inv data : splitLines data = [] -> data = [].
Proof.
destruct data as [|c rest]; [done|]. cbn.
destruct (Ascii.eqb c newline); [done|]. by destruct (splitLines rest).
Qed.

(** A line and its newline in front of a text. *)
Lemma splitLines_line l rest :
newline ∉ l -> splitLines (l ++ newline :: rest) = l :: splitLines rest.
Proof.
induction l as [|c l IH]; intros Hl; cbn.
- done.
- apply not_elem_of_cons in Hl as [Hc Hl].
  destruct (Ascii.eqb_spec c newline) as [->|_]; [done|].
  by rewrite IH.
Qed.

(** A last line without a newline. *)
Lemma splitLines_last l :
newline ∉ l -> l <> [] -> splitLines l = [l].
Proof.
induction l as [|c l IH]; intros Hl Hne; [done|]. cbn.
apply not_elem_of_cons in Hl as [Hc Hl].
destruct (Ascii.eqb_spec c newline) as [->|_]; [done|].
destruct l as [|d l]; [done|]. by rewrite IH.
Qed.

Lemma mjoin_cons {A} (x : list A) xs : mjoin (x :: xs) = x ++ mjoin xs.
Proof. reflexivity. Qed.

Lemma Forall_replicate {A} (P : A -> Prop) n x : P x -> Forall P (replicate n x).
Proof.
intros H. apply Forall_forall. by intros y ->%elem_of_replicate_inv.
Qed.

(** A text made of lines, each with its newline. *)
Lemma splitLines_terminated ls :
Forall (fun l => newline ∉ l) ls ->
splitLines (mjoin ((fun l => l ++ [newline]) <$> ls)) = ls.
Proof.
induction 1 as [|l ls Hl _ IH]; [done|].
rewrite fmap_cons, mjoin_cons, <- app_assoc. cbn [app].
by rewrite splitLines_line, IH.
Qed.

Definition headLength (ls : list gostring) : nat :=
match ls with
| [] => 0
| l :: _ => length l
end.

(** The lines of a prefix of a text are no longer than the lines of the
  text. *)
Lemma splitLines_take m data : forall n,
Forall (fun l => length l <= m) (splitLines data) ->
Forall (fun l => length l <= m) (splitLines (take n data)) /\
headLength (splitLines (take n data)) <= headLength (splitLines data).
Proof.
induction data as [|c rest IH]; intros [|n] H; cbn; try (split; [constructor|lia]).
cbn in H. destruct (Ascii.eqb c newline).
- apply Forall_cons in H as [_ H]. destruct (IH n H) as [IH1 _].
  split; [constructor; [cbn; lia|done]|done].
- destruct (splitLines rest) as [|l ls] eqn:Hs.
  + apply splitLines_nil_inv in Hs as ->. by rewrite take_nil.
  + apply Forall_cons in H as [Hl H].
    destruct (IH n) as [IH1 IH2]; [constructor; [cbn in Hl; lia|done]|].
    destruct (splitLines (take n rest)) as [|l' ls'].
    * cbn in *. split; [repeat constructor; cbn; lia|lia].
    * cbn in *. apply Forall_cons in IH1 as [_ IH1].
      split; [constructor; [cbn; lia|done]|lia].
Qed.

Lemma not_tooLong_length l :
~ tooLong l <-> length l <= Z.to_nat 65535.
Proof. unfold tooLong, MaxScanTokenSize. lia. Qed.

Lemma splitLines_take_short data n :
Forall (fun l => ~ tooLong l) (splitLines data) ->
Forall (fun l => ~ tooLong l) (splitLines (take n data)).
Proof.
intros H. eapply Forall_impl; [apply (splitLines_take (Z.to_nat 65535) data n)|].
- eapply Forall_impl; [exact H|]. intros l. apply not_tooLong_length.
- intros l. apply not_tooLong_length.
Qed.

Lemma length_mjoin_replicate {A} k (x : list A) :
length (mjoin (replicate k x)) = k * length x.
Proof.
induction k as [|k IH]; [done|].
cbn [replicate]. rewrite mjoin_cons, length_app, IH. lia.
Qed.

End Lines.

(** C10 on a body of a million key lines (27 MB): the result of the fetch
    is the result for the first 10 MiB and carries no error. *)
Lemma C10_witness :
  let body := gostrings.NewReader example.manyKeys in
  let source := example.source "https://keys.example/a" in
  let first := keyfetcher.takeZ keyfetcher.MaxResponseSize example.manyKeys in
  (keyfetcher.MaxResponseSize < Z.of_nat (length example.manyKeys))%Z /\
  keyfetcher.Fetch false (world.Responded 200 body) source =
    keyfetcher.Fetch false (world.Responded 200 (gostrings.NewReader first)) source /\
  keyfetcher.Error (keyfetcher.Fetch false (world.Responded 200 body) source) = None.
Proof.
  intros body source first.
  assert (length (example.keyLine ++ [gostrings.newline]) = 27) as Hline
    by reflexivity.
  assert (keyfetcher.MaxResponseSize < Z.of_nat (length example.manyKeys))%Z
    as Hlong.
  { unfold example.manyKeys. rewrite length_mjoin_replicate, Hline.
    unfold keyfetcher.MaxResponseSize. lia. }
  destruct (C10_body_over_limit_is_cut source body Hlong)
    as (_ & _ & Hsame & _ & Hshort & _).
  split; [exact Hlong|]. split; [exact Hsame|].
  destruct Hshort as (Herr & _ & _); [|exact Herr].
  cbn [gostrings.data body gostrings.NewReader].
  rewrite takeZ_take. apply splitLines_take_short.
  unfold example.manyKeys.
  rewrite <- (fmap_replicate (fun l => l ++ [gostrings.newline])).
  rewrite splitLines_terminated.
  - apply Forall_replicate. apply not_tooLong_length.
    change (length example.keyLine) with 26. lia.
  - apply Forall_replicate. apply (bool_decide_unpack _). vm_compute. exact I.
Defined.

(** The claim as written has [Fetch] return without error for every body
    over the limit.  A body of 10 MiB and one byte without a newline is such
    a body, and the result carries the parser's error: the first 10 MiB are
    one line, too long for the scanner. *)
Lemma C10_counterexample :
  let body := gostrings.NewReader example.hugeBlob in
  let source := example.source "https://keys.example/a" in
  (keyfetcher.MaxResponseSize < Z.of_nat (length (gostrings.data body)))%Z /\
  keyfetcher.Error (keyfetcher.Fetch false (world.Responded 200 body) source) =
    Some (Wrapf "failed to parse keys: %w" ErrTooLong).
Proof.
  intros body source.
  assert (keyfetcher.MaxResponseSize < Z.of_nat (length (gostrings.data body)))%Z
    as Hlong.
  { cbn [gostrings.data body gostrings.NewReader]. unfold example.hugeBlob.
    rewrite length_replicate. unfold keyfetcher.MaxResponseSize. lia. }
  split; [exact Hlong|].
  change 200%Z with keyfetcher.StatusOK.
  rewrite Fetch_status_ok, fetchedBody_parsed by lia.
  cbn [gostrings.data body gostrings.NewReader].
  unfold keyparser.ParseString. rewrite Parse_too_long; [done|].
  cbn [gostrings.data gostrings.NewReader].
  rewrite takeZ_take. unfold example.hugeBlob. rewrite take_replicate.
  rewrite splitLines_last.
  - constructor. unfold tooLong. rewrite length_replicate.
    unfold gostrings.MaxScanTokenSize, keyfetcher.MaxResponseSize. lia.
  - intros [H _]%elem_of_replicate. discriminate H.
  - intros H. apply (f_equal length) in H. rewrite length_replicate in H.
    cbn [length] in H. unfold keyfetcher.MaxResponseSize in H. lia.
Qed.

(** ** The deduplication loops *)

Section Dedup.
Import sync.

(** The loop only appends to its accumulators. *)
Lemma dedupKeys_acc origin ks : forall seen dups kept,
  dedupKeys origin ks seen dups kept =
    (seenAfter origin ks seen,
     dups ++ newDuplicates origin ks seen,
     kept ++ newKeys origin ks seen).
Proof.
  induction ks as [|key rest IH]; intros seen dups kept.
  - unfold seenAfter, newDuplicates, newKeys. cbn. by rewrite !app_nil_r.
  - unfold seenAfter, newDuplicates, newKeys. cbn.
    destruct (seen !! keyparser.Line key) as [first|].
    + rewrite (IH seen (dups ++ [_]) kept), (IH seen [_] []).
      cbn. by rewrite <- app_assoc.
    + rewrite (IH _ dups (kept ++ [_])), (IH _ [] [_]).
      cbn. by rewrite <- app_assoc.
Qed.

Lemma dedupKeys_nil origin seen :
  seenAfter origin [] seen = seen /\
  newDuplicates origin [] seen = [] /\
  newKeys origin [] seen = [].
Proof. done. Qed.

(** A key that was seen: one more duplicate event. *)
Lemma dedupKeys_seen origin key rest seen first :
  seen !! keyparser.Line key = Some first ->
  seenAfter origin (key :: rest) seen = seenAfter origin rest seen /\
  newDuplicates origin (key :: rest) seen =
    {| Key := keyparser.Line key; FirstSource := first;
       DuplicateSource := origin |} :: newDuplicates origin rest seen /\
  newKeys origin (key :: rest) seen = newKeys origin rest seen.
Proof.
  intros H. unfold seenAfter, newDuplicates, newKeys. cbn. rewrite H.
  by rewrite dedupKeys_acc.
Qed.

(** A key that was not seen: it is kept and credited to this origin. *)
Lemma dedupKeys_fresh origin key rest seen :
  seen !! keyparser.Line key = None ->
  let seen' := <[keyparser.Line key := origin]> seen in
  seenAfter origin (key :: rest) seen = seenAfter origin rest seen' /\
  newDuplicates origin (key :: rest) seen = newDuplicates origin rest seen' /\
  newKeys origin (key :: rest) seen =
    keyparser.Line key :: newKeys origin rest seen'.
Proof.
  intros H. unfold seenAfter, newDuplicates, newKeys. cbn. rewrite H.
  by rewrite dedupKeys_acc.
Qed.

(** The kept keys are the lines that were not seen, each once. *)
Lemma elem_of_newKeys origin ks : forall seen L,
  L ∈ newKeys origin ks seen <-> L ∈ linesOf ks /\ seen !! L = None.
Proof.
  induction ks as [|key rest IH]; intros seen L.
  - cbn. split; [by intros ?%not_elem_of_nil|by intros [?%not_elem_of_nil _]].
  - unfold linesOf. rewrite fmap_cons. fold (linesOf rest).
    destruct (seen !! keyparser.Line key) as [first|] eqn:Hs.
    + destruct (dedupKeys_seen origin key rest seen first Hs) as (_ & _ & ->).
      rewrite IH, elem_of_cons. split; [intros [? ?]; split; [by right|done]|].
      intros [[->|?] ?]; [congruence|done].
    + destruct (dedupKeys_fresh origin key rest seen Hs) as (_ & _ & ->).
      rewrite !elem_of_cons, IH. split.
      * intros [->|[? Hl]]; [by split; [left|]|]. split; [by right|].
        destruct (decide (L = keyparser.Line key)) as [->|Hne];
          [by rewrite lookup_insert_eq in Hl|].
        by rewrite lookup_insert_ne in Hl.
      * intros [[->|?] Hl]; [by left|].
        destruct (decide (L = keyparser.Line key)) as [->|Hne]; [by left|].
        right. split; [done|]. by rewrite lookup_insert_ne.
Qed.

Lemma NoDup_newKeys origin ks : forall seen, NoDup (newKeys origin ks seen).
Proof.
  induction ks as [|key rest IH]; intros seen; [constructor|].
  destruct (seen !! keyparser.Line key) as [first|] eqn:Hs.
  - destruct (dedupKeys_seen origin key rest seen first Hs) as (_ & _ & ->).
    apply IH.
  - destruct (dedupKeys_fresh origin key rest seen Hs) as (_ & _ & ->).
    constructor; [|apply IH].
    rewrite elem_of_newKeys, lookup_insert_eq. by intros [_ ?].
Qed.

(** The provenance map afterwards: the kept keys are credited to this
    origin, the others are as before. *)
Lemma lookup_seenAfter origin ks : forall seen L,
  seenAfter origin ks seen !! L =
    if decide (L ∈ newKeys origin ks seen) then Some origin else seen !! L.
Proof.
  induction ks as [|key rest IH]; intros seen L.
  - cbn. by rewrite decide_False by apply not_elem_of_nil.
  - destruct (seen !! keyparser.Line key) as [first|] eqn:Hs.
    + destruct (dedupKeys_seen origin key rest seen first Hs) as (-> & _ & ->).
      apply IH.
    + destruct (dedupKeys_fresh origin key rest seen Hs) as (-> & _ & ->).
      rewrite IH. destruct (decide (L = keyparser.Line key)) as [->|Hne].
      * rewrite decide_False, lookup_insert_eq, decide_True; [done|by left|].
        rewrite elem_of_newKeys, lookup_insert_eq. by intros [_ ?].
      * rewrite lookup_insert_ne by done.
        destruct (decide (L ∈ newKeys origin rest _)) as [Hin|Hnin].
        -- by rewrite decide_True by (by right).
        -- rewrite decide_False; [done|]. by intros [?|?]%elem_of_cons.
Qed.

(** Every duplicate event of the loop is for a line of this origin and names
    the origin the line is credited to. *)
Lemma newDuplicates_first origin ks : forall seen d,
  d ∈ newDuplicates origin ks seen ->
  DuplicateSource d = origin /\
  Key d ∈ linesOf ks /\
  seenAfter origin ks seen !! Key d = Some (FirstSource d).
Proof.
  induction ks as [|key rest IH]; intros seen d Hd.
  - by apply not_elem_of_nil in Hd.
  - unfold linesOf. rewrite fmap_cons. fold (linesOf rest).
    destruct (seen !! keyparser.Line key) as [first|] eqn:Hs.
    + destruct (dedupKeys_seen origin key rest seen first Hs) as (Hsa & Hnd & Hnk).
      rewrite Hsa. rewrite Hnd in Hd. apply elem_of_cons in Hd as [->|Hd].
      * cbn. split; [done|]. split; [by left|].
        rewrite lookup_seenAfter, decide_False; [done|].
        rewrite elem_of_newKeys, Hs. by intros [_ ?].
      * destruct (IH seen d Hd) as (? & ? & ?). split; [done|].
        split; [by right|done].
    + destruct (dedupKeys_fresh origin key rest seen Hs) as (Hsa & Hnd & Hnk).
      rewrite Hsa. rewrite Hnd in Hd.
      destruct (IH _ d Hd) as (? & ? & ?). split; [done|].
      split; [by right|done].
Qed.

(** Every occurrence of a line is kept or recorded: the events for a line and
    the kept line make up its occurrences. *)
Lemma newDuplicates_count origin ks : forall seen L,
  length (filter (fun d => Key d = L) (newDuplicates origin ks seen)) +
  length (filter (L =.) (newKeys origin ks seen)) =
  length (filter (L =.) (linesOf ks)).
Proof.
  induction ks as [|key rest IH]; intros seen L; [done|].
  unfold linesOf. rewrite fmap_cons. fold (linesOf rest).
  rewrite (filter_cons _ (keyparser.Line key)).
  destruct (seen !! keyparser.Line key) as [first|] eqn:Hs.
  - destruct (dedupKeys_seen origin key rest seen first Hs) as (_ & -> & ->).
    rewrite filter_cons. cbn [Key].
    specialize (IH seen L).
    destruct (decide (keyparser.Line key = L)) as [<-|Hne].
    + rewrite decide_True by done. cbn [length]. lia.
    + rewrite decide_False by congruence. lia.
  - destruct (dedupKeys_fresh origin key rest seen Hs) as (_ & -> & ->).
    rewrite filter_cons.
    specialize (IH (<[keyparser.Line key := origin]> seen) L).
    destruct (decide (L = keyparser.Line key)) as [->|Hne].
    + cbn [length]. lia.
    + lia.
Qed.

End Dedup.

Section DedupSources.
Import sync.

Lemma dedupSources_spec frs : forall seen dups sources,
  dedupSources frs seen dups sources =
    (seenAfterSources frs seen,
     dups ++ duplicatesOfSources frs seen,
     sources ++ sectionsOf frs (keptPerSource frs seen)).
Proof.
  induction frs as [|fr rest IH]; intros seen dups sources.
  - cbn. by rewrite !app_nil_r.
  - cbn [dedupSources]. fold (originOf fr). rewrite dedupKeys_acc.
    cbn [app]. rewrite IH. cbn [seenAfterSources duplicatesOfSources keptPerSource].
    unfold sectionsOf. cbn [zip_with]. rewrite mjoin_cons.
    fold (sectionsOf rest
            (keptPerSource rest (seenAfter (originOf fr) (keyfetcher.Keys fr) seen))).
    rewrite <- !app_assoc. f_equal. unfold sectionOf.
    destruct (newKeys _ _ _); [by rewrite app_nil_l|by rewrite <- app_assoc].
Qed.

Lemma dedupLocal_spec s env d seen dups :
  dedupLocal s env d seen dups =
    (seenAfter Local (localParsed s env d) seen,
     dups ++ newDuplicates Local (localParsed s env d) seen,
     newKeys Local (localParsed s env d) seen).
Proof.
  unfold dedupLocal, localParsed.
  destruct (config.IsPreserveLocalKeys _);
    [|by rewrite app_nil_r].
  destruct (sshfile.ReadContent env d) as [[|c content]|e];
    try by rewrite app_nil_r.
  destruct (keyparser.ParseString (c :: content)) as [pr|e];
    [|by rewrite app_nil_r].
  by rewrite dedupKeys_acc.
Qed.

(** The provenance map only grows. *)
Lemma seenAfter_mono origin ks seen L o :
  seen !! L = Some o -> seenAfter origin ks seen !! L = Some o.
Proof.
  intros H. rewrite lookup_seenAfter, decide_False; [done|].
  rewrite elem_of_newKeys, H. by intros [_ ?].
Qed.

Lemma seenAfterSources_mono frs : forall seen L o,
  seen !! L = Some o -> seenAfterSources frs seen !! L = Some o.
Proof.
  induction frs as [|fr rest IH]; intros seen L o H; [done|].
  cbn. apply IH. by apply seenAfter_mono.
Qed.

Lemma seenAfter_None origin ks seen L :
  seenAfter origin ks seen !! L = None <->
  seen !! L = None /\ L ∉ linesOf ks.
Proof.
  rewrite lookup_seenAfter. case_decide as Hin.
  - apply elem_of_newKeys in Hin as [? ?]. split; [done|]. by intros [_ ?].
  - rewrite elem_of_newKeys in Hin. split; [|by intros [? _]].
    intros H. split; [done|]. intros ?. by apply Hin.
Qed.

Lemma seenAfterSources_None frs : forall seen L,
  seenAfterSources frs seen !! L = None <->
  seen !! L = None /\ forall fr, fr ∈ frs -> L ∉ remoteLines fr.
Proof.
  induction frs as [|fr rest IH]; intros seen L; cbn.
  - split; [|by intros [? _]]. intros H. split; [done|].
    by intros fr ?%not_elem_of_nil.
  - rewrite IH, seenAfter_None. fold (remoteLines fr). split.
    + intros [[? ?] Hrest]. split; [done|].
      intros fr' [->|?]%elem_of_cons; auto.
    + intros [? Hall]. split; [split; [done|]|].
      * apply Hall. by left.
      * intros fr' ?. apply Hall. by right.
Qed.

(** The provenance of a line after the sources: what it was before, or else
    the first source that has the line. *)
Lemma lookup_seenAfterSources frs : forall seen L,
  seenAfterSources frs seen !! L =
    match seen !! L with
    | Some o => Some o
    | None => firstRemote frs L
    end.
Proof.
  induction frs as [|fr rest IH]; intros seen L.
  - cbn. by destruct (seen !! L).
  - cbn [seenAfterSources]. rewrite IH, lookup_seenAfter.
    unfold firstRemote. cbn [list_find]. fold (remoteLines fr).
    destruct (seen !! L) as [o|] eqn:Hs.
    + rewrite decide_False; [done|]. rewrite elem_of_newKeys, Hs. by intros [_ ?].
    + destruct (decide (L ∈ remoteLines fr)) as [Hin|Hnin].
      * rewrite decide_True; [done|]. by apply elem_of_newKeys.
      * rewrite decide_False by (rewrite elem_of_newKeys; by intros [? _]).
        by destruct (list_find _ rest) as [[i fr']|].
Qed.

(** The keys kept for a source are its lines that no earlier source has and
    that were not seen before the sources. *)
Lemma keptPerSource_split before fr after : forall seen,
  keptPerSource (before ++ fr :: after) seen !! length before =
    Some (newKeys (originOf fr) (keyfetcher.Keys fr)
            (seenAfterSources before seen)).
Proof.
  induction before as [|fr0 before IH]; intros seen; [done|].
  cbn. apply IH.
Qed.

Lemma keptPerSource_length frs : forall seen,
  length (keptPerSource frs seen) = length frs.
Proof.
  induction frs as [|fr rest IH]; intros seen; [done|]. cbn. by rewrite IH.
Qed.

Lemma elem_of_keptPerSource frs seen : forall L,
  L ∈ mjoin (keptPerSource frs seen) <->
  seen !! L = None /\ exists fr, fr ∈ frs /\ L ∈ remoteLines fr.
Proof.
  revert seen. induction frs as [|fr rest IH]; intros seen L.
  - cbn. split; [by intros ?%not_elem_of_nil|].
    by intros (_ & fr & ?%not_elem_of_nil & _).
  - cbn [keptPerSource]. rewrite mjoin_cons, elem_of_app, elem_of_newKeys, IH.
    rewrite seenAfter_None. fold (remoteLines fr). split.
    + intros [[? ?]|[[? ?] (fr' & ? & ?)]].
      * split; [done|]. exists fr. split; [by left|done].
      * split; [done|]. exists fr'. split; [by right|done].
    + intros (? & fr' & [->|?]%elem_of_cons & ?); [by left|].
      destruct (decide (L ∈ remoteLines fr)); [by left|].
      right. split; [done|]. by exists fr'.
Qed.

Lemma NoDup_keptPerSource frs : forall seen,
  NoDup (mjoin (keptPerSource frs seen)).
Proof.
  induction frs as [|fr rest IH]; intros seen; [constructor|].
  cbn [keptPerSource]. rewrite mjoin_cons. apply NoDup_app.
  split; [apply NoDup_newKeys|]. split; [|apply IH].
  intros L Hin Hin2. apply elem_of_keptPerSource in Hin2 as [Hnone _].
  rewrite lookup_seenAfter, decide_True in Hnone; done.
Qed.

End DedupSources.

(** ** Trimming *)

Section Trimming.
Import gostrings.

Lemma HasPrefix_spec p : forall s,
  HasPrefix s p = true <-> exists k, s = p ++ k.
Proof.
  induction p as [|c p IH]; intros s; cbn.
  - split; [eauto|done].
  - destruct s as [|d s].
    + split; [done|]. by intros [k [=]].
    + rewrite andb_true_iff, IH. split.
      * intros [->%Ascii.eqb_eq [k ->]]. eauto.
      * intros [k [= -> ->]]. split; [apply Ascii.eqb_refl|eauto].
Qed.

Section Table.
Variable table : list gostring.
Hypothesis table_nonempty : Forall (fun w => w <> []) table.

Lemma cut_Some s s' :
  cut table s = Some s' -> exists w, w ∈ table /\ w <> [] /\ s = w ++ s'.
Proof.
  unfold cut. destruct (List.find (HasPrefix s) table) as [w|] eqn:Hf; [|done].
  intros [= <-]. apply List.find_some in Hf as [Hin Hp].
  apply list_elem_of_In in Hin. apply HasPrefix_spec in Hp as [k ->].
  exists w. split; [done|]. split.
  - by eapply Forall_forall in table_nonempty.
  - by rewrite drop_app_length.
Qed.

Lemma cut_None s w k :
  cut table s = None -> w ∈ table -> s <> w ++ k.
Proof.
  unfold cut. destruct (List.find (HasPrefix s) table) as [w'|] eqn:Hf; [done|].
  intros _ Hin ->. apply list_elem_of_In in Hin.
  pose proof (List.find_none _ _ Hf w Hin) as Hp.
  assert (HasPrefix (w ++ k) w = true) as Ht by (apply HasPrefix_spec; eauto).
  congruence.
Qed.

(** What is cut off the front. *)
Lemma trimN_suffix n : forall s, exists a, s = a ++ trimN table n s.
Proof.
  induction n as [|n IH]; intros s; cbn; [by exists []|].
  destruct (cut table s) as [s'|] eqn:Hc; [|by exists []].
  apply cut_Some in Hc as (w & _ & _ & ->).
  destruct (IH s') as [a Ha]. exists (w ++ a). by rewrite <- app_assoc, <- Ha.
Qed.

(** With enough fuel nothing is left to cut. *)
Lemma trimN_done n : forall s,
  length s <= n -> cut table (trimN table n s) = None.
Proof.
  induction n as [|n IH]; intros s Hlen; cbn.
  - destruct s; [|cbn in Hlen; lia].
    destruct (cut table []) as [s'|] eqn:Hc; [|done].
    apply cut_Some in Hc as (w & _ & Hw & Hs). by destruct w.
  - destruct (cut table s) as [s'|] eqn:Hc; [|done].
    apply IH. apply cut_Some in Hc as (w & _ & Hw & ->).
    rewrite length_app in Hlen. destruct w; [done|]. cbn in Hlen. lia.
Qed.

Lemma trimN_fixed n s : cut table s = None -> trimN table n s = s.
Proof. intros H. destruct n; cbn; [done|]. by rewrite H. Qed.

(** A text that ends with a byte of no white-space rune keeps it. *)
Lemma trimN_keeps_last n c : forall x,
  Forall (fun w => c ∉ w) table ->
  exists x', trimN table n (x ++ [c]) = x' ++ [c].
Proof.
  induction n as [|n IH]; intros x Hc; cbn; [eauto|].
  destruct (cut table (x ++ [c])) as [s'|] eqn:Hcut; [|eauto].
  apply cut_Some in Hcut as (w & Hw & _ & Heq).
  eapply Forall_forall in Hc as Hcw; [|exact Hw].
  destruct (decide (s' = [])) as [->|Hne].
  - rewrite app_nil_r in Heq. subst w. exfalso. apply Hcw.
    apply elem_of_app. right. by left.
  - destruct (exists_last Hne) as (s'' & c' & ->).
    rewrite app_assoc in Heq. apply app_inj_tail in Heq as [_ <-].
    by apply IH.
Qed.

End Table.

Lemma whiteSpace_nonempty : Forall (fun w => w <> []) whiteSpace.
Proof. repeat constructor; done. Qed.

Lemma whiteSpaceRev_nonempty : Forall (fun w => w <> []) whiteSpaceRev.
Proof. repeat constructor; done. Qed.

(** [TrimSpace] returns a part of its argument. *)
Lemma TrimSpace_infix s : exists a b, s = a ++ TrimSpace s ++ b.
Proof.
  unfold TrimSpace, TrimRightSpace, TrimLeftSpace.
  destruct (trimN_suffix whiteSpace whiteSpace_nonempty (length s) s) as [a Ha].
  set (u := trimN whiteSpace (length s) s) in *.
  destruct (trimN_suffix whiteSpaceRev whiteSpaceRev_nonempty (length u) (rev u))
    as [b Hb].
  exists a, (rev b). rewrite <- rev_app_distr, <- Hb, rev_involutive. exact Ha.
Qed.

Lemma TrimSpace_elem_of s c : c ∈ TrimSpace s -> c ∈ s.
Proof.
  intros H. destruct (TrimSpace_infix s) as (a & b & Hs). rewrite Hs.
  rewrite !elem_of_app. auto.
Qed.

Lemma TrimSpace_length s : length (TrimSpace s) <= length s.
Proof.
  destruct (TrimSpace_infix s) as (a & b & Hs).
  rewrite Hs at 2. rewrite !length_app. lia.
Qed.

(** Nothing is left to trim at either end of a trimmed text. *)
Lemma TrimSpace_trimmed s :
  cut whiteSpace (TrimSpace s) = None /\
  cut whiteSpaceRev (rev (TrimSpace s)) = None.
Proof.
  unfold TrimSpace, TrimRightSpace, TrimLeftSpace.
  set (u := trimN whiteSpace (length s) s).
  assert (cut whiteSpace u = None) as Hu
    by (by apply (trimN_done _ whiteSpace_nonempty)).
  assert (cut whiteSpaceRev (trimN whiteSpaceRev (length u) (rev u)) = None) as Hr.
  { apply (trimN_done _ whiteSpaceRev_nonempty). by rewrite length_rev. }
  split; [|by rewrite rev_involutive].
  destruct (trimN_suffix whiteSpaceRev whiteSpaceRev_nonempty (length u) (rev u))
    as [b Hb].
  set (t := trimN whiteSpaceRev (length u) (rev u)) in *.
  assert (u = rev t ++ rev b) as Hut.
  { by rewrite <- rev_app_distr, <- Hb, rev_involutive. }
  destruct (cut whiteSpace (rev t)) as [t'|] eqn:Hc; [|done].
  apply (cut_Some _ whiteSpace_nonempty) in Hc as (w & Hw & _ & Hrt).
  exfalso. apply (cut_None whiteSpace u w (t' ++ rev b) Hu Hw).
  by rewrite Hut, Hrt, <- app_assoc.
Qed.

Lemma TrimSpace_fixed t :
  cut whiteSpace t = None -> cut whiteSpaceRev (rev t) = None ->
  TrimSpace t = t.
Proof.
  intros Hl Hr. unfold TrimSpace, TrimRightSpace, TrimLeftSpace.
  rewrite (trimN_fixed whiteSpace _ _ Hl), (trimN_fixed whiteSpaceRev _ _ Hr).
  apply rev_involutive.
Qed.

(** [TrimSpace] is idempotent. *)
Lemma TrimSpace_idemp s : TrimSpace (TrimSpace s) = TrimSpace s.
Proof. destruct (TrimSpace_trimmed s). by apply TrimSpace_fixed. Qed.

(** A trimmed text does not end with a carriage return. *)
Lemma dropCR_fixed t :
  cut whiteSpaceRev (rev t) = None -> dropCR t = t.
Proof.
  intros Hr. induction t as [|c t IH]; [done|].
  destruct t as [|d t].
  - cbn. destruct (Ascii.eqb_spec c carriageReturn) as [->|_]; [|done].
    by vm_compute in Hr.
  - change (dropCR (c :: d :: t)) with (c :: dropCR (d :: t)). f_equal.
    apply IH. destruct (cut whiteSpaceRev (rev (d :: t))) as [t'|] eqn:Hc; [|done].
    apply (cut_Some _ whiteSpaceRev_nonempty) in Hc as (w & Hw & _ & Heq).
    exfalso. apply (cut_None whiteSpaceRev _ w (t' ++ [c]) Hr Hw).
    change (rev (c :: d :: t)) with (rev (d :: t) ++ [c]).
    by rewrite Heq, <- app_assoc.
Qed.

Lemma dropCR_TrimSpace s : dropCR (TrimSpace s) = TrimSpace s.
Proof. apply dropCR_fixed, TrimSpace_trimmed. Qed.

Lemma dropCR_prefix l : exists b, l = dropCR l ++ b.
Proof.
  induction l as [|c l [b IH]]; [by exists []|].
  destruct l as [|d l].
  - cbn. destruct (Ascii.eqb c carriageReturn); [by exists [c]|by exists []].
  - change (dropCR (c :: d :: l)) with (c :: dropCR (d :: l)).
    exists b. cbn [app]. by rewrite <- IH.
Qed.

Lemma dropCR_length l : length (dropCR l) <= length l.
Proof.
  destruct (dropCR_prefix l) as [b Hb]. rewrite Hb at 2.
  rewrite length_app. lia.
Qed.

Lemma dropCR_elem_of l c : c ∈ dropCR l -> c ∈ l.
Proof.
  destruct (dropCR_prefix l) as [b Hb]. rewrite Hb at 2.
  rewrite elem_of_app. auto.
Qed.

(** A comment line stays a comment line: the number sign is a byte of no
    white-space rune. *)
Lemma TrimSpace_comment rest :
  exists rest', TrimSpace ("#"%char :: rest) = "#"%char :: rest'.
Proof.
  unfold TrimSpace, TrimRightSpace.
  assert (TrimLeftSpace ("#"%char :: rest) = "#"%char :: rest) as ->.
  { unfold TrimLeftSpace. by apply trimN_fixed. }
  change (rev ("#"%char :: rest)) with (rev rest ++ ["#"%char]).
  destruct (trimN_keeps_last whiteSpaceRev whiteSpaceRev_nonempty
              (length ("#"%char :: rest)) "#"%char (rev rest)) as [x' ->].
  - apply Forall_forall. intros w Hw.
    apply (bool_decide_unpack _).
    revert w Hw. apply Forall_forall. vm_compute. repeat constructor.
  - exists (rev x'). by rewrite rev_app_distr.
Qed.

Lemma dropCR_comment rest :
  exists rest', dropCR ("#"%char :: rest) = "#"%char :: rest'.
Proof.
  destruct rest as [|d rest]; [by exists []|].
  exists (dropCR (d :: rest)). done.
Qed.

End Trimming.

(** ** The rendering of the file *)

Section Rendering.
Import sync gostrings.

Lemma writeKeys_spec ks : forall builder count,
  writeKeys ks builder count =
    (builder ++ renderKeys ks, (count + Z.of_nat (length ks))%Z).
Proof.
  induction ks as [|k ks IH]; intros builder count.
  - cbn. by rewrite app_nil_r, Z.add_0_r.
  - cbn [writeKeys]. rewrite IH. unfold renderKeys.
    rewrite fmap_cons, mjoin_cons, <- !app_assoc. f_equal. cbn [length]. lia.
Qed.

Lemma writeSources_spec sources : forall builder count,
  writeSources sources builder count =
    (builder ++ mjoin (renderSource <$> sources),
     (count + Z.of_nat (length (sources ≫= keys)))%Z).
Proof.
  induction sources as [|src rest IH]; intros builder count.
  - cbn. by rewrite app_nil_r, Z.add_0_r.
  - cbn [writeSources]. rewrite writeKeys_spec, IH.
    rewrite fmap_cons, mjoin_cons. unfold renderSource at 2.
    rewrite <- !app_assoc. f_equal.
    change ((src :: rest) ≫= keys) with (keys src ++ (rest ≫= keys)).
    rewrite length_app. lia.
Qed.

(** The keys of the sections are the kept keys: only empty sections are
    left out. *)
Lemma sectionsOf_keys frs : forall kept,
  length kept = length frs ->
  sectionsOf frs kept ≫= keys = mjoin kept.
Proof.
  induction frs as [|fr rest IH]; intros [|ks kept] Hlen; try done.
  unfold sectionsOf. cbn [zip_with]. rewrite mjoin_cons.
  fold (sectionsOf rest kept). rewrite bind_app, IH by (cbn in Hlen; lia).
  rewrite mjoin_cons. f_equal.
  destruct ks; [done|]. cbn. by rewrite app_nil_r.
Qed.

Lemma buildContent_spec s env d frs :
  let kept := keptPerSource frs ∅ in
  let seen := seenAfterSources frs ∅ in
  let localKeys := newKeys Local (localParsed s env d) seen in
  buildContent s env d frs =
    (render (build s) (gotime.FormatISO (world.buildTime env))
       (sectionsOf frs kept) localKeys,
     {| TotalKeys := Z.of_nat (length (mjoin kept ++ localKeys));
        LocalKeysCount := Z.of_nat (length localKeys);
        Duplicates :=
          duplicatesOfSources frs ∅ ++
          newDuplicates Local (localParsed s env d) seen |}).
Proof.
  intros kept seen localKeys. unfold buildContent.
  rewrite dedupSources_spec, dedupLocal_spec. cbn [app].
  rewrite writeSources_spec. fold kept seen localKeys.
  rewrite sectionsOf_keys by apply keptPerSource_length.
  unfold render, renderLocal. rewrite length_app.
  destruct localKeys as [|k ks] eqn:Hk.
  - rewrite app_nil_r. f_equal. f_equal. cbn [length]. lia.
  - rewrite writeKeys_spec. f_equal; [by rewrite <- !app_assoc|].
    f_equal; lia.
Qed.

Lemma rule_ruleText : rule = ruleText ++ nl.
Proof. reflexivity. Qed.

Lemma renderSource_lines src :
  renderSource src = mjoin ((fun l => l ++ nl) <$> sectionLines src).
Proof.
  unfold renderSource, sectionLines, renderKeys.
  rewrite !fmap_cons, !mjoin_cons. cbn [app]. by rewrite <- !app_assoc.
Qed.

Lemma renderLocal_lines ks :
  renderLocal ks = mjoin ((fun l => l ++ nl) <$> localSectionLines ks).
Proof.
  unfold renderLocal, localSectionLines, renderKeys. destruct ks as [|k ks]; [done|].
  rewrite (fmap_cons _ []), mjoin_cons, (fmap_cons _ (str _)), mjoin_cons.
  cbn [app]. by rewrite <- !app_assoc.
Qed.

(** The file is its lines, each with a newline. *)
Lemma render_lines v timestamp sources localKeys :
  render v timestamp sources localKeys =
    mjoin ((fun l => l ++ nl) <$> fileLines v timestamp sources localKeys).
Proof.
  unfold render, fileLines. rewrite !fmap_app, !join_app.
  assert (header v timestamp =
          mjoin ((fun l => l ++ nl) <$> headerLines v timestamp)) as ->.
  { unfold header, headerLines. rewrite rule_ruleText.
    rewrite !fmap_cons, !mjoin_cons, fmap_nil. cbn [mjoin list_join].
    by rewrite <- !app_assoc, app_nil_r. }
  assert (mjoin (renderSource <$> sources) =
          mjoin ((fun l => l ++ nl) <$> sources ≫= sectionLines)) as ->.
  { induction sources as [|src rest IH]; [done|].
    rewrite fmap_cons, mjoin_cons, IH, renderSource_lines.
    change ((src :: rest) ≫= sectionLines)
      with (sectionLines src ++ (rest ≫= sectionLines)).
    by rewrite fmap_app, join_app. }
  by rewrite renderLocal_lines.
Qed.

Lemma digitChar_not_newline d : gotime.digitChar d <> newline.
Proof.
  unfold gotime.digitChar.
  assert (0 <= d mod 10 < 10)%Z as H by (apply Z.mod_pos_bound; lia).
  assert (d mod 10 = 0 \/ d mod 10 = 1 \/ d mod 10 = 2 \/ d mod 10 = 3 \/
          d mod 10 = 4 \/ d mod 10 = 5 \/ d mod 10 = 6 \/ d mod 10 = 7 \/
          d mod 10 = 8 \/ d mod 10 = 9)%Z as Hd by lia.
  repeat destruct Hd as [->|Hd]; try rewrite Hd; done.
Qed.

Lemma decimal_no_newline width : forall n, newline ∉ gotime.decimal width n.
Proof.
  induction width as [|w IH]; intros n; cbn.
  - apply not_elem_of_nil.
  - rewrite elem_of_app, list_elem_of_singleton. intros [H|H].
    + by apply (IH (n / 10)%Z).
    + by apply (digitChar_not_newline n).
Qed.

Lemma FormatISO_no_newline t : newline ∉ gotime.FormatISO t.
Proof.
  unfold gotime.FormatISO.
  rewrite !not_elem_of_app. repeat split; try apply decimal_no_newline.
  all: apply (bool_decide_unpack _); vm_compute; exact I.
Qed.

End Rendering.

(** ** The lines of the generated file *)

Section FileLines.
Import sync gostrings.

Lemma splitLines_no_newline data :
  Forall (fun l => newline ∉ l) (splitLines data).
Proof.
  induction data as [|c rest IH]; cbn [splitLines]; [constructor|].
  destruct (Ascii.eqb_spec c newline) as [Heq|Hc].
  - constructor; [apply not_elem_of_nil|done].
  - destruct (splitLines rest) as [|l ls].
    + repeat constructor. intros H%list_elem_of_singleton. congruence.
    + apply Forall_cons in IH as [Hl Hls]. constructor; [|done].
      intros [H|?]%elem_of_cons; [congruence|done].
Qed.

Lemma keyLine_shape k :
  keyparser.isValidKey k = true ->
  exists c rest, k = c :: rest /\ c <> "#"%char.
Proof.
  destruct k as [|c rest]; [done|]. rewrite isValidKey_cons.
  destruct (Ascii.eqb_spec c "#"); [done|]. eauto.
Qed.

(** The keys the parser hands out are key lines. *)
Lemma elem_of_keptFrom_keyLine texts n k :
  Forall (fun l => newline ∉ l) texts ->
  k ∈ keptFrom n texts -> keyLine (keyparser.Line k).
Proof.
  intros Hnl (i & text & Hi & Hv & ->)%elem_of_keptFrom. cbn. split; [|done].
  intros Hin%TrimSpace_elem_of.
  eapply Forall_forall in Hnl; [by apply Hnl|].
  by eapply list_elem_of_lookup_2.
Qed.

Lemma lineTexts_no_newline data :
  Forall (fun l => newline ∉ l) (lineTexts data).
Proof.
  unfold lineTexts. apply Forall_fmap, Forall_forall. intros l Hl. cbn.
  intros Hin%dropCR_elem_of.
  pose proof (splitLines_no_newline data) as H.
  eapply Forall_forall in H; [by apply H|done].
Qed.

Lemma Parse_keys_keyLine r res :
  keyparser.Parse r = Ok res ->
  Forall keyLine (linesOf (keyparser.Keys res)).
Proof.
  intros Hres.
  assert (res = parsed (data r)) as ->.
  { destruct (decide (Exists tooLong (splitLines (data r)))) as [Hl|Hs].
    { by rewrite (Parse_too_long r Hl) in Hres. }
    apply not_Exists_Forall in Hs; [|apply _].
    destruct (readErr r) as [e|] eqn:Herr.
    { destruct (Parse_read_error r e Herr) as [e' He']. congruence. }
    rewrite (Parse_ok r Herr Hs) in Hres. congruence. }
  unfold linesOf. apply Forall_fmap, Forall_forall. intros k Hk. cbn.
  eapply elem_of_keptFrom_keyLine; [apply lineTexts_no_newline|exact Hk].
Qed.

Lemma localParsed_keyLine s env d :
  Forall keyLine (linesOf (localParsed s env d)).
Proof.
  unfold localParsed.
  destruct (config.IsPreserveLocalKeys _); [|constructor].
  destruct (sshfile.ReadContent env d) as [[|c content]|e]; try constructor.
  destruct (keyparser.ParseString (c :: content)) as [pr|e] eqn:Hp;
    [|constructor].
  by eapply Parse_keys_keyLine.
Qed.

Lemma headerLines_comments v timestamp :
  Forall (fun l => exists rest, l = "#"%char :: rest) (headerLines v timestamp).
Proof. unfold headerLines. repeat constructor; by eexists. Qed.

Lemma headerLines_no_newline v timestamp :
  oneLineInfo v -> newline ∉ timestamp ->
  Forall (fun l => newline ∉ l) (headerLines v timestamp).
Proof.
  intros (Hv & Hc & Hd) Ht. unfold headerLines.
  repeat constructor; try (apply (bool_decide_unpack _); vm_compute; exact I).
  all: rewrite not_elem_of_app; split; [|done].
  all: apply (bool_decide_unpack _); vm_compute; exact I.
Qed.

(** The lines of the file that are a given key line are among the keys. *)
Lemma filter_fileLines L v timestamp sources localKeys :
  keyparser.isValidKey L = true ->
  filter (L =.) (fileLines v timestamp sources localKeys) =
  filter (L =.) ((sources ≫= keys) ++ localKeys).
Proof.
  intros (c & rest & -> & Hc)%keyLine_shape. unfold fileLines.
  rewrite !filter_app.
  assert (filter (eq (c :: rest)) (headerLines v timestamp) = []) as ->.
  { apply filter_nil_not_Exists. rewrite Exists_exists.
    intros (l & Hl & <-).
    pose proof (headerLines_comments v timestamp) as H.
    eapply Forall_forall in H as [rest' [=]]; [|exact Hl]. congruence. }
  cbn [app]. f_equal.
  - induction sources as [|src rest' IH]; [done|].
    change ((src :: rest') ≫= sectionLines)
      with (sectionLines src ++ (rest' ≫= sectionLines)).
    change ((src :: rest') ≫= keys) with (keys src ++ (rest' ≫= keys)).
    rewrite !filter_app, IH. f_equal. unfold sectionLines.
    rewrite !filter_cons. rewrite !decide_False; [done| |done].
    intros [=]. done.
  - unfold localSectionLines. destruct localKeys as [|k ks]; [done|].
    rewrite !(filter_cons _ []), decide_False by done.
    rewrite (filter_cons _ (str _)), decide_False; [done|].
    intros [=]. done.
Qed.

Lemma filter_eq_NoDup {A} `{EqDecision A} (x : A) l :
  NoDup l -> x ∈ l -> length (filter (x =.) l) = 1.
Proof.
  induction 1 as [|y l Hy Hnd IH]; [by intros ?%not_elem_of_nil|].
  rewrite filter_cons. intros [->|Hin]%elem_of_cons.
  - rewrite decide_True by done. cbn. f_equal.
    replace (filter (eq y) l) with (@nil A); [done|].
    symmetry. apply filter_nil_not_Exists. rewrite Exists_exists.
    by intros (z & Hz & <-).
  - rewrite decide_False by (by intros <-). by apply IH.
Qed.

Lemma fileLines_no_newline v timestamp frs kept localKeys :
  oneLineInfo v -> newline ∉ timestamp ->
  Forall (fun fr => newline ∉ originOf fr) frs ->
  Forall (fun k => newline ∉ k) (mjoin kept) ->
  Forall (fun k => newline ∉ k) localKeys ->
  length kept = length frs ->
  Forall (fun l => newline ∉ l) (fileLines v timestamp (sectionsOf frs kept) localKeys).
Proof.
  intros Hv Ht Hfrs Hkept Hlocal Hlen. unfold fileLines.
  rewrite !Forall_app. split; [by apply headerLines_no_newline|]. split.
  - clear Hlocal. revert kept Hkept Hlen.
    induction Hfrs as [|fr rest Hfr _ IH]; intros [|ks kept] Hkept Hlen;
      try constructor.
    unfold sectionsOf. cbn [zip_with]. rewrite mjoin_cons.
    fold (sectionsOf rest kept). rewrite bind_app, Forall_app.
    rewrite mjoin_cons, Forall_app in Hkept. destruct Hkept as [Hks Hkept].
    split; [|apply IH; [done|cbn in Hlen; lia]].
    destruct ks as [|k ks]; [constructor|]. unfold sectionOf.
    change ([?x] ≫= sectionLines) with (sectionLines x ++ []).
    rewrite app_nil_r. unfold sectionLines. cbn [url keys].
    constructor; [apply not_elem_of_nil|].
    constructor; [|done].
    rewrite not_elem_of_app. split; [|done].
    apply (bool_decide_unpack _); vm_compute; exact I.
  - unfold localSectionLines. destruct localKeys as [|k ks]; [constructor|].
    constructor; [apply not_elem_of_nil|]. constructor; [|done].
    apply (bool_decide_unpack _); vm_compute; exact I.
Qed.

End FileLines.

(** ** Claim C2: one line per key, credited to its first origin *)

Section FirstOrigin.
Import sync gostrings.

Lemma duplicatesOfSources_count frs : forall seen L,
  length (filter (fun e => Key e = L) (duplicatesOfSources frs seen)) +
  length (filter (L =.) (mjoin (keptPerSource frs seen))) =
  length (filter (L =.) (frs ≫= remoteLines)).
Proof.
  induction frs as [|fr rest IH]; intros seen L; [done|].
  cbn [duplicatesOfSources keptPerSource].
  change ((fr :: rest) ≫= remoteLines) with (remoteLines fr ++ (rest ≫= remoteLines)).
  rewrite mjoin_cons, !filter_app, !length_app.
  pose proof (newDuplicates_count (originOf fr) (keyfetcher.Keys fr) seen L) as H1.
  specialize (IH (seenAfter (originOf fr) (keyfetcher.Keys fr) seen) L).
  unfold remoteLines at 1. lia.
Qed.

Lemma duplicatesOfSources_first frs : forall seen e,
  e ∈ duplicatesOfSources frs seen ->
  seenAfterSources frs seen !! Key e = Some (FirstSource e).
Proof.
  induction frs as [|fr rest IH]; intros seen e He.
  - by apply not_elem_of_nil in He.
  - cbn [duplicatesOfSources] in He. cbn [seenAfterSources].
    apply elem_of_app in He as [He|He]; [|by apply IH].
    apply seenAfterSources_mono.
    by apply newDuplicates_first in He as (_ & _ & ?).
Qed.

Lemma elem_of_remote_bind frs L :
  L ∈ frs ≫= remoteLines <-> exists fr, fr ∈ frs /\ L ∈ remoteLines fr.
Proof.
  rewrite list_elem_of_bind. naive_solver.
Qed.

(** The keys of the file: each line of an origin, once. *)
Lemma NoDup_file_keys s env d frs :
  NoDup (mjoin (keptPerSource frs ∅) ++
         newKeys Local (localParsed s env d) (seenAfterSources frs ∅)).
Proof.
  apply NoDup_app. split; [apply NoDup_keptPerSource|].
  split; [|apply NoDup_newKeys].
  intros L [_ (fr & Hfr & HL)]%elem_of_keptPerSource [_ Hnone]%elem_of_newKeys.
  apply seenAfterSources_None in Hnone as [_ Hnone]. by apply (Hnone fr).
Qed.

Lemma elem_of_file_keys s env d frs L :
  L ∈ (frs ≫= remoteLines) ++ linesOf (localParsed s env d) ->
  L ∈ mjoin (keptPerSource frs ∅) ++
      newKeys Local (localParsed s env d) (seenAfterSources frs ∅).
Proof.
  rewrite !elem_of_app, elem_of_remote_bind, elem_of_keptPerSource, elem_of_newKeys.
  rewrite seenAfterSources_None, lookup_empty.
  intros [Hr|Hl]; [by left|].
  destruct (decide (Exists (fun fr => L ∈ remoteLines fr) frs)) as [He|Hn].
  - apply Exists_exists in He. by left.
  - right. split; [done|]. split; [done|].
    intros fr Hfr HL. apply Hn, Exists_exists. eauto.
Qed.

End FirstOrigin.

(** C2.  Let the keys of the fetch results be key lines as the parser hands
    them out, and let the URLs and the build metadata hold no newline.  The
    built content is the header, one section per source with a kept key, in
    the order of the sources, and the local section; its lines are these
    lines.  The keys of the file are pairwise distinct, and a line [L] of
    some source or of the local file is a line of the content exactly once.
    [L] is kept for a source [A] exactly when [A] has it and no source before
    [A] has; it is under the local section exactly when the local file has it
    and no source has.  The duplicate events for [L] are as many as its
    occurrences but one, and each names the first origin of [L]: the first
    source that has it, or the local file when no source has. *)
Theorem C2_first_origin_wins :
  forall s env d frs L,
    Forall (fun fr => Forall keyLine (remoteLines fr)) frs ->
    Forall (fun fr => gostrings.newline ∉ originOf fr) frs ->
    oneLineInfo (sync.build s) ->
    let timestamp := gotime.FormatISO (world.buildTime env) in
    let local := linesOf (localParsed s env d) in
    let kept := keptPerSource frs ∅ in
    let localKeys :=
      newKeys sync.Local (localParsed s env d) (seenAfterSources frs ∅) in
    let content := (sync.buildContent s env d frs).1 in
    let stats := (sync.buildContent s env d frs).2 in
    let occurrences := (frs ≫= remoteLines) ++ local in
    content = render (sync.build s) timestamp (sectionsOf frs kept) localKeys /\
    gostrings.splitLines content =
      fileLines (sync.build s) timestamp (sectionsOf frs kept) localKeys /\
    NoDup (mjoin kept ++ localKeys) /\
    (L ∈ occurrences ->
       length (filter (L =.) (gostrings.splitLines content)) = 1) /\
    (forall before A after kA,
       frs = before ++ A :: after ->
       kept !! length before = Some kA ->
       (L ∈ kA <->
        L ∈ remoteLines A /\ forall B, B ∈ before -> L ∉ remoteLines B)) /\
    (L ∈ localKeys <->
     L ∈ local /\ forall A, A ∈ frs -> L ∉ remoteLines A) /\
    (L ∈ occurrences ->
       length (filter (fun e => sync.Key e = L) (sync.Duplicates stats)) + 1 =
       length (filter (L =.) occurrences)) /\
    (forall e, e ∈ sync.Duplicates stats -> sync.Key e = L ->
       sync.FirstSource e = default sync.Local (firstRemote frs L)).
Proof.
  intros s env d frs L Hkeys Hurls Hinfo timestamp local kept localKeys
    content stats occurrences.
  pose proof (buildContent_spec s env d frs) as Hspec. cbn zeta in Hspec.
  fold timestamp kept localKeys in Hspec.
  assert (content = render (sync.build s) timestamp (sectionsOf frs kept) localKeys)
    as Hcontent by (subst content; by rewrite Hspec).
  assert (sync.Duplicates stats =
          duplicatesOfSources frs ∅ ++
          newDuplicates sync.Local (localParsed s env d) (seenAfterSources frs ∅))
    as Hdups by (subst stats; by rewrite Hspec).
  pose proof (NoDup_file_keys s env d frs) as Hnd. fold kept localKeys in Hnd.
  pose proof (localParsed_keyLine s env d) as Hlocal. fold local in Hlocal.
  assert (Forall keyLine occurrences) as Hocc.
  { subst occurrences. apply Forall_app. split; [|done].
    apply Forall_forall. intros k (fr & Hfr & Hk)%elem_of_remote_bind.
    eapply Forall_forall in Hkeys; [|exact Hfr].
    by eapply Forall_forall in Hkeys. }
  assert (forall k, k ∈ mjoin kept ++ localKeys -> k ∈ occurrences) as Hsub.
  { intros k. subst occurrences kept localKeys.
    rewrite !elem_of_app, elem_of_keptPerSource, elem_of_newKeys, elem_of_remote_bind.
    intros [[_ ?]|[? _]]; auto. }
  assert (gostrings.splitLines content =
          fileLines (sync.build s) timestamp (sectionsOf frs kept) localKeys)
    as Hlines.
  { rewrite Hcontent, render_lines. apply splitLines_terminated.
    apply fileLines_no_newline; try done.
    - apply FormatISO_no_newline.
    - apply Forall_forall. intros k Hk.
      assert (keyLine k) as [? _]; [|done].
      eapply Forall_forall; [exact Hocc|]. apply Hsub, elem_of_app. by left.
    - apply Forall_forall. intros k Hk.
      assert (keyLine k) as [? _]; [|done].
      eapply Forall_forall; [exact Hocc|]. apply Hsub, elem_of_app. by right.
    - apply keptPerSource_length. }
  assert (L ∈ occurrences -> length (filter (L =.) (mjoin kept ++ localKeys)) = 1)
    as Hone.
  { intros HL. apply filter_eq_NoDup; [done|]. by apply elem_of_file_keys. }
  split; [exact Hcontent|]. split; [exact Hlines|]. split; [exact Hnd|].
  split.
  { intros HL. rewrite Hlines, filter_fileLines.
    - rewrite sectionsOf_keys by apply keptPerSource_length. by apply Hone.
    - eapply Forall_forall in Hocc as [_ ?]; [done|exact HL]. }
  split.
  { intros before A after kA -> HkA. subst kept.
    rewrite keptPerSource_split in HkA. injection HkA as <-.
    rewrite elem_of_newKeys, seenAfterSources_None, lookup_empty.
    fold (remoteLines A). naive_solver. }
  split.
  { subst localKeys. rewrite elem_of_newKeys, seenAfterSources_None, lookup_empty.
    fold local. naive_solver. }
  split.
  { intros HL. rewrite Hdups, filter_app, length_app.
    pose proof (duplicatesOfSources_count frs ∅ L) as H1.
    pose proof (newDuplicates_count sync.Local (localParsed s env d)
                  (seenAfterSources frs ∅) L) as H2.
    specialize (Hone HL). rewrite filter_app, length_app in Hone.
    subst occurrences. rewrite filter_app, length_app.
    fold kept in H1. fold localKeys in H2. fold local in H2. lia. }
  intros e He <-. rewrite Hdups in He.
  pose proof (lookup_seenAfterSources frs ∅ (sync.Key e)) as Hseen.
  rewrite lookup_empty in Hseen.
  apply elem_of_app in He as [He|He].
  - apply duplicatesOfSources_first in He. rewrite Hseen in He.
    by rewrite He.
  - apply newDuplicates_first in He as (_ & _ & He).
    rewrite lookup_seenAfter in He. case_decide as Hin.
    + injection He as <-. apply elem_of_newKeys in Hin as [_ Hnone].
      rewrite Hseen in Hnone. by rewrite Hnone.
    + rewrite Hseen in He. by rewrite He.
Qed.

(** The keys of a fetch result are key lines. *)
Lemma Fetch_keys_keyLine done outcome source :
  Forall keyLine (remoteLines (keyfetcher.Fetch done outcome source)).
Proof.
  unfold keyfetcher.Fetch, remoteLines.
  destruct outcome as [e|e|status body]; try constructor.
  destruct done; [constructor|].
  destruct (negb _); [constructor|].
  destruct (keyfetcher.ReadAll _) as [bytes|e]; [|constructor].
  destruct (keyparser.ParseString bytes) as [pr|e] eqn:Hp; [|constructor].
  cbn. by eapply Parse_keys_keyLine.
Qed.

Lemma fetchFrom_keys_keyLine env w sources : forall i results,
  Forall (fun fr => Forall keyLine (remoteLines fr)) results ->
  Forall (fun fr => Forall keyLine (remoteLines fr))
    (keyfetcher.fetchFrom env w i sources results).1.
Proof.
  induction sources as [|source rest IH]; intros i results Hres; [done|].
  cbn. destruct (keyfetcher.Error _).
  - cbn. apply Forall_app. split; [done|].
    constructor; [apply Fetch_keys_keyLine|constructor].
  - apply IH. apply Forall_app. split; [done|].
    constructor; [apply Fetch_keys_keyLine|constructor].
Qed.

Lemma FetchAll_keys_keyLine env w sources :
  Forall (fun fr => Forall keyLine (remoteLines fr))
    (keyfetcher.FetchAll env w sources).1.
Proof. apply fetchFrom_keys_keyLine. constructor. Qed.

(** C2 for Alice: the key that her first source has twice and her second
    source once is one line of the file, and two duplicate events are
    recorded for it. *)
Lemma C2_witness :
  let s := example.syncer false in
  let env := example.calm example.noon in
  let built := sync.buildContent s env example.aliceDir example.fetchedAlice in
  length (filter (example.sharedKey =.) (gostrings.splitLines built.1)) = 1 /\
  length (filter (fun e => sync.Key e = example.sharedKey)
            (sync.Duplicates built.2)) = 2.
Proof.
  intros s env built.
  destruct (C2_first_origin_wins s env example.aliceDir example.fetchedAlice
              example.sharedKey)
    as (_ & _ & _ & Hone & _ & _ & Hdups & _).
  - apply FetchAll_keys_keyLine.
  - apply (bool_decide_unpack _). vm_compute. exact I.
  - repeat split; apply (bool_decide_unpack _); vm_compute; exact I.
  - assert (example.sharedKey ∈
            (example.fetchedAlice ≫= remoteLines) ++
            linesOf (localParsed s env example.aliceDir)) as Hin
      by (apply (bool_decide_unpack _); vm_compute; exact I).
    split; [exact (Hone Hin)|].
    specialize (Hdups Hin).
    assert (length (filter (example.sharedKey =.)
              ((example.fetchedAlice ≫= remoteLines) ++
               linesOf (localParsed s env example.aliceDir))) = 3) as Hthree
      by (vm_compute; reflexivity).
    rewrite Hthree in Hdups. fold built in Hdups. lia.
Defined.

Example buildContent_example :
  String.string_of_list_ascii
    (sync.buildContent (example.syncer false) (example.calm example.noon)
       example.aliceDir example.fetchedAlice).1 =
  "# ──────────────────────────────────────────────────────────────────
# Generated by AuthKeySync
# Version:   dev
# Commit:    none
# Built:     unknown
# Last sync: 2025-01-02T12:00:00Z
# More info: https://github.com/eduardolat/authkeysync
# ──────────────────────────────────────────────────────────────────

# Source: https://keys.example/a
ssh-ed25519 AAAA alice@laptop
ssh-rsa BBBB shared

# Source: https://keys.example/b
ssh-ed25519 CCCC alice@desk

# Local (preserved)
ssh-rsa OLD alice@old
"%string.
Proof. vm_compute. reflexivity. Qed.

(** ** Parsing the generated file again *)

Section Reparse.
Import sync gostrings.

Lemma Parse_ok_parsed r res :
  keyparser.Parse r = Ok res ->
  res = parsed (data r) /\ Forall (fun l => ~ tooLong l) (splitLines (data r)).
Proof.
  intros Hres.
  destruct (decide (Exists tooLong (splitLines (data r)))) as [Hl|Hs].
  { by rewrite (Parse_too_long r Hl) in Hres. }
  apply not_Exists_Forall in Hs; [|apply _].
  destruct (readErr r) as [e|] eqn:Herr.
  { destruct (Parse_read_error r e Herr) as [e' He']. congruence. }
  rewrite (Parse_ok r Herr Hs) in Hres. split; [congruence|done].
Qed.

(** The keys the parser hands out are clean. *)
Lemma Parse_keys_clean r res :
  keyparser.Parse r = Ok res ->
  Forall cleanKey (linesOf (keyparser.Keys res)).
Proof.
  intros [-> Hshort]%Parse_ok_parsed.
  unfold linesOf. apply Forall_fmap, Forall_forall. intros k Hk. cbn.
  apply elem_of_keptFrom in Hk as (i & text & Hi & Hv & ->). cbn.
  unfold lineTexts in Hi. apply list_lookup_fmap_Some in Hi as (l & -> & Hl).
  apply list_elem_of_lookup_2 in Hl.
  split; [done|]. split; [split|].
  - intros Hin%TrimSpace_elem_of%dropCR_elem_of.
    pose proof (splitLines_no_newline (data r)) as H.
    eapply Forall_forall in H; [by apply H|done].
  - eapply Forall_forall in Hshort; [|exact Hl].
    rewrite not_tooLong_length in *.
    pose proof (TrimSpace_length (dropCR l)). pose proof (dropCR_length l). lia.
  - by rewrite dropCR_TrimSpace, TrimSpace_idemp.
Qed.

Lemma Fetch_keys_clean done outcome source :
  Forall cleanKey (remoteLines (keyfetcher.Fetch done outcome source)).
Proof.
  unfold keyfetcher.Fetch, remoteLines.
  destruct outcome as [e|e|status body]; try constructor.
  destruct done; [constructor|].
  destruct (negb _); [constructor|].
  destruct (keyfetcher.ReadAll _) as [bytes|e]; [|constructor].
  destruct (keyparser.ParseString bytes) as [pr|e] eqn:Hp; [|constructor].
  cbn. by eapply Parse_keys_clean.
Qed.

Lemma fetchFrom_keys_clean env w sources : forall i results,
  Forall (fun fr => Forall cleanKey (remoteLines fr)) results ->
  Forall (fun fr => Forall cleanKey (remoteLines fr))
    (keyfetcher.fetchFrom env w i sources results).1.
Proof.
  induction sources as [|source rest IH]; intros i results Hres; [done|].
  cbn. destruct (keyfetcher.Error _).
  - cbn. apply Forall_app. split; [done|].
    constructor; [apply Fetch_keys_clean|constructor].
  - apply IH. apply Forall_app. split; [done|].
    constructor; [apply Fetch_keys_clean|constructor].
Qed.

Lemma FetchAll_keys_clean env w sources :
  Forall (fun fr => Forall cleanKey (remoteLines fr))
    (keyfetcher.FetchAll env w sources).1.
Proof. apply fetchFrom_keys_clean. constructor. Qed.

Lemma localParsed_clean s env d :
  Forall cleanKey (linesOf (localParsed s env d)).
Proof.
  unfold localParsed.
  destruct (config.IsPreserveLocalKeys _); [|constructor].
  destruct (sshfile.ReadContent env d) as [[|c content]|e]; try constructor.
  destruct (keyparser.ParseString (c :: content)) as [pr|e] eqn:Hp;
    [|constructor].
  by eapply Parse_keys_clean.
Qed.

Lemma keptFrom_app a : forall n b,
  keptFrom n (a ++ b) = keptFrom n a ++ keptFrom (n + Z.of_nat (length a)) b.
Proof.
  induction a as [|x a IH]; intros n b.
  - cbn. by rewrite Z.add_0_r.
  - cbn [app keptFrom length]. rewrite IH, <- app_assoc.
    do 3 f_equal. lia.
Qed.

(** Empty lines and comments hold no key. *)
Lemma keptFrom_commentOrEmpty ls : forall n,
  Forall commentOrEmpty ls -> keptFrom n (dropCR <$> ls) = [].
Proof.
  induction ls as [|l ls IH]; intros n H; [done|].
  apply Forall_cons in H as [Hl H]. rewrite fmap_cons. cbn [keptFrom].
  rewrite IH by done. rewrite app_nil_r.
  destruct Hl as [->|[rest ->]]; [done|].
  destruct (dropCR_comment rest) as [rest' ->].
  destruct (TrimSpace_comment rest') as [rest'' ->].
  by rewrite isValidKey_cons.
Qed.

(** Clean keys parse back to themselves. *)
Lemma keptFrom_clean ks : forall n,
  Forall cleanKey ks -> linesOf (keptFrom n (dropCR <$> ks)) = ks.
Proof.
  induction ks as [|k ks IH]; intros n H; [done|].
  apply Forall_cons in H as [(Hv & _ & Ht) H]. rewrite fmap_cons.
  cbn [keptFrom]. rewrite Ht, Hv. unfold linesOf in *.
  rewrite fmap_app, IH by done. done.
Qed.

End Reparse.

(** ** The merge over a key list that was merged before *)

Section MergeAgain.
Import sync gostrings.

Lemma newKeys_app origin a : forall b seen,
  newKeys origin (a ++ b) seen =
    newKeys origin a seen ++ newKeys origin b (seenAfter origin a seen).
Proof.
  induction a as [|key a IH]; intros b seen.
  - by destruct (dedupKeys_nil origin seen) as (-> & _ & ->).
  - rewrite <- app_comm_cons.
    destruct (seen !! keyparser.Line key) as [first|] eqn:Hseen.
    + destruct (dedupKeys_seen origin key (a ++ b) seen first Hseen)
        as (_ & _ & ->).
      destruct (dedupKeys_seen origin key a seen first Hseen)
        as (-> & _ & ->).
      apply IH.
    + destruct (dedupKeys_fresh origin key (a ++ b) seen Hseen)
        as (_ & _ & ->).
      destruct (dedupKeys_fresh origin key a seen Hseen) as (-> & _ & ->).
      by rewrite IH.
Qed.

(** Keys that are all recorded add nothing. *)
Lemma newKeys_all_seen origin ks : forall seen,
  (forall L, L ∈ linesOf ks -> is_Some (seen !! L)) ->
  newKeys origin ks seen = [] /\ seenAfter origin ks seen = seen.
Proof.
  induction ks as [|key ks IH]; intros seen Hall.
  - by destruct (dedupKeys_nil origin seen) as (-> & _ & ->).
  - destruct (Hall (keyparser.Line key)) as [first Hseen]; [by left|].
    destruct (dedupKeys_seen origin key ks seen first Hseen) as (-> & _ & ->).
    apply IH. intros L HL. apply Hall. by right.
Qed.

(** Distinct keys that are not recorded are all kept. *)
Lemma newKeys_all_fresh origin ks : forall seen,
  NoDup (linesOf ks) ->
  (forall L, L ∈ linesOf ks -> seen !! L = None) ->
  newKeys origin ks seen = linesOf ks.
Proof.
  induction ks as [|key ks IH]; intros seen Hnd Hall.
  - by destruct (dedupKeys_nil origin seen) as (_ & _ & ->).
  - unfold linesOf in Hnd. rewrite fmap_cons in Hnd.
    apply NoDup_cons in Hnd as [Hkey Hnd].
    destruct (dedupKeys_fresh origin key ks seen) as (_ & _ & ->).
    { apply Hall. by left. }
    unfold linesOf at 1. rewrite fmap_cons. f_equal.
    apply IH; [done|]. intros L HL.
    rewrite lookup_insert_ne by (intros Heq; apply Hkey; by rewrite Heq).
    apply Hall. by right.
Qed.

(** A key list made of recorded keys followed by distinct keys that are not
    recorded: the second part is what the merge keeps. *)
Lemma newKeys_again origin ks seen recorded fresh :
  linesOf ks = recorded ++ fresh ->
  (forall L, L ∈ recorded -> is_Some (seen !! L)) ->
  NoDup fresh ->
  (forall L, L ∈ fresh -> seen !! L = None) ->
  newKeys origin ks seen = fresh.
Proof.
  intros Hks Hrec Hnd Hfresh. unfold linesOf in Hks.
  apply fmap_app_inv in Hks as (k1 & k2 & H1 & H2 & ->). subst recorded fresh.
  rewrite newKeys_app.
  destruct (newKeys_all_seen origin k1 seen Hrec) as [-> ->].
  by apply newKeys_all_fresh.
Qed.

End MergeAgain.

(** ** The generated file, parsed *)

Section RenderParsed.
Import sync gostrings.

Lemma linesOf_app a b : linesOf (a ++ b) = linesOf a ++ linesOf b.
Proof. apply fmap_app. Qed.

Lemma keptFrom_sections sources : forall n,
  Forall cleanKey (sources ≫= keys) ->
  linesOf (keptFrom n (dropCR <$> (sources ≫= sectionLines))) = sources ≫= keys.
Proof.
  induction sources as [|src sources IH]; intros n Hclean; [done|].
  rewrite !bind_cons in *. apply Forall_app in Hclean as [Hsrc Hrest].
  rewrite fmap_app, keptFrom_app, linesOf_app, IH by done. f_equal.
  unfold sectionLines.
  change ([] :: (str "# Source: " ++ url src) :: keys src)
    with ([ []; str "# Source: " ++ url src ] ++ keys src).
  rewrite fmap_app, keptFrom_app, linesOf_app.
  rewrite keptFrom_commentOrEmpty.
  - by rewrite keptFrom_clean.
  - constructor; [by left|]. constructor; [right; by eexists|constructor].
Qed.

Lemma keptFrom_localSection localKeys n :
  Forall cleanKey localKeys ->
  linesOf (keptFrom n (dropCR <$> localSectionLines localKeys)) = localKeys.
Proof.
  intros Hclean. destruct localKeys as [|k ks]; [done|].
  unfold localSectionLines.
  change ([] :: str "# Local (preserved)" :: k :: ks)
    with ([ []; str "# Local (preserved)" ] ++ k :: ks).
  rewrite fmap_app, keptFrom_app, linesOf_app.
  rewrite keptFrom_commentOrEmpty.
  - by rewrite keptFrom_clean.
  - constructor; [by left|]. constructor; [right; by eexists|constructor].
Qed.

(** The keys of the generated file are the keys of its sections, in order. *)
Lemma keptFrom_fileLines v timestamp sources localKeys :
  Forall cleanKey (sources ≫= keys) ->
  Forall cleanKey localKeys ->
  linesOf (keptFrom 0 (dropCR <$> fileLines v timestamp sources localKeys)) =
    (sources ≫= keys) ++ localKeys.
Proof.
  intros Hs Hl. unfold fileLines.
  rewrite !fmap_app, !keptFrom_app, !linesOf_app.
  rewrite keptFrom_sections, keptFrom_localSection by done.
  rewrite keptFrom_commentOrEmpty; [done|].
  eapply Forall_impl; [apply headerLines_comments|].
  intros l Hl'. by right.
Qed.

(** The parser reads the generated file back: its keys are those of the
    sections, in order. *)
Lemma ParseString_render v timestamp sources localKeys :
  Forall scannable (fileLines v timestamp sources localKeys) ->
  Forall cleanKey (sources ≫= keys) ->
  Forall cleanKey localKeys ->
  exists res,
    keyparser.ParseString (render v timestamp sources localKeys) = Ok res /\
    linesOf (keyparser.Keys res) = (sources ≫= keys) ++ localKeys.
Proof.
  intros Hscan Hs Hl. eexists. unfold keyparser.ParseString.
  assert (splitLines (render v timestamp sources localKeys) =
          fileLines v timestamp sources localKeys) as Hlines.
  { rewrite render_lines. apply splitLines_terminated.
    eapply Forall_impl; [exact Hscan|]. by intros l [H _]. }
  split.
  - apply Parse_ok; [done|]. cbn [data NewReader].
    rewrite Hlines. eapply Forall_impl; [exact Hscan|]. by intros l [_ H].
  - cbn [keyparser.Keys parsed data NewReader]. unfold lineTexts.
    rewrite Hlines.
    by apply keptFrom_fileLines.
Qed.

End RenderParsed.

(** ** The builder on its own output *)

Section BuildAgain.
Import sync gostrings.

Lemma fileLines_Forall (P : gostring -> Prop) v timestamp frs kept localKeys :
  Forall P (headerLines v timestamp) ->
  P [] -> P (str "# Local (preserved)") ->
  Forall (fun fr => P (str "# Source: " ++ originOf fr)) frs ->
  Forall P (mjoin kept) ->
  Forall P localKeys ->
  length kept = length frs ->
  Forall P (fileLines v timestamp (sectionsOf frs kept) localKeys).
Proof.
  intros Hhead Hempty Hlocal Hfrs Hkept Hkeys Hlen. unfold fileLines.
  rewrite !Forall_app. split; [done|]. split.
  - clear Hkeys. revert kept Hkept Hlen.
    induction Hfrs as [|fr rest Hfr _ IH]; intros [|ks kept] Hkept Hlen;
      try constructor.
    unfold sectionsOf. cbn [zip_with]. rewrite mjoin_cons.
    fold (sectionsOf rest kept). rewrite bind_app, Forall_app.
    rewrite mjoin_cons, Forall_app in Hkept. destruct Hkept as [Hks Hkept].
    split; [|apply IH; [done|cbn in Hlen; lia]].
    destruct ks as [|k ks]; [constructor|]. unfold sectionOf.
    change ([?x] ≫= sectionLines) with (sectionLines x ++ []).
    rewrite app_nil_r. unfold sectionLines. cbn [url keys].
    constructor; [done|]. by constructor.
  - unfold localSectionLines. destruct localKeys as [|k ks]; [constructor|].
    constructor; [done|]. by constructor.
Qed.

Lemma length_decimal width : forall n, length (gotime.decimal width n) = width.
Proof.
  induction width as [|w IH]; intros n; [done|].
  cbn [gotime.decimal]. rewrite length_app, IH. cbn. lia.
Qed.

Lemma length_FormatISO t : length (gotime.FormatISO t) = 20.
Proof.
  unfold gotime.FormatISO. rewrite !length_app, !length_decimal. done.
Qed.

Lemma scannable_closed l : bool_decide (scannable l) = true -> scannable l.
Proof. intros H. by apply bool_decide_eq_true in H. Qed.

Lemma headerLines_scannable v t :
  plainInfo v -> Forall scannable (headerLines v (gotime.FormatISO t)).
Proof.
  intros (Hv & Hc & Hd). unfold headerLines.
  assert (scannable (str "# Last sync: " ++ gotime.FormatISO t)) as Ht.
  { split.
    - rewrite not_elem_of_app. split; [|apply FormatISO_no_newline].
      apply (bool_decide_unpack _); vm_compute; exact I.
    - rewrite not_tooLong_length, length_app, length_FormatISO.
      change (length (str "# Last sync: ")) with 13. lia. }
  assert (scannable ruleText) as Hr by (apply scannable_closed; by vm_compute).
  constructor; [exact Hr|].
  constructor; [apply scannable_closed; by vm_compute|].
  constructor; [exact Hv|]. constructor; [exact Hc|].
  constructor; [exact Hd|]. constructor; [exact Ht|].
  constructor; [apply scannable_closed; by vm_compute|].
  constructor; [exact Hr|]. constructor.
Qed.

Lemma cleanKey_scannable k : cleanKey k -> scannable k.
Proof. by intros (_ & H & _). Qed.

Lemma header_nonempty v timestamp rest : header v timestamp ++ rest <> [].
Proof. unfold header, rule. by rewrite <- !app_assoc. Qed.

(** The local keys of the builder on its own output: from a key file that
    holds the content built before, and with the same answers of the
    sources, the keys that go to the local section are the same. *)
Lemma localKeys_again s env env' d d' frs :
  plainInfo (build s) ->
  Forall plainSource frs ->
  Forall (fun fr => Forall cleanKey (remoteLines fr)) frs ->
  sshfile.ReadContent env' d' = Ok (buildContent s env d frs).1 ->
  newKeys Local (localParsed s env' d') (seenAfterSources frs ∅) =
  newKeys Local (localParsed s env d) (seenAfterSources frs ∅).
Proof.
  intros Hv Hfrs Hclean Hread.
  set (sources := sectionsOf frs (keptPerSource frs ∅)).
  set (localKeys :=
         newKeys Local (localParsed s env d) (seenAfterSources frs ∅)).
  rewrite buildContent_spec in Hread. cbn [fst] in Hread.
  fold sources localKeys in Hread.
  assert (Forall cleanKey (mjoin (keptPerSource frs ∅))) as Hkept.
  { apply Forall_forall. intros L (_ & fr & Hfr & HL)%elem_of_keptPerSource.
    eapply Forall_forall in Hclean; [|exact Hfr].
    eapply Forall_forall in Hclean; [done|exact HL]. }
  assert (Forall cleanKey localKeys) as Hlocal.
  { apply Forall_forall. intros L [HL _]%elem_of_newKeys.
    pose proof (localParsed_clean s env d) as H.
    eapply Forall_forall in H; [done|exact HL]. }
  unfold localParsed at 1.
  destruct (config.IsPreserveLocalKeys _) eqn:Hpreserve.
  2: { subst localKeys. unfold localParsed. rewrite Hpreserve.
       by destruct (dedupKeys_nil Local (seenAfterSources frs ∅))
         as (_ & _ & ->). }
  rewrite Hread.
  destruct (render _ _ sources localKeys) as [|c content] eqn:Hrender.
  { unfold render in Hrender. by apply header_nonempty in Hrender. }
  rewrite <- Hrender.
  destruct (ParseString_render (build s)
              (gotime.FormatISO (world.buildTime env)) sources localKeys)
    as (res & -> & Hres); [| |done|].
  - apply fileLines_Forall.
    + by apply headerLines_scannable.
    + apply (bool_decide_unpack _); vm_compute; exact I.
    + apply (bool_decide_unpack _); vm_compute; exact I.
    + done.
    + eapply Forall_impl; [exact Hkept|apply cleanKey_scannable].
    + eapply Forall_impl; [exact Hlocal|apply cleanKey_scannable].
    + apply keptPerSource_length.
  - unfold sources.
    by rewrite sectionsOf_keys by apply keptPerSource_length.
  - unfold sources in Hres.
    rewrite sectionsOf_keys in Hres by apply keptPerSource_length.
    eapply newKeys_again; [exact Hres| | |].
    + intros L (_ & fr & Hfr & HL)%elem_of_keptPerSource.
      destruct (seenAfterSources frs ∅ !! L) eqn:Hseen; [done|].
      apply seenAfterSources_None in Hseen as [_ Hseen].
      by destruct (Hseen fr Hfr).
    + apply NoDup_newKeys.
    + by intros L [_ HL]%elem_of_newKeys.
Qed.

(** The builder reads its own output: from a key file that holds the content
    built before, and with the same answers of the sources, it builds the
    same sections and the same local keys, with the same counts; only the
    time stamp is new. *)
Lemma buildContent_again s env env' d d' frs :
  plainInfo (build s) ->
  Forall plainSource frs ->
  Forall (fun fr => Forall cleanKey (remoteLines fr)) frs ->
  sshfile.ReadContent env' d' = Ok (buildContent s env d frs).1 ->
  let sources := sectionsOf frs (keptPerSource frs ∅) in
  let localKeys :=
    newKeys Local (localParsed s env d) (seenAfterSources frs ∅) in
  (buildContent s env d frs).1 =
    render (build s) (gotime.FormatISO (world.buildTime env))
      sources localKeys /\
  (buildContent s env' d' frs).1 =
    render (build s) (gotime.FormatISO (world.buildTime env'))
      sources localKeys /\
  TotalKeys (buildContent s env' d' frs).2 =
    TotalKeys (buildContent s env d frs).2 /\
  LocalKeysCount (buildContent s env' d' frs).2 =
    LocalKeysCount (buildContent s env d frs).2.
Proof.
  intros Hv Hfrs Hclean Hread sources localKeys.
  pose proof (localKeys_again s env env' d d' frs Hv Hfrs Hclean Hread) as H.
  rewrite !buildContent_spec. cbn [fst snd TotalKeys LocalKeysCount].
  by rewrite H.
Qed.

(** The built content is never empty: it starts with the header. *)
Lemma buildContent_nonempty s env d frs :
  exists c content, (buildContent s env d frs).1 = c :: content.
Proof.
  rewrite buildContent_spec. cbn [fst].
  destruct (render _ _ _ _) as [|c content] eqn:H; [|by eexists _, _].
  unfold render in H. by apply header_nonempty in H.
Qed.

(** The time stamp can be read off the generated file. *)
Lemma render_timestamp_inj v timestamp timestamp' sources localKeys :
  length timestamp = length timestamp' ->
  render v timestamp sources localKeys =
    render v timestamp' sources localKeys ->
  timestamp = timestamp'.
Proof.
  intros Hlen. unfold render, header. rewrite <- !app_assoc.
  intros H. repeat apply app_inv_head in H.
  by apply app_inj_1 in H as [? _].
Qed.

End BuildAgain.

(** ** The steps of the pipeline after the builder *)

Section WriteSteps.
Import sync world fs.

Lemma ensureBackupDir_authKeys env d :
  authKeys (backup.ensureBackupDir env d).1 = authKeys d.
Proof. unfold backup.ensureBackupDir. by repeat case_match. Qed.

Lemma putBackup_authKeys d name e :
  authKeys (backup.putBackup d name e) = authKeys d.
Proof. unfold backup.putBackup. by case_match. Qed.

Lemma copyFile_authKeys env d dst :
  authKeys (backup.copyFile env d dst).1 = authKeys d.
Proof.
  unfold backup.copyFile.
  repeat case_match; cbn [fst]; by rewrite ?putBackup_authKeys.
Qed.

Lemma CreateBackup_authKeys env d sshDir :
  authKeys (backup.CreateBackup env d sshDir).1 = authKeys d.
Proof.
  unfold backup.CreateBackup.
  destruct (ioError env StatAuthKeys); [done|].
  destruct (authKeys d) as [[|c content]|] eqn:Hd; [exact Hd| |exact Hd].
  rewrite <- Hd. clear Hd.
  pose proof (ensureBackupDir_authKeys env d) as He.
  destruct (backup.ensureBackupDir env d) as [d1 [err|]];
    cbn [fst] in *; [congruence|].
  destruct (backupId env) as [id|err]; [|cbn; congruence].
  match goal with |- context [backup.copyFile env d1 ?n] =>
    pose proof (copyFile_authKeys env d1 n) as Hc;
    destruct (backup.copyFile env d1 n) as [d2 [err|]] end;
    cbn [fst] in *; congruence.
Qed.

(** A backup that is made has a path. *)
Lemma CreateBackup_path env d sshDir d' path c content :
  authKeys d = Some (c :: content) ->
  backup.CreateBackup env d sshDir = (d', Ok path) ->
  path <> [].
Proof.
  unfold backup.CreateBackup. intros ->.
  destruct (ioError env StatAuthKeys); [done|].
  destruct (backup.ensureBackupDir env d) as [d1 [err|]]; [done|].
  destruct (backupId env) as [id|err]; [|done].
  destruct (backup.copyFile _ _ _) as [d2 [err|]]; [done|].
  intros [= _ <-]. unfold Join. by destruct sshDir.
Qed.

Lemma RotateBackups_authKeys env d retentionCount :
  authKeys (backup.RotateBackups env d retentionCount).1.1 = authKeys d.
Proof.
  unfold backup.RotateBackups.
  repeat case_match; try done.
  all: by destruct (backup.deleteOldest _ _ _ _ _) as [[? ?] ?].
Qed.

(** The backup step leaves the key file as it is. *)
Lemma backupStep_authKeys s env d sshDir content result :
  authKeys (backupStep s env d sshDir content result).1.1 = authKeys d.
Proof.
  unfold backupStep.
  destruct (config.IsBackupEnabled _); [|done].
  destruct (match sshfile.ReadContent env d with Ok c => c | Err _ => [] end)
    as [|c existing]; [done|].
  destruct (bool_decide _); [done|].
  pose proof (CreateBackup_authKeys env d sshDir) as Hc.
  destruct (backup.CreateBackup env d sshDir) as [d1 [path|err]];
    cbn [fst] in *; [|done].
  match goal with |- context [backup.RotateBackups env d1 ?n] =>
    pose proof (RotateBackups_authKeys env d1 n) as Hr;
    destruct (backup.RotateBackups env d1 n) as [[d2 ?] ?] end.
  cbn [fst] in *. congruence.
Qed.

(** The backup step stops the pipeline only with an error. *)
Lemma backupStep_stops s env d sshDir content result d' result' :
  backupStep s env d sshDir content result = (d', result', false) ->
  is_Some (Error result').
Proof.
  unfold backupStep. intros H.
  repeat case_match; simplify_eq; by eexists.
Qed.

Lemma backupStep_goes_on s env d sshDir content result d' result' :
  backupStep s env d sshDir content result = (d', result', true) ->
  Error result' = Error result /\ Changed result' = Changed result.
Proof.
  unfold backupStep. intros H.
  repeat case_match; simplify_eq; done.
Qed.

(** No backup of a key file that holds the new content already. *)
Lemma backupStep_same s env d sshDir content result :
  sshfile.ReadContent env d = Ok content ->
  backupStep s env d sshDir content result = (d, result, true).
Proof.
  unfold backupStep. intros ->.
  destruct (config.IsBackupEnabled _); [|done].
  destruct content as [|c content]; [done|].
  by rewrite bool_decide_true.
Qed.

(** With backups enabled, a key file that holds something else is backed
    up before the pipeline goes on. *)
Lemma backupStep_backup s env d sshDir content result c existing d' result' :
  config.IsBackupEnabled (config.policy (cfg s)) = true ->
  authKeys d = Some (c :: existing) ->
  ioError env ReadAuthKeys = None ->
  c :: existing <> content ->
  backupStep s env d sshDir content result = (d', result', true) ->
  BackupPath result' <> [].
Proof.
  unfold backupStep, sshfile.ReadContent, sshfile.readFile.
  intros -> Hd -> Hne. rewrite Hd, bool_decide_false by done.
  pose proof (CreateBackup_path env d sshDir) as Hpath.
  destruct (backup.CreateBackup env d sshDir) as [d1 [path|err]]; [|done].
  specialize (Hpath d1 path c existing Hd eq_refl).
  destruct (backup.RotateBackups _ _ _) as [[d2 ?] ?].
  intros [= _ <- ]. by destruct path.
Qed.

Lemma backupStep_no_backup s env d sshDir content result :
  config.IsBackupEnabled (config.policy (cfg s)) = false ->
  backupStep s env d sshDir content result = (d, result, true).
Proof. unfold backupStep. by intros ->. Qed.

(** [WriteAtomic] on a key file that holds the content already. *)
Lemma WriteAtomic_same env d sshDir content :
  sshfile.readFile env d = Ok (Some content) ->
  sshfile.WriteAtomic env d sshDir content =
    (d, Ok {| sshfile.Changed := false;
              sshfile.Path := Join sshDir (str "authorized_keys") |}).
Proof.
  unfold sshfile.WriteAtomic. intros ->. by rewrite bool_decide_true.
Qed.

(** After a successful [WriteAtomic] the key file holds the content; it
    reports no change only if it left the directory as it was. *)
Lemma WriteAtomic_ok env d sshDir content d' writeResult :
  sshfile.WriteAtomic env d sshDir content = (d', Ok writeResult) ->
  authKeys d' = Some content /\
  (sshfile.Changed writeResult = false ->
     d' = d /\ sshfile.readFile env d = Ok (Some content)).
Proof.
  unfold sshfile.WriteAtomic, sshfile.cleanup.
  destruct (sshfile.readFile env d) as [[existing|]|e] eqn:Hread.
  1: destruct (bool_decide_reflect (existing = content)) as [->|Hne].
  1: { intros [= <- <-]. split; [|done].
       unfold sshfile.readFile in Hread. by case_match; simplify_eq. }
  all: intros H; repeat case_match; by simplify_eq.
Qed.

End WriteSteps.

(** * Part III: further properties of the code *)

(** ** Package sshfile *)

Section SshFile.
Import world fs.

Lemma setOthers_others d : setOthers d (others d) = d.
Proof. by destruct d. Qed.

Lemma cleanup_fresh env d tempFilename content :
  others d !! tempFilename = None ->
  ioError env RemoveTemp = None ->
  sshfile.cleanup env
    (setOthers d (<[tempFilename := content]> (others d))) tempFilename = d.
Proof.
  intros Hfresh Hrm. unfold sshfile.cleanup. rewrite Hrm.
  destruct d as [a b o]. unfold setOthers. cbn in *.
  by rewrite delete_insert_id.
Qed.

Lemma cleanup_authKeys env d tempFilename :
  authKeys (sshfile.cleanup env d tempFilename) = authKeys d /\
  backups (sshfile.cleanup env d tempFilename) = backups d.
Proof. unfold sshfile.cleanup. by case_match. Qed.

(** The outcomes of [WriteAtomic], step by step. *)
Lemma WriteAtomic_cases :
  forall env d sshDir content,
    let d' := (sshfile.WriteAtomic env d sshDir content).1 in
    backups d' = backups d /\
    match (sshfile.WriteAtomic env d sshDir content).2 with
    | Ok writeResult =>
        authKeys d' = Some content /\
        others d' = others d /\
        sshfile.Path writeResult = Join sshDir (str "authorized_keys") /\
        (sshfile.Changed writeResult = false <->
         sshfile.readFile env d = Ok (Some content))
    | Err _ =>
        authKeys d' = authKeys d /\
        (ioError env RemoveTemp = None -> d' = d)
    end.
Proof.
  intros env d sshDir content.
  destruct (sshfile.WriteAtomic env d sshDir content) as [d' r] eqn:Hw.
  cbn [fst snd]. unfold sshfile.WriteAtomic in Hw.
  destruct (sshfile.readFile env d) as [[existing|]|e] eqn:Hread.
  1: destruct (bool_decide_reflect (existing = content)) as [->|Hne].
  1: { simplify_eq. repeat split; try done.
       unfold sshfile.readFile in Hread. by case_match; simplify_eq. }
  all: assert (sshfile.readFile env d <> Ok (Some content)) as Hother
         by congruence.
  all: clear Hread.
  all: pose proof (cleanup_authKeys env) as Hc.
  all: repeat case_match; simplify_eq.
  all: try (split; [by rewrite (proj2 (Hc _ _))|];
            split; [by rewrite (proj1 (Hc _ _))|];
            intros Hrm; by apply cleanup_fresh).
  all: cbn; repeat split; try done; intros; by simplify_eq.
Qed.

(** X1. [WriteAtomic] is all or nothing.  When it succeeds, the key file
    holds exactly the new content and nothing else in the directory has
    changed; it reports no change exactly when the file was read and held
    that content already.  When it fails, at whatever step, the key file is
    what it was, and if the temporary file could be removed the whole
    directory is what it was.  The backups are never touched. *)
Theorem WriteAtomic_all_or_nothing :
  forall env d sshDir content,
    let d' := (sshfile.WriteAtomic env d sshDir content).1 in
    backups d' = backups d /\
    match (sshfile.WriteAtomic env d sshDir content).2 with
    | Ok writeResult =>
        authKeys d' = Some content /\
        others d' = others d /\
        sshfile.Path writeResult = Join sshDir (str "authorized_keys") /\
        (sshfile.Changed writeResult = false <->
         sshfile.readFile env d = Ok (Some content))
    | Err _ =>
        authKeys d' = authKeys d /\
        (ioError env RemoveTemp = None -> d' = d)
    end.
Proof. exact WriteAtomic_cases. Qed.

(** X2. What [WriteAtomic] has written, [ReadContent] reads back: after a
    successful write, and if the read itself does not fail, [ReadContent]
    returns the content that was written. *)
Theorem ReadContent_after_WriteAtomic :
  forall env env' d sshDir content d' writeResult,
    sshfile.WriteAtomic env d sshDir content = (d', Ok writeResult) ->
    ioError env' ReadAuthKeys = None ->
    sshfile.ReadContent env' d' = Ok content.
Proof.
  intros env env' d sshDir content d' writeResult Hw Hread.
  apply WriteAtomic_ok in Hw as [Hd' _].
  unfold sshfile.ReadContent, sshfile.readFile. by rewrite Hread, Hd'.
Qed.

Lemma ReadContent_after_WriteAtomic_witness :
  sshfile.ReadContent (example.calm example.oneSecondLater)
    (sshfile.WriteAtomic (example.calm example.noon) example.aliceDir
       (str "/home/alice/.ssh") example.keysA).1 = Ok example.keysA.
Proof.
  eapply (ReadContent_after_WriteAtomic (example.calm example.noon)
            (example.calm example.oneSecondLater) example.aliceDir
            (str "/home/alice/.ssh") example.keysA).
  - vm_compute. reflexivity.
  - reflexivity.
Defined.

End SshFile.

(** ** Package backup *)

Section Backup.
Import world fs.

Lemma setBackups_backups d : setBackups d (backups d) = d.
Proof. by destruct d. Qed.

Lemma ensureBackupDir_ok env d d1 :
  backup.ensureBackupDir env d = (d1, None) ->
  d1 = setBackups d (BackupDir (backupEntries d)).
Proof.
  unfold backup.ensureBackupDir, backupEntries. intros H.
  repeat case_match; simplify_eq; try done.
  match goal with H : backups _ = _ |- _ => rewrite <- H end.
  by rewrite setBackups_backups.
Qed.

Lemma copyFile_ok env d entries content dst d2 :
  backups d = BackupDir entries ->
  authKeys d = Some content ->
  backup.copyFile env d dst = (d2, None) ->
  d2 = setBackups d (BackupDir (<[dst := RegularFile content]> entries)).
Proof.
  unfold backup.copyFile, backup.backupEntry, backup.putBackup.
  intros Hb Ha H. rewrite Hb, Ha in H.
  repeat case_match; by simplify_eq.
Qed.

(** X3. A backup is a copy.  When [CreateBackup] succeeds on a key file
    that holds something, the backup directory has, under the name built
    from the time and the identifier, a regular file with exactly the
    content of the key file, next to the entries that were there; the path
    returned names that file.  On a key file that is absent or empty it
    returns the empty path and changes nothing, not even creating the
    backup directory.  The key file itself is never touched. *)
Theorem CreateBackup_keeps_a_copy :
  forall env d sshDir d' path,
    backup.CreateBackup env d sshDir = (d', Ok path) ->
    authKeys d' = authKeys d /\
    others d' = others d /\
    match authKeys d with
    | Some ((_ :: _) as content) =>
        exists id,
          backupId env = Ok id /\
          path = Join (Join sshDir backup.BackupDirName) (backupName env id) /\
          backups d' =
            BackupDir (<[backupName env id := RegularFile content]>
                         (backupEntries d))
    | _ => path = [] /\ d' = d
    end.
Proof.
  intros env d sshDir d' path. unfold backup.CreateBackup.
  destruct (ioError env StatAuthKeys); [done|].
  destruct (authKeys d) as [[|c content]|] eqn:Ha;
    [by intros [= <- <-]| |by intros [= <- <-]].
  destruct (backup.ensureBackupDir env d) as [d1 [err|]] eqn:He; [done|].
  apply ensureBackupDir_ok in He as ->.
  destruct (backupId env) as [id|err]; [|done].
  destruct (backup.copyFile _ _ _) as [d2 [err|]] eqn:Hc; [done|].
  eapply copyFile_ok in Hc; [|reflexivity|exact Ha]. subst d2.
  intros [= <- <-]. cbn. repeat split; try done. by exists id.
Qed.

Lemma CreateBackup_keeps_a_copy_witness :
  exists d' path,
    backup.CreateBackup (example.calm example.noon) example.aliceDir
      (str "/home/alice/.ssh") = (d', Ok path) /\
    path = str "/home/alice/.ssh/authorized_keys_backups/authorized_keys_20250102_120000_abcdef" /\
    backupEntries d' !! str "authorized_keys_20250102_120000_abcdef" =
      Some (RegularFile (str "ssh-rsa OLD alice@old
")).
Proof.
  destruct (backup.CreateBackup (example.calm example.noon) example.aliceDir
              (str "/home/alice/.ssh")) as [d' [path|err]] eqn:H;
    [|by vm_compute in H].
  exists d', path. split; [done|].
  destruct (CreateBackup_keeps_a_copy _ _ _ _ _ H)
    as (_ & _ & id & Hid & -> & Hb).
  injection Hid as <-. split; [by vm_compute|].
  unfold backupEntries. rewrite Hb. by vm_compute.
Defined.

(** The delete loop deletes a prefix of the names, and all the names it was
    asked to delete if it reports no error. *)
Lemma deleteOldest_prefix env names : forall count entries deleted,
  exists k,
    (backup.deleteOldest env count names entries deleted).1 =
      (foldr delete entries (take k names), deleted ++ take k names) /\
    ((backup.deleteOldest env count names entries deleted).2 = None ->
     take k names = take count names).
Proof.
  induction names as [|name names IH]; intros count entries deleted.
  - exists 0. destruct count; cbn; by rewrite app_nil_r.
  - destruct count as [|count].
    { exists 0. cbn. by rewrite app_nil_r. }
    cbn [backup.deleteOldest].
    destruct (ioError env (RemoveBackup name)).
    { exists 0. cbn. by rewrite app_nil_r. }
    destruct (IH count (delete name entries) (deleted ++ [name]))
      as (k & Hk & Hnone).
    exists (S k). rewrite Hk. cbn [take foldr]. split.
    + by rewrite foldr_delete_delete, <- app_assoc.
    + intros H. by rewrite (Hnone H).
Qed.

(** X4. Rotation is confined to backup files, whatever fails.  The names
    [RotateBackups] reports are distinct regular files of the backup
    directory whose name starts with the backup prefix; exactly those are
    gone afterwards and every other entry is as before; the key file and
    the other files of the directory are untouched.  This holds also when
    reading the directory or removing a file fails. *)
Theorem RotateBackups_only_removes_backups :
  forall env d retentionCount,
    let d' := (backup.RotateBackups env d retentionCount).1.1 in
    let deleted := (backup.RotateBackups env d retentionCount).1.2 in
    authKeys d' = authKeys d /\
    others d' = others d /\
    NoDup deleted /\
    (forall name, name ∈ deleted ->
       is_Some (backupFiles (backupEntries d) !! name)) /\
    (forall name,
       backupEntries d' !! name =
       if decide (name ∈ deleted) then None else backupEntries d !! name) /\
    (deleted = [] -> d' = d).
Proof.
  intros env d retentionCount. unfold backup.RotateBackups.
  assert (forall name : gostring,
            backupEntries d !! name =
            if decide (name ∈ @nil gostring) then None
            else backupEntries d !! name) as Hnil.
  { intros name. by rewrite decide_False by apply not_elem_of_nil. }
  assert (authKeys d = authKeys d /\ others d = others d /\
          NoDup (@nil gostring) /\
          (forall name, name ∈ @nil gostring ->
             is_Some (backupFiles (backupEntries d) !! name)) /\
          (forall name,
             backupEntries d !! name =
             if decide (name ∈ @nil gostring) then None
             else backupEntries d !! name) /\
          (@nil gostring = [] -> d = d)) as Hsame.
  { repeat split; try done; [constructor|by intros ? ?%not_elem_of_nil]. }
  destruct (retentionCount <? 0)%Z; [exact Hsame|].
  destruct (backups d) as [| |entries] eqn:Hb.
  1,2: destruct (ioError env StatBackupDir); exact Hsame.
  destruct (ioError env StatBackupDir).
  all: destruct (ioError env ReadBackupDir); [exact Hsame|].
  all: fold (sortedBackups entries).
  all: destruct (_ <=? 0)%Z; [exact Hsame|].
  all: match goal with |- context [backup.deleteOldest ?e ?c ?n ?m ?l] =>
         destruct (deleteOldest_prefix e n c m l) as (k & Hk & _);
         destruct (backup.deleteOldest e c n m l) as [[entries' deleted] err]
       end.
  all: cbn [fst snd] in *; injection Hk as -> ->.
  all: assert (backupEntries d = entries) as Hentries
         by (unfold backupEntries; by rewrite Hb).
  all: rewrite Hentries; unfold backupEntries; cbn [backups setBackups].
  all: pose proof (sortedBackups_NoDup entries) as Hnd.
  all: rewrite <- (take_drop k (sortedBackups entries)) in Hnd.
  all: apply NoDup_app in Hnd as (Hnd & _ & _).
  all: repeat split; try done.
  all: try (intros name Hin; apply elem_of_sortedBackups;
            rewrite <- (take_drop k (sortedBackups entries));
            apply elem_of_app; by left).
  all: try (intros name; apply lookup_foldr_delete).
  all: intros ->; cbn; rewrite <- Hb; apply setBackups_backups.
Qed.

(** X5. Rotating again deletes nothing.  After a rotation that reported no
    error, at most [retentionCount] backups are left, and a second rotation
    with the same count (that can read the directory) deletes nothing and
    leaves the directory as it is. *)
Theorem RotateBackups_twice :
  forall env env' d retentionCount d' deleted,
    backup.RotateBackups env d retentionCount = (d', deleted, None) ->
    ioError env' StatBackupDir = None ->
    ioError env' ReadBackupDir = None ->
    (Z.of_nat (size (backupFiles (backupEntries d'))) <= retentionCount)%Z /\
    backup.RotateBackups env' d' retentionCount = (d', [], None).
Proof.
  intros env env' d R d' deleted H Hstat Hread.
  unfold backup.RotateBackups in *. rewrite Hstat, Hread.
  destruct (Z.ltb_spec R 0) as [|HR]; [done|].
  destruct (backups d) as [| |entries] eqn:Hb.
  - destruct (ioError env StatBackupDir); [done|]. simplify_eq.
    unfold backupEntries. rewrite Hb. split; [|done].
    unfold backupFiles. rewrite map_filter_empty, map_size_empty. lia.
  - by destruct (ioError env StatBackupDir).
  - assert (match ioError env ReadBackupDir with
            | Some err =>
                (d, [], Some (Wrapf "failed to read backup directory: %w" err))
            | None =>
                if (Z.of_nat (length (sortedBackups entries)) - R <=? 0)%Z
                then (d, [], None)
                else
                  let '(entries', deleted, err) :=
                    backup.deleteOldest env
                      (Z.to_nat (Z.of_nat (length (sortedBackups entries)) - R))
                      (sortedBackups entries) entries []
                  in (setBackups d (BackupDir entries'), deleted, err)
            end = (d', deleted, None)) as H'
      by (by destruct (ioError env StatBackupDir)).
    clear H. destruct (ioError env ReadBackupDir); [done|].
    destruct (Z.leb_spec (Z.of_nat (length (sortedBackups entries)) - R) 0)
      as [Hle|Hgt].
    + simplify_eq. unfold backupEntries. rewrite Hb.
      fold (sortedBackups entries).
      rewrite <- sortedBackups_length.
      split; [lia|]. by rewrite (proj2 (Z.leb_le _ _)) by lia.
    + set (n := Z.to_nat (Z.of_nat (length (sortedBackups entries)) - R)) in *.
      destruct (deleteOldest_prefix env (sortedBackups entries) n entries [])
        as (k & Hk & Hnone).
      destruct (backup.deleteOldest env n (sortedBackups entries) entries [])
        as [[entries' deleted'] err].
      cbn [fst snd] in *. injection H' as <- <- ->.
      injection Hk as -> _. rewrite (Hnone eq_refl).
      unfold backupEntries. cbn [backups setBackups].
      fold (sortedBackups (foldr delete entries (take n (sortedBackups entries)))).
      rewrite sortedBackups_length, backupFiles_after_delete_size, length_drop.
      split; [subst n; lia|].
      by rewrite (proj2 (Z.leb_le _ _)) by (subst n; lia).
Qed.

Lemma RotateBackups_twice_witness :
  (Z.of_nat
     (size (backupFiles (backupEntries
        (backup.RotateBackups (example.calm example.noon)
           example.dirWithBackups 1).1.1))) <= 1)%Z /\
  backup.RotateBackups (example.calm example.oneSecondLater)
    (backup.RotateBackups (example.calm example.noon)
       example.dirWithBackups 1).1.1 1 =
    ((backup.RotateBackups (example.calm example.noon)
        example.dirWithBackups 1).1.1, [], None).
Proof.
  apply (RotateBackups_twice (example.calm example.noon)
           (example.calm example.oneSecondLater) example.dirWithBackups 1
           (backup.RotateBackups (example.calm example.noon)
              example.dirWithBackups 1).1.1
           (backup.RotateBackups (example.calm example.noon)
              example.dirWithBackups 1).1.2).
  - vm_compute. reflexivity.
  - reflexivity.
  - reflexivity.
Defined.

End Backup.

Section BackupFrame.
Import world fs.

Lemma ensureBackupDir_others env d :
  others (backup.ensureBackupDir env d).1 = others d.
Proof. unfold backup.ensureBackupDir. by repeat case_match. Qed.

Lemma putBackup_others d name e :
  others (backup.putBackup d name e) = others d.
Proof. unfold backup.putBackup. by case_match. Qed.

Lemma copyFile_others env d dst :
  others (backup.copyFile env d dst).1 = others d.
Proof.
  unfold backup.copyFile.
  repeat case_match; cbn [fst]; by rewrite ?putBackup_others.
Qed.

Lemma CreateBackup_others env d sshDir :
  others (backup.CreateBackup env d sshDir).1 = others d.
Proof.
  unfold backup.CreateBackup.
  destruct (ioError env StatAuthKeys); [done|].
  destruct (authKeys d) as [[|c content]|]; [done| |done].
  pose proof (ensureBackupDir_others env d) as He.
  destruct (backup.ensureBackupDir env d) as [d1 [err|]];
    cbn [fst] in *; [congruence|].
  destruct (backupId env) as [id|err]; [|cbn; congruence].
  match goal with |- context [backup.copyFile env d1 ?n] =>
    pose proof (copyFile_others env d1 n) as Hc;
    destruct (backup.copyFile env d1 n) as [d2 [err|]] end;
    cbn [fst] in *; congruence.
Qed.

Lemma RotateBackups_others env d retentionCount :
  others (backup.RotateBackups env d retentionCount).1.1 = others d.
Proof.
  unfold backup.RotateBackups.
  repeat case_match; try done.
  all: by destruct (backup.deleteOldest _ _ _ _ _) as [[? ?] ?].
Qed.

End BackupFrame.

(** ** Package sync: the pipeline of a user *)

Section Pipeline.
Import world fs sync.

(** The pipeline after the fetches, when it is not a dry run. *)
Lemma syncUser_run s env w user info frs :
  dryRun s = false ->
  userinfo.Lookup env (files w) (config.Username user) = Ok info ->
  keyfetcher.FetchAll env w (config.Sources user) = (frs, None) ->
  let sshDir := userinfo.SSHDir info in
  let d := sshDirAt (files w) sshDir in
  let built := buildContent s env d frs in
  let step :=
    backupStep s env d sshDir built.1
      (withStats (newResult (config.Username user)) built.2) in
  let written := sshfile.WriteAtomic env step.1.1 sshDir built.1 in
  syncUser s env w user =
    if step.2 then
      (match written.2 with
       | Ok writeResult => withChanged step.1.2 (sshfile.Changed writeResult)
       | Err err =>
           failed step.1.2 (Wrapf "failed to write authorized_keys: %w" err)
       end,
       leave env w (<[sshDir := Directory written.1]> (files w)))
    else (step.1.2, leave env w (<[sshDir := Directory step.1.1]> (files w))).
Proof.
  intros Hdry Hl Hf. cbn zeta. unfold syncUser. rewrite Hl, Hf, Hdry.
  destruct (buildContent _ _ _ _) as [content stats]. cbn [fst snd].
  destruct (backupStep _ _ _ _ _ _) as [[d1 r1] [|]]; [|done].
  cbn [fst snd]. by destruct (sshfile.WriteAtomic _ _ _ _) as [d2 [wr|err]].
Qed.

(** The backup step changes nothing but the backup directory. *)
Lemma backupStep_others s env d sshDir content result :
  others (backupStep s env d sshDir content result).1.1 = others d.
Proof.
  unfold backupStep.
  destruct (config.IsBackupEnabled _); [|done].
  destruct (match sshfile.ReadContent env d with Ok c => c | Err _ => [] end)
    as [|c existing]; [done|].
  destruct (bool_decide _); [done|].
  pose proof (CreateBackup_others env d sshDir) as Hc.
  destruct (backup.CreateBackup env d sshDir) as [d1 [path|err]];
    cbn [fst] in *; [|done].
  match goal with |- context [backup.RotateBackups env d1 ?n] =>
    pose proof (RotateBackups_others env d1 n) as Hr;
    destruct (backup.RotateBackups env d1 n) as [[d2 ?] ?] end.
  cbn [fst] in *. congruence.
Qed.

(** The backup step keeps the counts of the outcome. *)
Lemma backupStep_stats s env d sshDir content result :
  KeysWritten (backupStep s env d sshDir content result).1.2 =
    KeysWritten result /\
  LocalKeys (backupStep s env d sshDir content result).1.2 = LocalKeys result /\
  Username (backupStep s env d sshDir content result).1.2 = Username result.
Proof.
  unfold backupStep. repeat case_match; try done.
  all: by destruct (backup.RotateBackups _ _ _) as [[? ?] ?].
Qed.

Lemma readFile_ok env d content :
  sshfile.readFile env d = Ok (Some content) <->
  ioError env ReadAuthKeys = None /\ authKeys d = Some content.
Proof.
  unfold sshfile.readFile. destruct (ioError env ReadAuthKeys).
  - split; [done|]. by intros [? _].
  - split; [by intros [= ->]|]. by intros [_ ->].
Qed.

Lemma sshDirAt_lookup files path d :
  files !! path = Some (Directory d) -> sshDirAt files path = d.
Proof. unfold sshDirAt. by intros ->. Qed.

Lemma keyFileAt_insert files path d' path' :
  keyFileAt (<[path := Directory d']> files) path' =
  if decide (path = path') then authKeys d' else keyFileAt files path'.
Proof.
  unfold keyFileAt. destruct (decide (path = path')) as [->|Hne].
  - by rewrite lookup_insert_eq.
  - by rewrite lookup_insert_ne.
Qed.

(** What the pipeline does to the directory of the user, when the user
    resolves, the sources answer and it is not a dry run: on an outcome with
    an error the key file is as before, otherwise it holds the built
    content. *)
Lemma syncUser_key_file s env w user info frs :
  dryRun s = false ->
  userinfo.Lookup env (files w) (config.Username user) = Ok info ->
  keyfetcher.FetchAll env w (config.Sources user) = (frs, None) ->
  let d := sshDirAt (files w) (userinfo.SSHDir info) in
  let content := (buildContent s env d frs).1 in
  let stats := (buildContent s env d frs).2 in
  let r := (syncUser s env w user).1 in
  let w' := (syncUser s env w user).2 in
  Skipped r = false /\
  KeysWritten r = TotalKeys stats /\
  LocalKeys r = LocalKeysCount stats /\
  exists d',
    files w' = <[userinfo.SSHDir info := Directory d']> (files w) /\
    match Error r with
    | Some _ => authKeys d' = authKeys d
    | None =>
        authKeys d' = Some content /\
        others d' = others d /\
        (Changed r = false <->
         sshfile.readFile env d = Ok (Some content)) /\
        (Changed r = false -> BackupPath r = [] /\ d' = d) /\
        (config.IsBackupEnabled (config.policy (cfg s)) = true ->
         forall c existing,
           sshfile.readFile env d = Ok (Some (c :: existing)) ->
           c :: existing <> content ->
           BackupPath r <> [])
    end.
Proof.
  intros Hdry Hl Hf d content stats r w'. subst r w'.
  rewrite (syncUser_run s env w user info frs Hdry Hl Hf).
  fold d. fold content. fold stats.
  set (start := withStats (newResult (config.Username user)) stats).
  pose proof (backupStep_authKeys s env d (userinfo.SSHDir info) content start)
    as Hkeep.
  pose proof (backupStep_others s env d (userinfo.SSHDir info) content start)
    as Hothers.
  pose proof (backupStep_skipped s env d (userinfo.SSHDir info) content start)
    as Hskip.
  pose proof (backupStep_stats s env d (userinfo.SSHDir info) content start)
    as (Hkw & Hlk & _).
  destruct (backupStep s env d (userinfo.SSHDir info) content start)
    as [[d1 r1] go] eqn:Hstep.
  cbn [fst snd] in *. destruct go; cbn [fst snd].
  - apply backupStep_goes_on in Hstep as Hgo. destruct Hgo as [Herr Hch].
    pose proof (WriteAtomic_cases env d1 (userinfo.SSHDir info) content)
      as Hw.
    destruct (sshfile.WriteAtomic env d1 (userinfo.SSHDir info) content)
      as [d2 [wr|err]] eqn:Hwrite; cbn [fst snd] in *.
    + split; [exact Hskip|]. split; [exact Hkw|]. split; [exact Hlk|].
      exists d2. split; [done|].
      cbn [Error withChanged Changed BackupPath]. rewrite Herr.
      change (Error start) with (@None error). cbv iota.
      destruct Hw as (_ & Ha & Ho & _ & Hchanged).
      split; [done|]. split; [congruence|].
      assert (sshfile.readFile env d1 = sshfile.readFile env d) as Hr
        by (unfold sshfile.readFile; by rewrite Hkeep).
      rewrite Hr in Hchanged. split; [done|]. split.
      * intros Hsame%Hchanged.
        assert (sshfile.ReadContent env d = Ok content) as Hrc
          by (unfold sshfile.ReadContent; by rewrite Hsame).
        rewrite (backupStep_same s env d _ content start Hrc) in Hstep.
        injection Hstep as <- <-. split; [done|].
        pose proof (WriteAtomic_same env d (userinfo.SSHDir info) content Hsame).
        congruence.
      * intros Hen c existing [Hread Hd]%readFile_ok Hne.
        by eapply (backupStep_backup s env d).
    + split; [exact Hskip|]. split; [exact Hkw|]. split; [exact Hlk|].
      exists d2. split; [done|]. cbn.
      destruct Hw as (_ & Ha & _). congruence.
  - apply backupStep_stops in Hstep as [e He].
    split; [exact Hskip|]. split; [exact Hkw|]. split; [exact Hlk|].
    exists d1. split; [done|]. by rewrite He.
Qed.

Lemma keyFileAt_directory files path d :
  files !! path = Some (Directory d) -> keyFileAt files path = authKeys d.
Proof. unfold keyFileAt. by intros ->. Qed.

(** X6. A failed, skipped or simulated synchronisation leaves every key
    file as it was: if the outcome for a user carries an error, or the user
    was skipped, or the run is a dry run, then the key file of every
    [.ssh] directory holds after the pipeline what it held before. *)
Theorem syncUser_failure_leaves_key_files :
  forall s env w user,
    let r := (syncUser s env w user).1 in
    let w' := (syncUser s env w user).2 in
    is_Some (Error r) \/ Skipped r = true \/ dryRun s = true ->
    forall path, keyFileAt (files w') path = keyFileAt (files w) path.
Proof.
  intros s env w user r w' Hcase path. subst r w'.
  destruct (dryRun s) eqn:Hdry.
  { by rewrite (syncUser_dry_run_files s env w user Hdry). }
  destruct (userinfo.Lookup env (files w) (config.Username user))
    as [info|err] eqn:Hl.
  2: { rewrite (syncUser_lookup_failed s env w user err Hl). done. }
  destruct (keyfetcher.FetchAll env w (config.Sources user))
    as [frs [err|]] eqn:Hf.
  { by rewrite (syncUser_fetch_failed s env w user info frs err Hl Hf). }
  destruct (syncUser_key_file s env w user info frs Hdry Hl Hf)
    as (Hskip & _ & _ & d' & Hfiles & Hkeys).
  rewrite Hfiles, keyFileAt_insert.
  destruct (decide (userinfo.SSHDir info = path)) as [<-|]; [|done].
  destruct (Lookup_ok_directory _ _ _ _ Hl) as [d Hd].
  rewrite (keyFileAt_directory _ _ _ Hd).
  rewrite (sshDirAt_lookup _ _ _ Hd) in Hkeys.
  destruct Hcase as [[e He]|[Hs|?]]; [|congruence|done].
  by rewrite He in Hkeys.
Qed.

Lemma syncUser_failure_leaves_key_files_witness :
  keyFileAt
    (files (syncUser (example.syncer false)
              (example.withExchange (example.calm example.noon)
                 example.secondFails)
              example.machine example.alice).2) (str "/home/alice/.ssh") =
  keyFileAt (files example.machine) (str "/home/alice/.ssh").
Proof.
  apply (syncUser_failure_leaves_key_files (example.syncer false)
           (example.withExchange (example.calm example.noon)
              example.secondFails)
           example.machine example.alice).
  left. vm_compute. eauto.
Defined.

(** X7. The pipeline of a user touches one directory.  Whatever the
    outcome, every path of the file system holds after the pipeline what it
    held before, except the [.ssh] directory that [Lookup] returned for the
    user, and that one only outside a dry run; it was a directory before
    and is one after. *)
Theorem syncUser_touches_one_directory :
  forall s env w user path,
    let w' := (syncUser s env w user).2 in
    files w' !! path = files w !! path \/
    (dryRun s = false /\
     exists info d d',
       userinfo.Lookup env (files w) (config.Username user) = Ok info /\
       path = userinfo.SSHDir info /\
       files w !! path = Some (Directory d) /\
       files w' !! path = Some (Directory d')).
Proof.
  intros s env w user path w'. subst w'.
  destruct (dryRun s) eqn:Hdry.
  { left. by rewrite (syncUser_dry_run_files s env w user Hdry). }
  destruct (userinfo.Lookup env (files w) (config.Username user))
    as [info|err] eqn:Hl.
  2: { left. by rewrite (syncUser_lookup_failed s env w user err Hl). }
  destruct (keyfetcher.FetchAll env w (config.Sources user))
    as [frs [err|]] eqn:Hf.
  { left. by rewrite (syncUser_fetch_failed s env w user info frs err Hl Hf). }
  destruct (syncUser_key_file s env w user info frs Hdry Hl Hf)
    as (_ & _ & _ & d' & Hfiles & _).
  rewrite Hfiles.
  destruct (decide (userinfo.SSHDir info = path)) as [<-|Hne].
  - right. split; [done|].
    destruct (Lookup_ok_directory _ _ _ _ Hl) as [d Hd].
    exists info, d, d'. by rewrite lookup_insert_eq.
  - left. by rewrite lookup_insert_ne.
Qed.

(** X8. A successful synchronisation writes what was built.  When the
    outcome for a user has no error, the user was not skipped and the run
    is not a dry run, then the user resolved, every source answered, and
    the key file holds exactly the content built from the answers and the
    previous key file; the other files of the directory are as before; the
    counts of the outcome are those of the build; the outcome reports no
    change exactly when the key file could be read and held that content
    already, and then no backup was made and the directory is as it was. *)
Theorem syncUser_success_writes_content :
  forall s env w user,
    let r := (syncUser s env w user).1 in
    let w' := (syncUser s env w user).2 in
    Error r = None -> Skipped r = false -> dryRun s = false ->
    exists info frs d d',
      userinfo.Lookup env (files w) (config.Username user) = Ok info /\
      keyfetcher.FetchAll env w (config.Sources user) = (frs, None) /\
      files w !! userinfo.SSHDir info = Some (Directory d) /\
      files w' = <[userinfo.SSHDir info := Directory d']> (files w) /\
      authKeys d' = Some (buildContent s env d frs).1 /\
      others d' = others d /\
      KeysWritten r = TotalKeys (buildContent s env d frs).2 /\
      LocalKeys r = LocalKeysCount (buildContent s env d frs).2 /\
      (Changed r = false <->
       ioError env ReadAuthKeys = None /\
       authKeys d = Some (buildContent s env d frs).1) /\
      (Changed r = false -> BackupPath r = [] /\ d' = d).
Proof.
  intros s env w user r w' Herr Hskip Hdry. subst r w'.
  destruct (userinfo.Lookup env (files w) (config.Username user))
    as [info|err] eqn:Hl.
  2: { rewrite (syncUser_lookup_failed s env w user err Hl) in Herr, Hskip.
       cbn [fst] in *. by repeat case_match. }
  destruct (keyfetcher.FetchAll env w (config.Sources user))
    as [frs [err|]] eqn:Hf.
  { by rewrite (syncUser_fetch_failed s env w user info frs err Hl Hf)
      in Herr. }
  destruct (syncUser_key_file s env w user info frs Hdry Hl Hf)
    as (_ & Hkw & Hlk & d' & Hfiles & Hkeys).
  rewrite Herr in Hkeys. destruct Hkeys as (Ha & Ho & Hch & Hsame & _).
  destruct (Lookup_ok_directory _ _ _ _ Hl) as [d Hd].
  rewrite (sshDirAt_lookup _ _ _ Hd) in *.
  rewrite readFile_ok in Hch. exists info, frs, d, d'. by split_and!.
Qed.

Lemma syncUser_success_writes_content_witness :
  keyFileAt
    (files (syncUser (example.syncer false) (example.calm example.noon)
              example.machine example.alice).2)
    (str "/home/alice/.ssh") =
  Some (buildContent (example.syncer false) (example.calm example.noon)
          example.aliceDir example.fetchedAlice).1.
Proof.
  destruct (syncUser_success_writes_content (example.syncer false)
              (example.calm example.noon) example.machine example.alice)
    as (info & frs & d & d' & Hl & Hf & Hd & Hfiles & Ha & _);
    [by vm_compute|by vm_compute|reflexivity|].
  assert (info = example.aliceInfo) as ->
    by (vm_compute in Hl; injection Hl as <-; reflexivity).
  assert (frs = example.fetchedAlice) as ->
    by (unfold example.fetchedAlice; by rewrite Hf).
  assert (d = example.aliceDir) as ->
    by (vm_compute in Hd; injection Hd as <-; reflexivity).
  rewrite Hfiles. unfold keyFileAt.
  change (userinfo.SSHDir example.aliceInfo) with (str "/home/alice/.ssh").
  by rewrite lookup_insert_eq.
Defined.

End Pipeline.

(** ** Package sync: a second run *)

Section SecondRun.
Import world fs sync.

(** X9. A second run over the same answers.  Take a run for a user, not a
    dry run, that succeeded, and a second run on the machine as the first one left it, in
    which the user resolves to the same directory, the sources give the same
    answers and the key file can be read; the lines of the header and the
    lines that open the sections fit the scanner of the key parser.  Then
    the key file after the first run and the content of the second run are
    the same sections and the same local keys rendered with the time of
    their run, and the counts of the two outcomes agree.  If the two time
    stamps are equal, the second run reports no error and no change, makes
    no backup and leaves every file as it is.  If they differ, a second run
    that reports no error reports a change and, with backups enabled, a
    backup. *)
Theorem syncUser_second_run :
  forall s env env' w user info frs,
    dryRun s = false ->
    userinfo.Lookup env (files w) (config.Username user) = Ok info ->
    keyfetcher.FetchAll env w (config.Sources user) = (frs, None) ->
    let first := syncUser s env w user in
    Error first.1 = None ->
    userinfo.Lookup env' (files first.2) (config.Username user) = Ok info ->
    keyfetcher.FetchAll env' first.2 (config.Sources user) = (frs, None) ->
    ioError env' ReadAuthKeys = None ->
    plainInfo (build s) ->
    Forall plainSource frs ->
    let second := syncUser s env' first.2 user in
    let timestamp := gotime.FormatISO (buildTime env) in
    let timestamp' := gotime.FormatISO (buildTime env') in
    exists sources localKeys,
      keyFileAt (files first.2) (userinfo.SSHDir info) =
        Some (render (build s) timestamp sources localKeys) /\
      (Error second.1 = None ->
       keyFileAt (files second.2) (userinfo.SSHDir info) =
         Some (render (build s) timestamp' sources localKeys)) /\
      KeysWritten second.1 = KeysWritten first.1 /\
      LocalKeys second.1 = LocalKeys first.1 /\
      (timestamp' = timestamp ->
       Error second.1 = None /\ Changed second.1 = false /\
       BackupPath second.1 = [] /\ files second.2 = files first.2) /\
      (timestamp' <> timestamp -> Error second.1 = None ->
       Changed second.1 = true /\
       (config.IsBackupEnabled (config.policy (cfg s)) = true ->
        BackupPath second.1 <> [])).
Proof.
  intros s env env' w user info frs Hdry Hl Hf first Herr Hl' Hf' Hread
    Hv Hplain second timestamp timestamp'.
  assert (Forall (fun fr => Forall cleanKey (remoteLines fr)) frs) as Hclean.
  { replace frs with (keyfetcher.FetchAll env w (config.Sources user)).1
      by (by rewrite Hf).
    apply FetchAll_keys_clean. }
  destruct (syncUser_key_file s env w user info frs Hdry Hl Hf)
    as (_ & Hkw & Hlk & d1 & Hfiles & Hkeys).
  fold first in Hkw, Hlk, Hfiles, Hkeys. rewrite Herr in Hkeys.
  destruct Hkeys as (Ha & _).
  set (d := sshDirAt (files w) (userinfo.SSHDir info)) in *.
  assert (files first.2 !! userinfo.SSHDir info = Some (Directory d1)) as Hd1
    by (by rewrite Hfiles, lookup_insert_eq).
  assert (sshfile.ReadContent env' d1 = Ok (buildContent s env d frs).1)
    as Hrc
    by (unfold sshfile.ReadContent, sshfile.readFile; by rewrite Hread, Ha).
  destruct (buildContent_again s env env' d d1 frs Hv Hplain Hclean Hrc)
    as (Hc & Hc' & Htotal & Hlocal).
  destruct (syncUser_key_file s env' first.2 user info frs Hdry Hl' Hf')
    as (_ & Hkw' & Hlk' & d2 & Hfiles' & Hkeys').
  fold second in Hkw', Hlk', Hfiles', Hkeys'.
  rewrite (sshDirAt_lookup _ _ _ Hd1) in Hkw', Hlk', Hkeys'.
  eexists _, _. split; [|split; [|split; [|split; [|split]]]].
  - by rewrite (keyFileAt_directory _ _ _ Hd1), Ha, Hc.
  - intros Hnone. rewrite Hnone in Hkeys'. destruct Hkeys' as (Ha' & _).
    rewrite Hfiles', keyFileAt_insert, decide_True by done.
    by rewrite Ha', Hc'.
  - congruence.
  - congruence.
  - intros Hts.
    assert ((buildContent s env' d1 frs).1 = (buildContent s env d frs).1)
      as Hsame by (rewrite Hc, Hc'; fold timestamp timestamp'; by rewrite Hts).
    assert (sshfile.readFile env' d1 =
            Ok (Some (buildContent s env' d1 frs).1)) as Hrf
      by (apply readFile_ok; by rewrite Hsame).
    pose proof (backupStep_same s env' d1 (userinfo.SSHDir info)
                  (buildContent s env' d1 frs).1) as Hstep.
    pose proof (WriteAtomic_same env' d1 (userinfo.SSHDir info) _ Hrf) as Hw.
    subst second.
    rewrite (syncUser_run s env' first.2 user info frs Hdry Hl' Hf').
    rewrite (sshDirAt_lookup _ _ _ Hd1).
    rewrite Hstep by (by rewrite Hrc, Hsame).
    cbn [fst snd]. rewrite Hw. cbn.
    split; [done|]. split; [done|]. split; [done|].
    by apply insert_id.
  - intros Hts Hnone. rewrite Hnone in Hkeys'.
    destruct Hkeys' as (_ & _ & Hch & _ & Hbackup).
    assert ((buildContent s env d frs).1 <> (buildContent s env' d1 frs).1)
      as Hne.
    { rewrite Hc, Hc'. intros Heq. apply Hts. symmetry.
      eapply render_timestamp_inj; [|exact Heq].
      unfold timestamp, timestamp'. by rewrite !length_FormatISO. }
    assert (sshfile.readFile env' d1 = Ok (Some (buildContent s env d frs).1))
      as Hrf by (by apply readFile_ok).
    split.
    + destruct (Changed second.1); [done|].
      destruct Hch as [Hch _]. specialize (Hch eq_refl). congruence.
    + intros Hen.
      destruct (buildContent_nonempty s env d frs) as (c & existing & Hb).
      rewrite Hb in Hrf, Hne. by eapply Hbackup.
Qed.

Lemma syncUser_second_run_witness :
  (Changed example.runAgain.1 = false /\
   BackupPath example.runAgain.1 = [] /\
   files example.runAgain.2 = files example.afterFirstRun) /\
  (Changed example.runLater.1 = true /\
   BackupPath example.runLater.1 <> []).
Proof.
  assert (plainInfo (build (example.syncer false))) as Hv
    by (apply (bool_decide_unpack _); by vm_compute).
  assert (Forall plainSource example.fetchedAlice) as Hplain
    by (apply (bool_decide_unpack _); by vm_compute).
  split.
  - destruct (syncUser_second_run (example.syncer false)
                (example.calm example.noon) (example.calm example.noon)
                example.machine example.alice example.aliceInfo
                example.fetchedAlice eq_refl)
      as (sources & localKeys & _ & _ & _ & _ & Hsame & _);
      [by vm_compute|by vm_compute|by vm_compute|by vm_compute|by vm_compute
      |reflexivity|exact Hv|exact Hplain|].
    destruct (Hsame eq_refl) as (_ & H1 & H2 & H3).
    exact (conj H1 (conj H2 H3)).
  - destruct (syncUser_second_run (example.syncer false)
                (example.calm example.noon)
                (example.calm example.oneSecondLater)
                example.machine example.alice example.aliceInfo
                example.fetchedAlice eq_refl)
      as (sources & localKeys & _ & _ & _ & _ & _ & Hlater);
      [by vm_compute|by vm_compute|by vm_compute|by vm_compute|by vm_compute
      |reflexivity|exact Hv|exact Hplain|].
    destruct Hlater as [H1 Hb]; [by vm_compute|by vm_compute|].
    exact (conj H1 (Hb eq_refl)).
Defined.

End SecondRun.

(** ** Package sync: the loop over the users *)

Section RunShape.
Import world fs sync.

Lemma syncUser_username s env w user :
  Username (syncUser s env w user).1 = config.Username user.
Proof.
  destruct (userinfo.Lookup env (files w) (config.Username user))
    as [info|err] eqn:Hl.
  2: { rewrite (syncUser_lookup_failed s env w user err Hl).
       cbn [fst]. by repeat case_match. }
  destruct (keyfetcher.FetchAll env w (config.Sources user))
    as [frs [err|]] eqn:Hf.
  { by rewrite (syncUser_fetch_failed s env w user info frs err Hl Hf). }
  destruct (dryRun s) eqn:Hdry.
  { by rewrite (syncUser_dry_run s env w user info frs Hl Hf Hdry). }
  rewrite (syncUser_run s env w user info frs Hdry Hl Hf).
  match goal with |- context [backupStep ?s ?e ?d ?p ?c ?r] =>
    pose proof (backupStep_stats s e d p c r) as (_ & _ & Hname);
    destruct (backupStep s e d p c r) as [[d1 r1] go] end.
  cbn [fst snd] in *. destruct go; [|done].
  by destruct (sshfile.WriteAtomic _ _ _ _) as [d2 [wr|err]].
Qed.

Lemma runFrom_usernames s envs users : forall i w result,
  Username <$> Users (runFrom s envs i users w result).1 =
  (Username <$> Users result) ++ (config.Username <$> users).
Proof.
  induction users as [|user users IH]; intros i w result.
  - cbn. by rewrite app_nil_r.
  - cbn [runFrom].
    pose proof (syncUser_username s (envs i) w user) as Hname.
    destruct (syncUser s (envs i) w user) as [r w'].
    rewrite IH. cbn [Users fst] in *.
    rewrite fmap_app, <- app_assoc. cbn. by rewrite Hname.
Qed.

(** X10. [Run] gives every configured user an outcome.  The result holds
    exactly one outcome per user of the configuration, in the order of the
    configuration and under the user's name, whatever happens to the users
    before; [HasErrors] is set exactly when one of the outcomes carries an
    error, and a skipped user never carries one. *)
Theorem Run_one_outcome_per_user :
  forall s envs w,
    let result := (Run s envs w).1 in
    Username <$> Users result = config.Username <$> config.Users (cfg s) /\
    (HasErrors result = true <->
     Exists (fun r => is_Some (Error r)) (Users result)) /\
    Forall (fun r => Skipped r = true -> Error r = None) (Users result).
Proof.
  intros s envs w result. subst result. unfold Run. split.
  - by rewrite runFrom_usernames.
  - destruct (runFrom_users s envs (config.Users (cfg s)) 0 w
                {| Users := []; HasErrors := false |})
      as (rs & Hrs & _ & Hskip & Herr).
    rewrite Hrs. cbn [Users app] in *. split; [|done].
    rewrite Herr. cbn. split; [by intros [|]|by right].
Qed.

End RunShape.

(** ** Package keyfetcher *)

Section FetchShape.
Import world keyfetcher.

Lemma length_takeZ n (l : gostring) :
  (0 <= n)%Z -> (Z.of_nat (length (takeZ n l)) <= n)%Z.
Proof. intros Hn. rewrite takeZ_take, length_take. lia. Qed.

Lemma Fetch_source done outcome source :
  Source (Fetch done outcome source) = source.
Proof.
  unfold Fetch. destruct outcome as [e|e|status body]; try done.
  destruct done; [done|]. destruct (negb _); [done|].
  destruct (ReadAll _); [|done]. by destruct (keyparser.ParseString _).
Qed.

(** X11. A fetch result is either a failure without keys or a parsed
    answer.  The result of [Fetch] names the source it was asked for.  A
    result with an error holds no key and counts no discarded line.  A
    result without error comes from an answer with status 200 received
    before the context was done, and holds what the parser makes of the
    bytes read from the body, at most [MaxResponseSize] of them.  The
    status code is 0 unless an answer was received. *)
Theorem Fetch_failure_or_keys :
  forall done outcome source,
    let r := Fetch done outcome source in
    Source r = source /\
    (is_Some (Error r) -> Keys r = [] /\ DiscardedLines r = 0%Z) /\
    (Error r = None ->
     done = false /\ StatusCode r = StatusOK /\
     exists body bytes parseResult,
       outcome = Responded StatusOK body /\
       ReadAll (LimitReader body MaxResponseSize) = Ok bytes /\
       (Z.of_nat (length bytes) <= MaxResponseSize)%Z /\
       keyparser.ParseString bytes = Ok parseResult /\
       Keys r = keyparser.Keys parseResult /\
       DiscardedLines r = keyparser.DiscardedLines parseResult) /\
    (StatusCode r <> 0%Z ->
     exists body, outcome = Responded (StatusCode r) body).
Proof.
  intros done outcome source r. subst r. unfold Fetch.
  destruct outcome as [e|e|status body].
  1,2: split; [done|]; split; [done|]; split; [done|done].
  destruct done.
  { split; [done|]; split; [done|]; split; [done|done]. }
  destruct (Z.eqb_spec status StatusOK) as [->|Hne]; cbn [negb].
  2: { split; [done|]. split; [done|]. split; [done|]. intros _. by eexists. }
  destruct (ReadAll (LimitReader body MaxResponseSize)) as [bytes|e] eqn:Hread.
  2: { split; [done|]. split; [done|]. split; [done|]. intros _. by eexists. }
  assert (Z.of_nat (length bytes) <= MaxResponseSize)%Z as Hlen.
  { unfold ReadAll in Hread. destruct (gostrings.readErr _); [done|].
    injection Hread as <-. unfold LimitReader. cbn [gostrings.data].
    apply length_takeZ. by apply (bool_decide_unpack _). }
  destruct (keyparser.ParseString bytes) as [parseResult|e] eqn:Hparse.
  2: { split; [done|]. split; [done|]. split; [done|]. intros _. by eexists. }
  split; [done|]. split; [by intros [? [=]]|]. split.
  - intros _. split; [done|]. split; [done|]. by exists body, bytes, parseResult.
  - intros _. by eexists.
Qed.

Lemma fetchFrom_shape env w sources : forall i results,
  let out := fetchFrom env w i sources results in
  exists k,
    out.1 = results ++ imap (fun j => fetched env w (i + j)) (take k sources) /\
    match out.2 with
    | None =>
        k = length sources /\
        Forall (fun fr => Error fr = None)
          (imap (fun j => fetched env w (i + j)) sources)
    | Some err =>
        exists source e,
          sources !! (k - 1) = Some source /\ 0 < k /\
          Error (fetched env w (i + (k - 1)) source) = Some e /\
          err = Wrapf "source %s failed: %w" e /\
          Forall (fun fr => Error fr = None)
            (imap (fun j => fetched env w (i + j)) (take (k - 1) sources))
    end.
Proof.
  induction sources as [|source sources IH]; intros i results out; subst out.
  - exists 0. cbn. by rewrite app_nil_r.
  - cbn [fetchFrom]. fold (fetched env w i source).
    destruct (Error (fetched env w i source)) as [e|] eqn:He.
    + exists 1. cbn [fst snd take imap]. rewrite Nat.add_0_r.
      split; [done|]. exists source, e. cbn. rewrite Nat.add_0_r.
      repeat split; try done. lia.
    + destruct (IH (S i) (results ++ [fetched env w i source])) as (k & Hk & Hrest).
      exists (S k). rewrite Hk. cbn [take imap]. rewrite Nat.add_0_r.
      split.
      { rewrite <- app_assoc. cbn. do 2 f_equal.
        apply imap_ext. intros j x _. cbn. f_equal. lia. }
      destruct (fetchFrom env w (S i) sources _).2 as [err|].
      * destruct Hrest as (src & e & Hsrc & Hpos & Hfail & -> & Hok).
        exists src, e. replace (S k - 1) with (S (k - 1)) by lia.
        cbn [lookup list_lookup take imap]. rewrite Nat.add_0_r.
        split; [done|]. split; [lia|]. split.
        { by replace (i + S (k - 1)) with (S i + (k - 1)) by lia. }
        split; [done|]. constructor; [done|].
        erewrite imap_ext; [exact Hok|]. intros j x _. cbn. f_equal. lia.
      * destruct Hrest as [-> Hok]. split; [done|]. constructor; [done|].
        erewrite imap_ext; [exact Hok|]. intros j x _. cbn. f_equal. lia.
Qed.

Lemma take_imap_comm {A B} (l : list A) : forall (f : nat -> A -> B) n,
  take n (imap f l) = imap f (take n l).
Proof.
  induction l as [|x l IH]; intros f n; [by destruct n|].
  destruct n as [|n]; [done|]. cbn. by rewrite IH.
Qed.

Lemma fmap_Source_imap env w l : forall n,
  Source <$> imap (fun j => fetched env w (n + j)) l = l.
Proof.
  induction l as [|x l IH]; intros n; [done|].
  cbn [imap fmap list_fmap]. f_equal; [apply Fetch_source|].
  etrans; [|apply (IH (S n))]. f_equal.
  apply imap_ext. intros j y _. cbn. f_equal. lia.
Qed.

(** X12. [FetchAll] stops at the first source that fails.  The results are
    those of the first [k] sources, in order, each fetched once at its
    position.  Without error [k] is the number of sources and no result
    carries an error.  With an error, the last result is the only one that
    carries an error, the error returned wraps it, and no later source is
    contacted. *)
Theorem FetchAll_stops_at_first_failure :
  forall env w sources,
    let results := (FetchAll env w sources).1 in
    let err := (FetchAll env w sources).2 in
    exists k,
      results = imap (fetched env w) (take k sources) /\
      Source <$> results = take k sources /\
      match err with
      | None => k = length sources /\ Forall (fun fr => Error fr = None) results
      | Some err =>
          exists source e,
            0 < k /\ sources !! (k - 1) = Some source /\
            last results = Some (fetched env w (k - 1) source) /\
            Error (fetched env w (k - 1) source) = Some e /\
            err = Wrapf "source %s failed: %w" e /\
            Forall (fun fr => Error fr = None) (take (k - 1) results)
      end.
Proof.
  intros env w sources results err. subst results err. unfold FetchAll.
  destruct (fetchFrom_shape env w sources 0 []) as (k & Hk & Hrest).
  cbn [app] in Hk. exists k. rewrite Hk.
  assert (forall l, imap (fun j => fetched env w (0 + j)) l =
                    imap (fetched env w) l) as Himap
    by (intros l; by apply imap_ext).
  rewrite Himap in *. split; [done|]. split.
  { rewrite <- (Himap (take k sources)). apply fmap_Source_imap. }
  destruct (fetchFrom env w 0 sources []).2 as [e0|].
  - destruct Hrest as (source & e & Hsrc & Hpos & Hfail & -> & Hok).
    exists source, e. cbn [Nat.add] in *. rewrite ?Himap in Hok.
    split; [done|]. split; [done|]. split.
    { rewrite last_lookup, length_imap, length_take.
      apply lookup_lt_Some in Hsrc as Hlt.
      replace (Init.Nat.pred (k `min` length sources)) with (k - 1) by lia.
      rewrite list_lookup_imap, lookup_take_lt by lia. by rewrite Hsrc. }
    split; [done|]. split; [done|].
    rewrite take_imap_comm, take_take.
    by replace ((k - 1) `min` k) with (k - 1) by lia.
  - destruct Hrest as [-> Hok]. rewrite ?Himap in Hok.
    by rewrite firstn_all.
Qed.

End FetchShape.

(** ** Package keyparser: further properties *)

Section ParserMore.
Import gostrings.

Lemma length_keptFrom texts : forall n,
  length (keptFrom n texts) =
  length (filter (fun t => keyparser.isValidKey (TrimSpace t) = true) texts).
Proof.
  induction texts as [|t texts IH]; intros n; [done|].
  cbn [keptFrom]. rewrite length_app, IH, filter_cons.
  destruct (keyparser.isValidKey (TrimSpace t)) eqn:Hv.
  - by rewrite decide_True by done.
  - by rewrite decide_False by done.
Qed.

Lemma line_accounting texts :
  length (filter (fun t => keyparser.isValidKey (TrimSpace t) = true) texts) +
  length (filter counted texts) + length (filter blank texts) =
  length texts.
Proof.
  induction texts as [|t texts IH]; [done|].
  rewrite !filter_cons.
  destruct (decide (keyparser.isValidKey (TrimSpace t) = true)) as [Hv|Hv],
    (decide (counted t)) as [Hc|Hc], (decide (blank t)) as [Hb|Hb];
    cbn [length]; try lia; exfalso; unfold counted, blank in *.
  - destruct Hc as [_ Hc]. congruence.
  - destruct Hc as [_ Hc]. congruence.
  - rewrite Hb in Hv. done.
  - by destruct Hc.
  - apply Hc. split; [done|]. by destruct (keyparser.isValidKey _).
Qed.

Lemma keptFrom_numbers texts : forall n k,
  k ∈ keptFrom n texts ->
  (n + 1 <= keyparser.LineNumber k <= n + Z.of_nat (length texts))%Z.
Proof.
  induction texts as [|t texts IH]; intros n k Hk.
  - by apply not_elem_of_nil in Hk.
  - cbn [keptFrom] in Hk. apply elem_of_app in Hk as [Hk|Hk].
    + destruct (keyparser.isValidKey _); [|by apply not_elem_of_nil in Hk].
      apply list_elem_of_singleton in Hk as ->. cbn. lia.
    + apply IH in Hk. cbn [length]. lia.
Qed.

(** X13. The parser accounts for every line.  When [Parse] succeeds, every
    line of the input is either kept as a key, counted as discarded, or
    blank after trimming: the three numbers add up to the number of lines.
    The line number of a kept key lies between 1 and the number of
    lines. *)
Theorem Parse_accounts_for_every_line :
  forall r res,
    keyparser.Parse r = Ok res ->
    (Z.of_nat (length (keyparser.Keys res)) + keyparser.DiscardedLines res +
     Z.of_nat (length (filter blank (lineTexts (data r)))) =
     Z.of_nat (length (splitLines (data r))))%Z /\
    (0 <= keyparser.DiscardedLines res)%Z /\
    Forall (fun k =>
              (1 <= keyparser.LineNumber k <=
               Z.of_nat (length (splitLines (data r))))%Z)
      (keyparser.Keys res).
Proof.
  intros r res [-> _]%Parse_ok_parsed. cbn [keyparser.Keys parsed
    keyparser.DiscardedLines].
  pose proof (line_accounting (lineTexts (data r))) as H.
  rewrite <- length_keptFrom with (n := 0%Z) in H.
  assert (length (lineTexts (data r)) = length (splitLines (data r))) as Hlen
    by (unfold lineTexts; by rewrite length_fmap).
  split; [lia|]. split; [lia|].
  apply Forall_forall. intros k Hk%keptFrom_numbers. lia.
Qed.

Lemma Parse_accounts_for_every_line_witness :
  exists res,
    keyparser.ParseString example.table = Ok res /\
    (Z.of_nat (length (keyparser.Keys res)) + keyparser.DiscardedLines res +
     Z.of_nat (length (filter blank (lineTexts example.table))) =
     Z.of_nat (length (splitLines example.table)))%Z.
Proof.
  destruct (keyparser.ParseString example.table) as [res|e] eqn:H;
    [|by vm_compute in H].
  exists res. split; [done|].
  by destruct (Parse_accounts_for_every_line (NewReader example.table) res H).
Defined.

(** X14. A key the parser returns parses to itself.  Every key line that
    [Parse] returns is accepted by [IsValidKey], and [ParseString] of that
    line alone returns exactly that one key, at line 1, with nothing
    discarded: the parser's output needs no further cleaning. *)
Theorem Parse_keys_parse_to_themselves :
  forall r res k,
    keyparser.Parse r = Ok res ->
    k ∈ keyparser.Keys res ->
    keyparser.IsValidKey (keyparser.Line k) = true /\
    keyparser.ParseString (keyparser.Line k) =
      Ok {| keyparser.Keys :=
              [ {| keyparser.Line := keyparser.Line k;
                   keyparser.LineNumber := 1 |} ];
            keyparser.DiscardedLines := 0 |}.
Proof.
  intros r res k Hres Hk.
  pose proof (Parse_keys_clean r res Hres) as Hclean.
  eapply Forall_forall in Hclean; [|by apply list_elem_of_fmap_2].
  destruct Hclean as (Hv & [Hnl Hshort] & Htrim).
  set (L := keyparser.Line k) in *.
  assert (TrimSpace L = L) as HL.
  { rewrite <- Htrim at 1. by rewrite TrimSpace_idemp. }
  split; [unfold keyparser.IsValidKey; by rewrite HL|].
  assert (L <> []) as Hne by (by intros HL0; rewrite HL0 in Hv).
  unfold keyparser.ParseString.
  rewrite Parse_ok; cbn [data NewReader readErr]; [|done|].
  2: { rewrite splitLines_last by done. by constructor. }
  unfold parsed, lineTexts. rewrite splitLines_last by done.
  cbn [fmap list_fmap keptFrom]. rewrite Htrim, Hv.
  rewrite filter_cons, decide_False; [done|].
  unfold counted. rewrite Htrim. intros [_ ?]. congruence.
Qed.

Lemma Parse_keys_parse_to_themselves_witness :
  keyparser.IsValidKey example.sharedKey = true /\
  keyparser.ParseString example.sharedKey =
    Ok {| keyparser.Keys :=
            [ {| keyparser.Line := example.sharedKey;
                 keyparser.LineNumber := 1 |} ];
          keyparser.DiscardedLines := 0 |}.
Proof.
  destruct (keyparser.Parse (NewReader example.keysA)) as [res|e] eqn:H;
    [|by vm_compute in H].
  apply (Parse_keys_parse_to_themselves (NewReader example.keysA) res
           {| keyparser.Line := example.sharedKey;
              keyparser.LineNumber := 2 |} H).
  vm_compute in H. injection H as <-. vm_compute. set_solver.
Defined.

End ParserMore.

(** ** Package sync: the content builder *)

Section BuilderMore.
Import world fs sync gostrings.

(** The parser on the built content, for clean keys and scannable section
    lines. *)
Lemma buildContent_parsed s env d frs :
  plainInfo (build s) ->
  Forall plainSource frs ->
  Forall (fun fr => Forall cleanKey (remoteLines fr)) frs ->
  exists res,
    keyparser.ParseString (buildContent s env d frs).1 = Ok res /\
    linesOf (keyparser.Keys res) =
      mjoin (keptPerSource frs ∅) ++
      newKeys Local (localParsed s env d) (seenAfterSources frs ∅).
Proof.
  intros Hv Hfrs Hclean.
  rewrite buildContent_spec. cbn [fst].
  set (localKeys :=
         newKeys Local (localParsed s env d) (seenAfterSources frs ∅)).
  assert (Forall cleanKey (mjoin (keptPerSource frs ∅))) as Hkept.
  { apply Forall_forall. intros L (_ & fr & Hfr & HL)%elem_of_keptPerSource.
    eapply Forall_forall in Hclean; [|exact Hfr].
    eapply Forall_forall in Hclean; [done|exact HL]. }
  assert (Forall cleanKey localKeys) as Hlocal.
  { apply Forall_forall. intros L [HL _]%elem_of_newKeys.
    pose proof (localParsed_clean s env d) as H.
    eapply Forall_forall in H; [done|exact HL]. }
  destruct (ParseString_render (build s)
              (gotime.FormatISO (buildTime env))
              (sectionsOf frs (keptPerSource frs ∅)) localKeys)
    as (res & Hres & Hkeys); [| |done|].
  - apply fileLines_Forall.
    + by apply headerLines_scannable.
    + apply (bool_decide_unpack _); vm_compute; exact I.
    + apply (bool_decide_unpack _); vm_compute; exact I.
    + done.
    + eapply Forall_impl; [exact Hkept|apply cleanKey_scannable].
    + eapply Forall_impl; [exact Hlocal|apply cleanKey_scannable].
    + apply keptPerSource_length.
  - by rewrite sectionsOf_keys by apply keptPerSource_length.
  - exists res. split; [done|].
    by rewrite Hkeys, sectionsOf_keys by apply keptPerSource_length.
Qed.

(** X15. The generated file parses back to the merged keys.  For the
    results of [FetchAll], with a header and section lines that fit the
    scanner, the parser reads the content [buildContent] made without
    error, and the keys it finds are exactly the keys kept for the sources,
    in the order of the sources, followed by the kept local keys: no key is
    lost, none is invented, none comes twice, their number is [TotalKeys],
    and a line is among them exactly when some source or the local file
    had it. *)
Theorem buildContent_parses_back :
  forall s env d env0 w0 sources,
    let frs := (keyfetcher.FetchAll env0 w0 sources).1 in
    plainInfo (build s) ->
    Forall plainSource frs ->
    exists res,
      keyparser.ParseString (buildContent s env d frs).1 = Ok res /\
      linesOf (keyparser.Keys res) =
        mjoin (keptPerSource frs ∅) ++
        newKeys Local (localParsed s env d) (seenAfterSources frs ∅) /\
      NoDup (linesOf (keyparser.Keys res)) /\
      Z.of_nat (length (keyparser.Keys res)) =
        TotalKeys (buildContent s env d frs).2 /\
      (forall L,
         L ∈ linesOf (keyparser.Keys res) <->
         L ∈ (frs ≫= remoteLines) ++ linesOf (localParsed s env d)).
Proof.
  intros s env d env0 w0 sources frs Hv Hplain.
  destruct (buildContent_parsed s env d frs Hv Hplain) as (res & Hres & Hkeys).
  { apply FetchAll_keys_clean. }
  exists res. split; [done|]. split; [done|]. rewrite Hkeys.
  split; [apply NoDup_file_keys|]. split.
  - rewrite buildContent_spec. cbn [snd TotalKeys].
    rewrite <- Hkeys. unfold linesOf. by rewrite length_fmap.
  - intros L. split; [|apply elem_of_file_keys].
    rewrite !elem_of_app, elem_of_keptPerSource, elem_of_newKeys,
      elem_of_remote_bind.
    intros [(_ & fr & ? & ?)|[? _]]; [left; by exists fr|by right].
Qed.

Lemma buildContent_parses_back_witness :
  exists res,
    keyparser.ParseString
      (buildContent (example.syncer false) (example.calm example.noon)
         example.aliceDir example.fetchedAlice).1 = Ok res /\
    linesOf (keyparser.Keys res) =
      [ str "ssh-ed25519 AAAA alice@laptop"; str "ssh-rsa BBBB shared";
        str "ssh-ed25519 CCCC alice@desk"; str "ssh-rsa OLD alice@old" ].
Proof.
  destruct (buildContent_parses_back (example.syncer false)
              (example.calm example.noon) example.aliceDir
              (example.calm example.noon) example.machine
              (config.Sources example.alice))
    as (res & Hres & Hkeys & _).
  - apply (bool_decide_unpack _). vm_compute. reflexivity.
  - apply (bool_decide_unpack _). vm_compute. reflexivity.
  - exists res. split; [exact Hres|]. rewrite Hkeys. vm_compute. reflexivity.
Defined.

Lemma dedupKeys_lengths origin ks : forall seen,
  length (newDuplicates origin ks seen) + length (newKeys origin ks seen) =
  length ks.
Proof.
  induction ks as [|key ks IH]; intros seen.
  - by destruct (dedupKeys_nil origin seen) as (_ & -> & ->).
  - destruct (seen !! keyparser.Line key) as [first|] eqn:Hseen.
    + destruct (dedupKeys_seen origin key ks seen first Hseen)
        as (_ & -> & ->).
      cbn [length]. specialize (IH seen). lia.
    + destruct (dedupKeys_fresh origin key ks seen Hseen) as (_ & -> & ->).
      cbn [length]. specialize (IH (<[keyparser.Line key := origin]> seen)).
      lia.
Qed.

Lemma dedupSources_lengths frs : forall seen,
  length (duplicatesOfSources frs seen) +
  length (mjoin (keptPerSource frs seen)) =
  length (frs ≫= remoteLines).
Proof.
  induction frs as [|fr frs IH]; intros seen; [done|].
  cbn [duplicatesOfSources keptPerSource]. rewrite mjoin_cons, bind_cons.
  rewrite !length_app.
  rewrite <- (IH (seenAfter (originOf fr) (keyfetcher.Keys fr) seen)).
  pose proof (dedupKeys_lengths (originOf fr) (keyfetcher.Keys fr) seen) as H.
  unfold remoteLines, linesOf. rewrite length_fmap. lia.
Qed.

(** X16. The builder accounts for every key it was given.  Every key line
    of the fetch results and of the parsed local file is either written to
    the content or recorded as a duplicate: [TotalKeys] plus the number of
    duplicate events is the number of key lines given.  [LocalKeysCount]
    is at most [TotalKeys] and at most the number of local key lines, and
    both counts are what was written: the kept keys of the sources and the
    kept local keys. *)
Theorem buildContent_accounts_for_every_key :
  forall s env d frs,
    let stats := (buildContent s env d frs).2 in
    let kept := mjoin (keptPerSource frs ∅) in
    let localKeys :=
      newKeys Local (localParsed s env d) (seenAfterSources frs ∅) in
    (TotalKeys stats + Z.of_nat (length (Duplicates stats)) =
     Z.of_nat (length (frs ≫= remoteLines) +
               length (localParsed s env d)))%Z /\
    TotalKeys stats = Z.of_nat (length kept + length localKeys) /\
    LocalKeysCount stats = Z.of_nat (length localKeys) /\
    (0 <= LocalKeysCount stats <= TotalKeys stats)%Z /\
    (LocalKeysCount stats <= Z.of_nat (length (localParsed s env d)))%Z.
Proof.
  intros s env d frs stats kept localKeys. subst stats.
  rewrite buildContent_spec.
  cbn [snd TotalKeys LocalKeysCount Duplicates].
  fold kept localKeys. rewrite !length_app.
  pose proof (dedupSources_lengths frs ∅) as H1.
  pose proof (dedupKeys_lengths Local (localParsed s env d)
                (seenAfterSources frs ∅)) as H2.
  fold kept in H1. fold localKeys in H2. lia.
Qed.

Lemma localParsed_noLocalInput s env d :
  noLocalInput s env d -> localParsed s env d = [].
Proof.
  unfold noLocalInput, localParsed, sshfile.ReadContent, sshfile.readFile.
  intros Hno.
  destruct (config.IsPreserveLocalKeys _); [|done].
  destruct Hno as [?|[[e He]|[Hd|[Hd|(content & Hd & Hlong)]]]]; [done|..].
  - by rewrite He.
  - rewrite Hd. by destruct (ioError env ReadAuthKeys).
  - rewrite Hd. by destruct (ioError env ReadAuthKeys).
  - rewrite Hd. destruct (ioError env ReadAuthKeys); [done|].
    destruct content as [|c content]; [done|].
    unfold keyparser.ParseString.
    by rewrite (Parse_too_long (NewReader (c :: content)) Hlong).
Qed.

(** X17. A key file that gives no local key never fails the build.  When
    local keys are not preserved, or the key file cannot be read, is absent
    or empty, or holds a line that does not fit the scanner, the builder
    goes on without local keys: the content is the header and the sections
    of the sources only, [LocalKeysCount] is 0, and the result is the same
    for every other such directory. *)
Theorem buildContent_without_local_keys :
  forall s env d frs,
    noLocalInput s env d ->
    buildContent s env d frs =
      (render (build s) (gotime.FormatISO (buildTime env))
         (sectionsOf frs (keptPerSource frs ∅)) [],
       {| TotalKeys := Z.of_nat (length (mjoin (keptPerSource frs ∅)));
          LocalKeysCount := 0;
          Duplicates := duplicatesOfSources frs ∅ |}) /\
    (forall d', noLocalInput s env d' ->
       buildContent s env d' frs = buildContent s env d frs).
Proof.
  intros s env d frs Hno.
  assert (forall d0, noLocalInput s env d0 ->
            buildContent s env d0 frs =
              (render (build s) (gotime.FormatISO (buildTime env))
                 (sectionsOf frs (keptPerSource frs ∅)) [],
               {| TotalKeys := Z.of_nat (length (mjoin (keptPerSource frs ∅)));
                  LocalKeysCount := 0;
                  Duplicates := duplicatesOfSources frs ∅ |})) as H.
  { intros d0 H0. rewrite buildContent_spec.
    rewrite (localParsed_noLocalInput s env d0 H0).
    destruct (dedupKeys_nil Local (seenAfterSources frs ∅)) as (_ & -> & ->).
    by rewrite !app_nil_r. }
  split; [by apply H|]. intros d' Hd'. by rewrite !H.
Qed.

Lemma buildContent_without_local_keys_witness :
  LocalKeysCount
    (buildContent (example.syncer false) (example.calm example.noon)
       emptyDir example.fetchedAlice).2 = 0%Z.
Proof.
  destruct (buildContent_without_local_keys (example.syncer false)
              (example.calm example.noon) emptyDir example.fetchedAlice)
    as [-> _]; [|reflexivity].
  right. right. by left.
Defined.

End BuilderMore.

(** ** Package config: validation *)

Section Validation.
Import config validation.

Variable mapUpper : gostring -> gostring.

Lemma validateSources_None sources : forall j,
  validateSources mapUpper sources j = None <->
  Forall (validSource mapUpper) sources.
Proof.
  induction sources as [|source rest IH]; intros j; cbn [validateSources].
  - split; [constructor|done].
  - rewrite Forall_cons. unfold validSource at 1.
    destruct (bool_decide_reflect (URL source = [])) as [Hurl|Hurl].
    { split; [done|]. by intros [[? _] _]. }
    destruct (bool_decide_reflect (GetMethod mapUpper source <> str "GET"))
      as [Hget|Hget];
    destruct (bool_decide_reflect (GetMethod mapUpper source <> str "POST"))
      as [Hpost|Hpost]; cbn [andb].
    { split; [done|]. by intros [(_ & [?|?] & _) _]. }
    all: destruct (Z.leb_spec (GetTimeoutSeconds source) 0) as [Ht|Ht].
    all: try (split; [done|]; intros [(_ & _ & ?) _]; lia).
    all: rewrite (IH (S j)); split; [intros ?|by intros [_ ?]].
    all: split; [|done]; split; [done|]; split; [|done].
    + right. by destruct (decide (GetMethod mapUpper source = str "POST")).
    + left. by destruct (decide (GetMethod mapUpper source = str "GET")).
    + left. by destruct (decide (GetMethod mapUpper source = str "GET")).
Qed.

Lemma validateUsers_None users : forall i (usernames : gmap gostring bool),
  validateUsers mapUpper users i usernames = None <->
  Forall (validUser mapUpper) users /\
  NoDup (Username <$> users) /\
  (forall u, u ∈ users -> default false (usernames !! Username u) = false).
Proof.
  induction users as [|user rest IH]; intros i usernames;
    cbn [validateUsers].
  - split; [|done]. intros _. split; [constructor|].
    split; [constructor|]. by intros u ?%not_elem_of_nil.
  - rewrite Forall_cons, fmap_cons, NoDup_cons. unfold validUser at 1.
    destruct (bool_decide_reflect (Username user = [])) as [Hname|Hname].
    { split; [done|]. by intros [[[? _] _] _]. }
    destruct (default false (usernames !! Username user)) eqn:Hseen.
    { split; [done|]. intros (_ & _ & Hall).
      rewrite Hall in Hseen by (by left). done. }
    destruct (bool_decide_reflect (length (Sources user) = 0)) as [Hlen|Hlen].
    { split; [done|]. intros [[(_ & Hne & _) _] _].
      by destruct (Sources user). }
    destruct (validateSources mapUpper (Sources user) 0) as [err|] eqn:Hsrc.
    { split; [done|]. intros [[(_ & _ & Hvalid) _] _].
      apply (validateSources_None _ 0) in Hvalid. congruence. }
    apply (validateSources_None _ 0) in Hsrc.
    rewrite (IH (S i)). split.
    + intros (Hrest & Hnd & Hfresh). split.
      { split; [|done]. split; [done|]. split; [|done].
        intros Hnil. by rewrite Hnil in Hlen. }
      split.
      { split; [|done]. intros (u & Hu & Hin)%list_elem_of_fmap.
        specialize (Hfresh u Hin). rewrite <- Hu in Hfresh.
        by rewrite lookup_insert_eq in Hfresh. }
      intros u [->|Hin]%elem_of_cons; [done|].
      specialize (Hfresh u Hin).
      destruct (decide (Username user = Username u)) as [Heq|Hne].
      * rewrite Heq, lookup_insert_eq in Hfresh. done.
      * by rewrite lookup_insert_ne in Hfresh.
    + intros ([_ Hrest] & [Hnotin Hnd] & Hfresh).
      split; [done|]. split; [done|].
      intros u Hin.
      rewrite lookup_insert_ne.
      * apply Hfresh. by right.
      * intros Heq. apply Hnotin. rewrite Heq. by apply list_elem_of_fmap_2.
Qed.

(** X18. [Validate] accepts exactly the well-formed configurations: it
    returns no error if and only if there is at least one user, the backup
    retention count is not negative, the user names are not empty and
    pairwise distinct, every user has at least one source, and every source
    has a URL that is not empty, a method that is GET or POST once put in
    upper case (GET when none is given) and a positive timeout (10 seconds
    when none is given). *)
Theorem Validate_accepts_exactly :
  forall c,
    Validate mapUpper c = None <->
    Users c <> [] /\
    (0 <= GetBackupRetentionCount (policy c))%Z /\
    NoDup (Username <$> Users c) /\
    Forall (validUser mapUpper) (Users c).
Proof.
  intros c. unfold Validate.
  destruct (bool_decide_reflect (length (Users c) = 0)) as [Hlen|Hlen].
  { split; [done|]. intros [Hne _]. by destruct (Users c). }
  destruct (Z.ltb_spec (GetBackupRetentionCount (policy c)) 0) as [Hr|Hr].
  { split; [done|]. intros (_ & ? & _). lia. }
  rewrite validateUsers_None. split.
  - intros (Hvalid & Hnd & _). split; [|done].
    intros Hnil. by rewrite Hnil in Hlen.
  - intros (_ & _ & Hnd & Hvalid). split; [done|]. split; [done|].
    intros u _. by rewrite lookup_empty.
Qed.

End Validation.

(** ** Package nanoid *)

Section NanoID.

Lemma alphabet_lower k :
  k < 26 -> validation.isLowerASCII (nth k nanoid.alphabet Ascii.zero) = true.
Proof.
  intros Hk. do 26 (destruct k as [|k]; [reflexivity|]). lia.
Qed.

(** X19. An identifier is six lower-case letters.  [Generate] fails
    exactly when the random source fails, with its error; otherwise the
    identifier has exactly six bytes and each is one of the letters a to z,
    whatever bytes the random source wrote. *)
Theorem Generate_six_lowercase_letters :
  forall entropy,
    match nanoid.Generate entropy with
    | Ok id =>
        (exists bytes, entropy = Ok bytes) /\
        length id = 6 /\
        Forall (fun c => validation.isLowerASCII c = true) id
    | Err err => entropy = Err err
    end.
Proof.
  intros [bytes|err]; [|done]. cbn [nanoid.Generate].
  split; [by eexists|]. split; [done|].
  apply Forall_fmap, Forall_forall. intros i _. unfold compose.
  apply alphabet_lower.
  change (length nanoid.alphabet) with 26.
  apply Nat.mod_upper_bound. lia.
Qed.

End NanoID.

(** ** Package main: the summary *)

Section Summary.
Import sync.

Lemma countResults_acc users : forall successCount skippedCount failedCount,
  main.countResults users successCount skippedCount failedCount =
    ((successCount +
      Z.of_nat (length (filter (fun u => ~ is_Some (Error u) /\
                                         Skipped u = false) users)))%Z,
     (skippedCount +
      Z.of_nat (length (filter (fun u => ~ is_Some (Error u) /\
                                         Skipped u = true) users)))%Z,
     (failedCount +
      Z.of_nat (length (filter (fun u => is_Some (Error u)) users)))%Z).
Proof.
  induction users as [|u users IH]; intros sc kc fc.
  - cbn. by rewrite !Z.add_0_r.
  - cbn [main.countResults]. rewrite !filter_cons.
    destruct (Error u) as [e|] eqn:He.
    + rewrite IH.
      rewrite (decide_False (P := ~ is_Some (Some e) /\ _))
        by (intros [H _]; by apply H).
      rewrite (decide_False (P := ~ is_Some (Some e) /\ _))
        by (intros [H _]; by apply H).
      rewrite decide_True by done. cbn [length].
        apply pair_equal_spec; split; [apply pair_equal_spec; split|]; lia.
    + rewrite (decide_False (P := is_Some None)) by (by intros [? ?]).
      destruct (Skipped u) eqn:Hs; rewrite IH.
      * rewrite decide_False by (by intros [_ ?]).
        rewrite decide_True by (split; [by intros [? ?]|done]).
        cbn [length].
        apply pair_equal_spec; split; [apply pair_equal_spec; split|]; lia.
      * rewrite decide_True by (split; [by intros [? ?]|done]).
        rewrite decide_False by (by intros [_ ?]).
        cbn [length].
        apply pair_equal_spec; split; [apply pair_equal_spec; split|]; lia.
Qed.

(** X20. The summary counts every outcome once.  The three counters of
    [run] are the numbers of outcomes with an error, of skipped outcomes
    without error and of the other outcomes; an outcome with an error counts
    as failed even if it is marked skipped; the counters add up to the
    number of users. *)
Theorem countResults_partition :
  forall users,
    main.countResults users 0 0 0 =
      (Z.of_nat (length (filter (fun u => ~ is_Some (Error u) /\
                                          Skipped u = false) users)),
       Z.of_nat (length (filter (fun u => ~ is_Some (Error u) /\
                                          Skipped u = true) users)),
       Z.of_nat (length (filter (fun u => is_Some (Error u)) users))) /\
    ((main.countResults users 0 0 0).1.1 + (main.countResults users 0 0 0).1.2 +
     (main.countResults users 0 0 0).2 = Z.of_nat (length users))%Z.
Proof.
  intros users. rewrite countResults_acc. cbn [fst snd]. split; [done|].
  induction users as [|u users IH]; [done|].
  rewrite !filter_cons.
  destruct (decide (is_Some (Error u))) as [He|He];
    destruct (Skipped u) eqn:Hs.
  all: repeat case_decide; cbn [length]; try lia.
  all: exfalso; naive_solver.
Qed.

End Summary.

(** ** Backup names and time *)

Section NamesInTime.
Import backup.

Lemma strLeb_app_same p : forall a b, strLeb (p ++ a) (p ++ b) = strLeb a b.
Proof.
  induction p as [|c p IH]; intros a b; [done|].
  cbn [app strLeb]. by rewrite N.ltb_irrefl.
Qed.

(** Two strings of the same length in strict order stay in strict order,
    whatever is appended to them. *)
Lemma strLeb_app_strict p : forall q a b,
  length p = length q -> strLeb p q = true -> p <> q ->
  strLeb (p ++ a) (q ++ b) = true /\ p ++ a <> q ++ b.
Proof.
  induction p as [|x p IH]; intros [|y q] a b Hlen Hle Hne; try done.
  cbn [app strLeb] in *.
  destruct (N.ltb_spec (N_of_ascii x) (N_of_ascii y)) as [Hxy|Hxy].
  { split; [done|]. intros [= -> _]. lia. }
  destruct (N.ltb_spec (N_of_ascii y) (N_of_ascii x)) as [Hyx|Hyx]; [done|].
  assert (x = y) as -> by (apply N_of_ascii_inj; lia).
  destruct (IH q a b) as [H1 H2]; [by injection Hlen|done|congruence|].
  split; [done|]. intros [= ?]. done.
Qed.

Lemma N_of_digitChar d :
  N_of_ascii (gotime.digitChar d) = Z.to_N (48 + d mod 10).
Proof.
  unfold gotime.digitChar. apply N_ascii_embedding.
  pose proof (Z.mod_pos_bound d 10). lia.
Qed.

(** The decimal notation of fixed width keeps the order of the numbers. *)
Lemma decimal_strict width : forall a b,
  (0 <= a < b)%Z -> (b < 10 ^ Z.of_nat width)%Z ->
  strLeb (gotime.decimal width a) (gotime.decimal width b) = true /\
  gotime.decimal width a <> gotime.decimal width b.
Proof.
  induction width as [|w IH]; intros a b Hab Hb.
  { cbn in Hb. lia. }
  cbn [gotime.decimal].
  rewrite Nat2Z.inj_succ, Z.pow_succ_r in Hb by lia.
  assert (a / 10 <= b / 10)%Z as Hdiv by (apply Z.div_le_mono; lia).
  assert (0 <= a / 10)%Z by (apply Z.div_pos; lia).
  assert (b / 10 < 10 ^ Z.of_nat w)%Z
    by (apply Z.div_lt_upper_bound; lia).
  destruct (decide (a / 10 = b / 10)%Z) as [Heq|Hneq].
  - rewrite Heq, strLeb_app_same.
    assert (a mod 10 < b mod 10)%Z as Hmod.
    { pose proof (Z.div_mod a 10). pose proof (Z.div_mod b 10). lia. }
    pose proof (Z.mod_pos_bound a 10). pose proof (Z.mod_pos_bound b 10).
    assert (N_of_ascii (gotime.digitChar a) <
            N_of_ascii (gotime.digitChar b))%N as Hlt
      by (rewrite !N_of_digitChar; lia).
    split.
    + cbn [strLeb]. by rewrite (proj2 (N.ltb_lt _ _) Hlt).
    + intros [= Hd]%app_inv_head. rewrite Hd in Hlt. lia.
  - destruct (IH (a / 10)%Z (b / 10)%Z) as [Hle Hne]; [lia|done|].
    apply strLeb_app_strict; [|done|done].
    by rewrite !length_decimal.
Qed.

(** One more field in front of two strings in the order of the fields. *)
Lemma decimal_step width x y a b :
  (0 <= x < 10 ^ Z.of_nat width)%Z -> (0 <= y < 10 ^ Z.of_nat width)%Z ->
  (x < y)%Z \/ (x = y /\ strLeb a b = true /\ a <> b) ->
  strLeb (gotime.decimal width x ++ a) (gotime.decimal width y ++ b) = true /\
  gotime.decimal width x ++ a <> gotime.decimal width y ++ b.
Proof.
  intros Hx Hy [Hlt|(-> & Hle & Hne)].
  - destruct (decimal_strict width x y) as [H1 H2]; [lia|lia|].
    apply strLeb_app_strict; [|done|done]. by rewrite !length_decimal.
  - rewrite strLeb_app_same. split; [done|]. by intros ?%app_inv_head.
Qed.

Lemma FormatCompact_strict t t' rest rest' :
  wellFormed t -> wellFormed t' -> earlier t t' ->
  strLeb (gotime.FormatCompact t ++ rest) (gotime.FormatCompact t' ++ rest')
    = true /\
  gotime.FormatCompact t ++ rest <> gotime.FormatCompact t' ++ rest'.
Proof.
  intros (Hy & Hmo & Hd & Hh & Hmi & Hs) (Hy' & Hmo' & Hd' & Hh' & Hmi' & Hs').
  unfold earlier, fields, gotime.FormatCompact. cbn [lexLt].
  intros H. rewrite <- !app_assoc.
  apply (decimal_step 4); [lia|lia|].
  destruct H as [?|[? H]]; [by left|right; split; [done|]].
  apply (decimal_step 2); [lia|lia|].
  destruct H as [?|[? H]]; [by left|right; split; [done|]].
  apply (decimal_step 2); [lia|lia|].
  destruct H as [?|[? H]]; [by left|right; split; [done|]].
  assert (forall a b, strLeb a b = true /\ a <> b ->
            strLeb (str "_" ++ a) (str "_" ++ b) = true /\
            str "_" ++ a <> str "_" ++ b) as Hsep.
  { intros a b [? ?]. rewrite strLeb_app_same.
    split; [done|]. by intros ?%app_inv_head. }
  apply Hsep.
  apply (decimal_step 2); [lia|lia|].
  destruct H as [?|[? H]]; [by left|right; split; [done|]].
  apply (decimal_step 2); [lia|lia|].
  destruct H as [?|[? H]]; [by left|right; split; [done|]].
  apply (decimal_step 2); [lia|lia|].
  destruct H as [?|[? H]]; [by left|done].
Qed.

(** X21. Backup names sort by time.  The name [CreateBackup] gives a
    backup made at an earlier second comes strictly before, in the byte
    order [RotateBackups] sorts by, the name of a backup made at a later
    second, whatever the two identifiers are: for backups made at different
    seconds, the oldest names are the oldest backups. *)
Theorem backup_names_sort_by_time :
  forall env env' id id',
    wellFormed (world.backupTime env) ->
    wellFormed (world.backupTime env') ->
    earlier (world.backupTime env) (world.backupTime env') ->
    strLe (backupName env id) (backupName env' id') /\
    backupName env id <> backupName env' id'.
Proof.
  intros env env' id id' Hw Hw' Hearlier. unfold backupName, strLe.
  rewrite strLeb_app_same.
  destruct (FormatCompact_strict _ _ (str "_" ++ id) (str "_" ++ id')
              Hw Hw' Hearlier) as [H1 H2].
  split; [done|]. by intros ?%app_inv_head.
Qed.

Lemma backup_names_sort_by_time_witness :
  strLe (backupName (example.calm example.noon) (str "zzzzzz"))
        (backupName (example.calm example.oneSecondLater) (str "aaaaaa")) /\
  backupName (example.calm example.noon) (str "zzzzzz") <>
  backupName (example.calm example.oneSecondLater) (str "aaaaaa").
Proof.
  apply (backup_names_sort_by_time (example.calm example.noon)
           (example.calm example.oneSecondLater)).
  - vm_compute. repeat split; congruence.
  - vm_compute. repeat split; congruence.
  - vm_compute. do 5 (right; split; [reflexivity|]). left. reflexivity.
Defined.

End NamesInTime.
